(** * Visual-effect engine of the screensaver (src/app.js): a shallow embedding

    The engine is the [BaseVisual] class and its eight subclasses, each with
    the lifecycle [constructor], [resize], [update], [render].

    Conventions of the embedding.
    - A JavaScript number is a real number ([R]): arithmetic is exact, the
      rounding of IEEE doubles, NaN and the infinities are not modelled.
      Surfaces have non-negative width and height, as a canvas does.
      Integer-only computations ([Math.floor] results, loop indices, the
      32-bit hash of the cloud layout) are carried out in [Z] and [nat].
    - [this] is passed explicitly: a method takes the instance record and
      returns the updated one.
    - [Math.random] is a stream of numbers threaded through the monad [Rnd].
    - The 2D context is modelled by what is painted on it: [render] returns
      the instance together with the list of shapes it paints, each shape
      carrying the numbers computed from the instance state.  Constant
      colour stops and stroke styles are not recorded.
    - The attributes a context keeps from one call to the next and that a
      fill or stroke reads without the same [render] having assigned them
      ([lineCap], [lineJoin], [globalAlpha]) are modelled in [Ctx]: a
      [render] is then the list of its calls on the context, and what is
      painted is obtained by running the calls on a context. *)

From Stdlib Require Import String.
From Stdlib Require Import Reals Lra Lia ZArith List Bool Permutation Sorted.
From Equations Require Import Equations.
Import ListNotations.

Open Scope R_scope.

(** ** JavaScript arithmetic helpers *)

Module Js.

(** [Math.floor], with an integer result. *)
Definition floor (x : R) : Z := Zfloor x.

(** Truncation toward zero, the quotient behind the [%] operator. *)
Definition trunc (x : R) : Z :=
  if Rle_dec 0 x then Zfloor x else (- Zfloor (- x))%Z.

(** [x % m] on numbers. *)
Definition rem (x m : R) : R := x - m * IZR (trunc (x / m)).

(** [Math.PI]. *)
Definition Math_PI : R := PI.

(** [x || d] on numbers: [d] when [x] is 0, else [x]. *)
Definition or_else (x d : R) : R := if Req_dec_T x 0 then d else x.

End Js.

(** ** The random source *)

(** [Math.random()] yields numbers of [[0,1)]; the source is the stream of
    the numbers still to come. *)
Definition RandomSource := nat -> R.

Definition valid_source (g : RandomSource) : Prop :=
  forall n, 0 <= g n < 1.

Definition Rnd (A : Type) : Type := RandomSource -> A * RandomSource.

Definition ret {A} (a : A) : Rnd A := fun g => (a, g).

Definition bind {A B} (m : Rnd A) (k : A -> Rnd B) : Rnd B :=
  fun g => let (a, g') := m g in k a g'.

Declare Scope rnd_scope.
Delimit Scope rnd_scope with rnd.
Notation "x <- m ;; k" := (bind m (fun x => k))
  (at level 61, m at next level, right associativity) : rnd_scope.
Open Scope rnd_scope.

(** One call of [Math.random()]. *)
Definition Math_random : Rnd R :=
  fun g => (g O, fun n => g (S n)).

(** [for (let i = start; i < start + n; i++) xs.push(body i)]: the pushed
    elements, in order. *)
Fixpoint for_push {A} (n : nat) (start : nat) (body : nat -> Rnd A)
  : Rnd (list A) :=
  match n with
  | O => ret []
  | S n' =>
      x <- body start ;;
      xs <- for_push n' (S start) body ;;
      ret (x :: xs)
  end.

(** The source that always answers [c]. *)
Definition const_source (c : R) : RandomSource := fun _ => c.

(** ** Scale model *)

Definition REF_AREA : R := 280 * 200.

Definition visualScale (width height : R) : R :=
  sqrt ((width * height) / REF_AREA).

(** ** BaseVisual *)

Module BaseVisual.

Record t := mk {
  width : R;
  height : R;
  time : R;
  scale : R
}.

(** [constructor(canvas, ctx)], from the canvas dimensions. *)
Definition new (canvas_width canvas_height : R) : t :=
  {| width := canvas_width;
     height := canvas_height;
     time := 0;
     scale := visualScale canvas_width canvas_height |}.

Definition resize (w h : R) (v : t) : t :=
  {| width := w;
     height := h;
     time := time v;
     scale := visualScale w h |}.

Definition update (v : t) : t :=
  {| width := width v;
     height := height v;
     time := time v + 0.016;
     scale := scale v |}.

End BaseVisual.

(** [xs.forEach(x => ...)] where the body rewrites the element in place and
    may draw random numbers. *)
Fixpoint forEachM {A} (body : A -> Rnd A) (xs : list A) : Rnd (list A) :=
  match xs with
  | [] => ret []
  | x :: rest =>
      x' <- body x ;;
      rest' <- forEachM body rest ;;
      ret (x' :: rest')
  end.

(** ** What is painted on the 2D context *)

Definition Point : Type := (R * R)%type.

Inductive Shape : Type :=
| Fill (x y w h : R)
    (* fillRect with a constant colour or gradient *)
| MosaicTriangle (a b c : Point) (hue sat light : R)
| SoftDisc (x y r tone : R)
    (* arc filled with a radial gradient; tone is the opacity or the hue *)
| BranchStroke (path : nat) (lineWidth : R)
| LanternSpill (x y spillRadius hue sat : R)
| LanternBody (x y r tilt hue sat ribOffset : R)
| SunDisk (x y r : R)
| BloomSpot (gx gy : R)
| BloomForm (x y rotation swayTilt petalLag size hue sat strokeW t : R)
            (petalPhase : list R) (translucent : bool)
| StreetScene (w h : R)
| CarBox (x y w h : R)
| Star (x y alpha : R)
| WindowLight (x y brightness : R).

(** ** The drawing state of the 2D context *)

(** Every fill and stroke of the engine is preceded, in the same [render]
    call, by the assignment of the [fillStyle], [strokeStyle] and
    [lineWidth] it uses, and the transform is changed between [save] and
    [restore] only: these are part of the shapes.  Three attributes are read
    as the context holds them, possibly from an earlier call: [lineCap],
    [lineJoin] and [globalAlpha]. *)

Module Ctx.

Inductive LineCap : Type := cap_butt | cap_round | cap_square.

Inductive LineJoin : Type := join_miter | join_round | join_bevel.

Record Attrs := mkAttrs {
  lineCap : LineCap;
  lineJoin : LineJoin;
  globalAlpha : R
}.

(** The attributes of a context just created, or reset by an assignment to
    the width or the height of its canvas. *)
Definition initial : Attrs :=
  {| lineCap := cap_butt; lineJoin := join_miter; globalAlpha := 1 |}.

(** The context: its attributes and the stack of [save]. *)
Record t := mk {
  now : Attrs;
  saved : list Attrs
}.

Definition created : t := {| now := initial; saved := [] |}.

(** A call on the context. *)
Inductive Op : Type :=
| set_lineCap (c : LineCap)
| set_lineJoin (j : LineJoin)
| set_globalAlpha (a : R)
| save
| restore
| fill (s : Shape)
    (* fill(), fillRect(): painted under globalAlpha *)
| stroke (s : Shape)
    (* stroke() of a shape with open subpaths: lineCap at their ends,
       lineJoin at their corners *)
| stroke_closed (s : Shape).
    (* stroke() of closed subpaths, strokeRect(): lineJoin at the corners *)

(** A shape as it reaches the canvas: with the alpha, and for a stroke the
    join and the cap, in force when it is drawn. *)
Record Painted := mkPainted {
  shape : Shape;
  alpha : R;
  cap : option LineCap;
  join : option LineJoin
}.

Definition with_lineCap (k : LineCap) (c : t) : t :=
  {| now := {| lineCap := k; lineJoin := lineJoin (now c);
               globalAlpha := globalAlpha (now c) |};
     saved := saved c |}.

Definition with_lineJoin (j : LineJoin) (c : t) : t :=
  {| now := {| lineCap := lineCap (now c); lineJoin := j;
               globalAlpha := globalAlpha (now c) |};
     saved := saved c |}.

(** The context once the cap and the join have been set to ['round']. *)
Definition rounded (c : t) : t :=
  with_lineJoin join_round (with_lineCap cap_round c).

(** The context once [globalAlpha] has been set to 1. *)
Definition opaque (c : t) : t :=
  {| now := {| lineCap := lineCap (now c); lineJoin := lineJoin (now c);
               globalAlpha := 1 |};
     saved := saved c |}.

(** An assignment to [globalAlpha] outside [0,1] is ignored. *)
Definition with_globalAlpha (a : R) (c : t) : t :=
  if Rle_dec 0 a then
    if Rle_dec a 1 then
      {| now := {| lineCap := lineCap (now c); lineJoin := lineJoin (now c);
                   globalAlpha := a |};
         saved := saved c |}
    else c
  else c.

Definition filled (c : t) (s : Shape) : Painted :=
  {| shape := s; alpha := globalAlpha (now c); cap := None; join := None |}.

Definition stroked (c : t) (s : Shape) : Painted :=
  {| shape := s; alpha := globalAlpha (now c);
     cap := Some (lineCap (now c)); join := Some (lineJoin (now c)) |}.

Definition outlined (c : t) (s : Shape) : Painted :=
  {| shape := s; alpha := globalAlpha (now c);
     cap := None; join := Some (lineJoin (now c)) |}.

(** One call: the context after it and what it paints.  [restore] on an
    empty stack does nothing. *)
Definition step (o : Op) (c : t) : t * list Painted :=
  match o with
  | set_lineCap k => (with_lineCap k c, [])
  | set_lineJoin j => (with_lineJoin j c, [])
  | set_globalAlpha a => (with_globalAlpha a c, [])
  | save => ({| now := now c; saved := now c :: saved c |}, [])
  | restore =>
      match saved c with
      | [] => (c, [])
      | a :: rest => ({| now := a; saved := rest |}, [])
      end
  | fill s => (c, [filled c s])
  | stroke s => (c, [stroked c s])
  | stroke_closed s => (c, [outlined c s])
  end.

Fixpoint run (ops : list Op) (c : t) : t * list Painted :=
  match ops with
  | [] => (c, [])
  | o :: rest =>
      let (c1, out1) := step o c in
      let (c2, out2) := run rest c1 in
      (c2, out1 ++ out2)
  end.

(** The shapes a list of calls draws, whatever the context. *)
Definition drawn_by (o : Op) : list Shape :=
  match o with
  | fill s | stroke s | stroke_closed s => [s]
  | _ => []
  end.

Definition drawn (ops : list Op) : list Shape := flat_map drawn_by ops.

End Ctx.

(** ** Mosaic *)

Module MosaicVisual.

Record Node := mkNode {
  x0 : R; y0 : R; x : R; y : R; phase : R; phaseY : R; amp : R
}.

Record t := mk {
  base : BaseVisual.t;
  grid : list (list Node)
}.

(** [Math.ceil]. *)
Definition ceil (a : R) : Z := (- Js.floor (- a))%Z.

Definition initNode (s cellSize jitter : R) (row col : nat) : Rnd Node :=
  r1 <- Math_random ;;
  r2 <- Math_random ;;
  r3 <- Math_random ;;
  r4 <- Math_random ;;
  r5 <- Math_random ;;
  let jx := (r1 - 0.5) * cellSize * jitter in
  let jy := (r2 - 0.5) * cellSize * jitter in
  ret {| x0 := INR col * cellSize + jx - cellSize * 0.5;
         y0 := INR row * cellSize + jy - cellSize * 0.5;
         x := 0;
         y := 0;
         phase := r3 * Js.Math_PI * 2;
         phaseY := r4 * Js.Math_PI * 2;
         amp := (4 + r5 * 10) * s |}.

(** [initMesh] starts from [this.grid = []]. *)
Definition initMesh (v : t) : Rnd t :=
  let s := BaseVisual.scale (base v) in
  r <- Math_random ;;
  let cellSize := (36 + r * 24) * s in
  let jitter := 0.45 in
  let cols := (ceil (BaseVisual.width (base v) / cellSize) + 2)%Z in
  let rows := (ceil (BaseVisual.height (base v) / cellSize) + 2)%Z in
  g <- for_push (Z.to_nat rows) 0 (fun row =>
         for_push (Z.to_nat cols) 0 (fun col =>
           initNode s cellSize jitter row col)) ;;
  ret {| base := base v; grid := g |}.

Definition new (canvas_width canvas_height : R) : Rnd t :=
  initMesh {| base := BaseVisual.new canvas_width canvas_height; grid := [] |}.

Definition update_node (t : R) (p : Node) : Node :=
  let wobbleScale := 1 in
  {| x0 := x0 p; y0 := y0 p;
     x := x0 p + amp p * sin (t + phase p) * wobbleScale;
     y := y0 p + amp p * cos (t * 0.8 + phaseY p) * wobbleScale;
     phase := phase p; phaseY := phaseY p; amp := amp p |}.

Definition update (v : t) : Rnd t :=
  let b := BaseVisual.update (base v) in
  let t := BaseVisual.time b * 0.2 in
  ret {| base := b; grid := map (map (update_node t)) (grid v) |}.

Definition drawTriangle (v : t) (pts : Node * Node * Node)
  (hueOffset : R) (seed : nat) : Shape :=
  let '(a, b, c) := pts in
  let cx := (x a + x b + x c) / 3 in
  let cy := (y a + y b + y c) / 3 in
  let nx := Rmax 0 (Rmin 1 (cx / BaseVisual.width (base v))) in
  let ny := Rmax 0 (Rmin 1 (cy / BaseVisual.height (base v))) in
  let hue := Js.rem (hueOffset + (nx * 0.35 + ny * 0.65) * 300 + INR seed * 2) 360 in
  let sat := 70 + INR (seed mod 3) * 10 in
  let light := 40 + (sin (BaseVisual.time (base v) * 0.5 + INR seed * 0.2) * 0.5 + 0.5) * 25 in
  MosaicTriangle (x a, y a) (x b, y b) (x c, y c) hue sat light.

(** A node that is never read on the rectangular grids [initMesh] builds. *)
Definition no_node : Node :=
  {| x0 := 0; y0 := 0; x := 0; y := 0; phase := 0; phaseY := 0; amp := 0 |}.

Definition at_ (g : list (list Node)) (row col : nat) : Node :=
  nth col (nth row g []) no_node.

Definition render_cell (v : t) (hueOffset : R) (row col : nat) : list Shape :=
  let g := grid v in
  let p00 := at_ g row col in
  let p10 := at_ g row (col + 1) in
  let p01 := at_ g (row + 1) col in
  let p11 := at_ g (row + 1) (col + 1) in
  let flip := Nat.eqb ((row + col) mod 2) 0 in
  let tri1 := if flip then (p00, p10, p11) else (p00, p10, p01) in
  let tri2 := if flip then (p00, p11, p01) else (p10, p11, p01) in
  let w := (length (nth row g []) - 1)%nat in
  [ drawTriangle v tri1 hueOffset (row * w + col);
    drawTriangle v tri2 hueOffset (row * w + col + 1) ].

Definition render (v : t) : t * list Shape :=
  let b := base v in
  let hueOffset := Js.rem (BaseVisual.time b * 14) 360 in
  (v,
   Fill 0 0 (BaseVisual.width b) (BaseVisual.height b)
   :: flat_map (fun row =>
        flat_map (fun col => render_cell v hueOffset row col)
                 (seq 0 (length (nth row (grid v) []) - 1)))
        (seq 0 (length (grid v) - 1))).

(** The calls of [render] on the context: the background rectangle, then
    every triangle, filled and its closed outline stroked. *)
Definition render_calls (v : t) : list Ctx.Op :=
  let b := base v in
  let hueOffset := Js.rem (BaseVisual.time b * 14) 360 in
  Ctx.fill (Fill 0 0 (BaseVisual.width b) (BaseVisual.height b))
  :: map Ctx.stroke_closed
       (flat_map (fun row =>
          flat_map (fun col => render_cell v hueOffset row col)
                   (seq 0 (length (nth row (grid v) []) - 1)))
          (seq 0 (length (grid v) - 1))).

Definition resize (w h : R) (v : t) : Rnd t :=
  initMesh {| base := BaseVisual.resize w h (base v); grid := grid v |}.

End MosaicVisual.

(** ** Smoke *)

Module SmokeVisual.

Record Particle := mkParticle {
  x : R; y : R; vx : R; vy : R; size : R; opacity : R; life : R
}.

Record t := mk {
  base : BaseVisual.t;
  particles : list Particle
}.

Definition particleCount (s : R) : Z :=
  Z.min 80 (Z.max 50 (Js.floor (50 * s))).

Definition newParticle (v : t) (i : nat) : Rnd Particle :=
  let s := BaseVisual.scale (base v) in
  r1 <- Math_random ;;
  r2 <- Math_random ;;
  r3 <- Math_random ;;
  r4 <- Math_random ;;
  r5 <- Math_random ;;
  r6 <- Math_random ;;
  r7 <- Math_random ;;
  ret {| x := r1 * BaseVisual.width (base v);
         y := BaseVisual.height (base v) + r2 * 200 * s;
         vx := (r3 - 0.5) * 0.5;
         vy := - 0.5 - r4 * 1.5;
         size := (20 + r5 * 80) * s;
         opacity := 0.1 + r6 * 0.3;
         life := r7 |}.

(** [initParticles] pushes onto [this.particles] as it finds it. *)
Definition initParticles (v : t) : Rnd t :=
  let s := BaseVisual.scale (base v) in
  let count := particleCount s in
  ps <- for_push (Z.to_nat count) 0 (newParticle v) ;;
  ret {| base := base v; particles := particles v ++ ps |}.

Definition new (canvas_width canvas_height : R) : Rnd t :=
  initParticles
    {| base := BaseVisual.new canvas_width canvas_height; particles := [] |}.

Definition update_particle (b : BaseVisual.t) (p : Particle) : Rnd Particle :=
  let s := BaseVisual.scale b in
  let x1 := x p + (vx p + sin (BaseVisual.time b + life p) * 0.3) in
  let y1 := y p + vy p in
  let opacity1 := opacity p * 0.998 in
  let size1 := size p * 1.001 in
  if orb (if Rlt_dec y1 (- size1) then true else false)
         (if Rlt_dec opacity1 0.01 then true else false)
  then
    r1 <- Math_random ;;
    r2 <- Math_random ;;
    r3 <- Math_random ;;
    r4 <- Math_random ;;
    ret {| x := r1 * BaseVisual.width b;
           y := BaseVisual.height b + r2 * 100 * s;
           vx := vx p; vy := vy p;
           size := (20 + r4 * 80) * s;
           opacity := 0.2 + r3 * 0.3;
           life := life p |}
  else
    ret {| x := x1; y := y1; vx := vx p; vy := vy p;
           size := size1; opacity := opacity1; life := life p |}.

Definition update (v : t) : Rnd t :=
  let b := BaseVisual.update (base v) in
  ps <- forEachM (update_particle b) (particles v) ;;
  ret {| base := b; particles := ps |}.

Definition draw_particle (p : Particle) : Shape :=
  SoftDisc (x p) (y p) (size p) (opacity p).

Definition render (v : t) : t * list Shape :=
  (v,
   Fill 0 0 (BaseVisual.width (base v)) (BaseVisual.height (base v))
   :: map draw_particle (particles v)).

(** The calls of [render] on the context: fills only. *)
Definition render_calls (v : t) : list Ctx.Op :=
  Ctx.fill (Fill 0 0 (BaseVisual.width (base v)) (BaseVisual.height (base v)))
  :: map (fun p => Ctx.fill (draw_particle p)) (particles v).

Definition resize (w h : R) (v : t) : Rnd t :=
  initParticles
    {| base := BaseVisual.resize w h (base v); particles := particles v |}.

End SmokeVisual.

(** ** Light and shade *)

Module LightShadeVisual.

Record Light := mkLight {
  x : R; y : R; radius : R; speedX : R; speedY : R; hue : R
}.

Record t := mk {
  base : BaseVisual.t;
  lights : list Light
}.

Definition lightCount (s : R) : Z :=
  Z.min 12 (Z.max 5 (Js.floor (5 * s))).

Definition newLight (v : t) (i : nat) : Rnd Light :=
  let s := BaseVisual.scale (base v) in
  r1 <- Math_random ;;
  r2 <- Math_random ;;
  r3 <- Math_random ;;
  r4 <- Math_random ;;
  r5 <- Math_random ;;
  r6 <- Math_random ;;
  ret {| x := r1 * BaseVisual.width (base v);
         y := r2 * BaseVisual.height (base v);
         radius := (100 + r3 * 200) * s;
         speedX := (r4 - 0.5) * 2;
         speedY := (r5 - 0.5) * 2;
         hue := r6 * 360 |}.

(** [initLights] pushes onto [this.lights] as it finds it. *)
Definition initLights (v : t) : Rnd t :=
  let s := BaseVisual.scale (base v) in
  let count := lightCount s in
  ls <- for_push (Z.to_nat count) 0 (newLight v) ;;
  ret {| base := base v; lights := lights v ++ ls |}.

Definition new (canvas_width canvas_height : R) : Rnd t :=
  initLights
    {| base := BaseVisual.new canvas_width canvas_height; lights := [] |}.

Definition outside (a limit : R) : bool :=
  orb (if Rlt_dec a 0 then true else false)
      (if Rgt_dec a limit then true else false).

Definition update_light (b : BaseVisual.t) (l : Light) : Light :=
  let x1 := x l + speedX l in
  let y1 := y l + speedY l in
  {| x := x1;
     y := y1;
     radius := radius l;
     speedX := if outside x1 (BaseVisual.width b)
               then speedX l * -1 else speedX l;
     speedY := if outside y1 (BaseVisual.height b)
               then speedY l * -1 else speedY l;
     hue := Js.rem (hue l + 0.5) 360 |}.

Definition update (v : t) : Rnd t :=
  let b := BaseVisual.update (base v) in
  ret {| base := b; lights := map (update_light b) (lights v) |}.

Definition draw_light (l : Light) : Shape :=
  SoftDisc (x l) (y l) (radius l) (hue l).

Definition render (v : t) : t * list Shape :=
  (v,
   Fill 0 0 (BaseVisual.width (base v)) (BaseVisual.height (base v))
   :: map draw_light (lights v)).

(** The calls of [render] on the context: fills only. *)
Definition render_calls (v : t) : list Ctx.Op :=
  Ctx.fill (Fill 0 0 (BaseVisual.width (base v)) (BaseVisual.height (base v)))
  :: map (fun l => Ctx.fill (draw_light l)) (lights v).

Definition resize (w h : R) (v : t) : Rnd t :=
  initLights
    {| base := BaseVisual.resize w h (base v); lights := lights v |}.

End LightShadeVisual.

(** ** Sorting as [Array.prototype.sort] does with a comparator *)

(** [xs.sort(cmp)] is stable: an element goes before the elements it
    compares smaller than and after the ones it ties with that came first. *)
Fixpoint sort_insert {A} (cmp : A -> A -> R) (a : A) (sorted : list A)
  : list A :=
  match sorted with
  | [] => [a]
  | b :: rest =>
      if Rle_dec (cmp a b) 0 then a :: b :: rest
      else b :: sort_insert cmp a rest
  end.

Fixpoint array_sort {A} (cmp : A -> A -> R) (xs : list A) : list A :=
  match xs with
  | [] => []
  | a :: rest => sort_insert cmp a (array_sort cmp rest)
  end.

(** ** Lanterns *)

Module LanternsVisual.

Record Lantern := mkLantern {
  x : R; y : R; radius : R; swing : R; swingSpeed : R; floatSpeed : R;
  swayAmount : R; hue : R; sat : R; ribOffset : R
}.

(** A branch: its depth, which of the five paths it strokes, its width. *)
Record Obstruction := mkObstruction {
  ob_depth : R; ob_path : nat; ob_width : R
}.

Record t := mk {
  base : BaseVisual.t;
  lanterns : list Lantern;
  obstructions : list Obstruction
}.

Definition lanternCount (s : R) : Z :=
  Z.min 14 (Z.max 5 (Js.floor (6 * s))).

Definition newLantern (v : t) (i : nat) : Rnd Lantern :=
  let s := BaseVisual.scale (base v) in
  let sizeScale := 0.58 in
  r1 <- Math_random ;;
  r2 <- Math_random ;;
  r3 <- Math_random ;;
  r4 <- Math_random ;;
  r5 <- Math_random ;;
  r6 <- Math_random ;;
  r7 <- Math_random ;;
  r8 <- Math_random ;;
  r9 <- Math_random ;;
  r10 <- Math_random ;;
  ret {| x := r1 * BaseVisual.width (base v);
         y := r2 * BaseVisual.height (base v);
         radius := (28 + r3 * 38) * s * sizeScale;
         swing := r4 * Js.Math_PI * 2;
         swingSpeed := 0.00015 + r5 * 0.00035;
         floatSpeed := (0.004 + r6 * 0.009) * s;
         swayAmount := 0.04 + r7 * 0.08;
         hue := 0 + r8 * 14;
         sat := 88 + r9 * 12;
         ribOffset := r10 * Js.Math_PI |}.

Definition initLanterns (v : t) : Rnd t :=
  let s := BaseVisual.scale (base v) in
  let count := lanternCount s in
  ls <- for_push (Z.to_nat count) 0 (newLantern v) ;;
  ret {| base := base v; lanterns := lanterns v ++ ls;
         obstructions := obstructions v |}.

Definition branchDepths : list R := [0.22; 0.48; 0.58; 0.72; 0.35].

Definition newBranch (i : nat) : Rnd Obstruction :=
  r <- Math_random ;;
  ret {| ob_depth := nth i branchDepths 0; ob_path := i;
         ob_width := 4 + r * 5 |}.

(** [initObstructions] starts from [this.obstructions = []]. *)
Definition initObstructions (v : t) : Rnd t :=
  obs <- for_push (length branchDepths) 0 newBranch ;;
  ret {| base := base v; lanterns := lanterns v; obstructions := obs |}.

Definition new (canvas_width canvas_height : R) : Rnd t :=
  v <- initLanterns {| base := BaseVisual.new canvas_width canvas_height;
                       lanterns := []; obstructions := [] |} ;;
  initObstructions v.

Definition update_lantern (b : BaseVisual.t) (l : Lantern) : Rnd Lantern :=
  let s := BaseVisual.scale b in
  let swing1 := swing l + swingSpeed l in
  let x1 := x l + sin swing1 * swayAmount l * s in
  let y1 := y l - floatSpeed l in
  if Rlt_dec y1 (- radius l * 3) then
    r <- Math_random ;;
    ret {| x := r * BaseVisual.width b;
           y := BaseVisual.height b + radius l * 2;
           radius := radius l; swing := swing1;
           swingSpeed := swingSpeed l; floatSpeed := floatSpeed l;
           swayAmount := swayAmount l; hue := hue l; sat := sat l;
           ribOffset := ribOffset l |}
  else
    ret {| x := x1; y := y1;
           radius := radius l; swing := swing1;
           swingSpeed := swingSpeed l; floatSpeed := floatSpeed l;
           swayAmount := swayAmount l; hue := hue l; sat := sat l;
           ribOffset := ribOffset l |}.

Definition update (v : t) : Rnd t :=
  let b := BaseVisual.update (base v) in
  ls <- forEachM (update_lantern b) (lanterns v) ;;
  ret {| base := b; lanterns := ls; obstructions := obstructions v |}.

(** The vertical position [lanternDepth] works with. *)
Definition clampedY (v : t) (l : Lantern) : R :=
  Rmax (- radius l * 2)
       (Rmin (BaseVisual.height (base v) + radius l * 2) (y l)).

Definition lanternDepth (v : t) (l : Lantern) : R :=
  let y := clampedY v l in
  0.12 + 0.82 * (1 - (y / (BaseVisual.height (base v) + radius l * 4))).

(** Every obstruction [initObstructions] pushes has the type ['branch'].
    The line width is [(ob.width || 5) * this.scale]; the cap and the join
    are set to ['round'] and left so. *)
Definition drawObstruction (v : t) (ob : Obstruction) : list Ctx.Op :=
  [ Ctx.set_lineCap Ctx.cap_round;
    Ctx.set_lineJoin Ctx.join_round;
    Ctx.stroke (BranchStroke (ob_path ob)
                  (Js.or_else (ob_width ob) 5 * BaseVisual.scale (base v))) ].

Definition drawLanternLightSpill (l : Lantern) : list Ctx.Op :=
  [ Ctx.fill (LanternSpill (x l) (y l) (radius l * 3.2) (hue l) (sat l)) ].

(** Between [save] and [restore]: the halo and the body are filled, the ten
    ribs and the bottom ring are stroked with the cap and the join the
    context holds, then the cap is set to ['round'] for the three tassels
    and to ['butt'] after them. *)
Definition drawOneLantern (l : Lantern) : list Ctx.Op :=
  let tilt := sin (swing l) * 0.05 in
  [ Ctx.save;
    Ctx.stroke (LanternBody (x l) (y l) (radius l) tilt (hue l) (sat l)
                            (ribOffset l));
    Ctx.set_lineCap Ctx.cap_round;
    Ctx.set_lineCap Ctx.cap_butt;
    Ctx.restore ].

Inductive Item : Type :=
| ob (o : Obstruction)
| lantern (l : Lantern).

Record Drawable := mkDrawable { depth : R; item : Item }.

(** The list [render] builds before sorting: branches, then lanterns. *)
Definition merged (v : t) : list Drawable :=
  map (fun o => {| depth := ob_depth o; item := ob o |}) (obstructions v)
  ++ map (fun l => {| depth := lanternDepth v l; item := lantern l |})
         (lanterns v).

Definition byDepth (a b : Drawable) : R := depth a - depth b.

Definition drawables (v : t) : list Drawable :=
  array_sort byDepth (merged v).

Definition paint (v : t) (d : Drawable) : list Ctx.Op :=
  match item d with
  | ob o => drawObstruction v o
  | lantern l => drawLanternLightSpill l ++ drawOneLantern l
  end.

(** [render]: the instance and its calls on the context. *)
Definition render (v : t) : t * list Ctx.Op :=
  (v,
   Ctx.fill (Fill 0 0 (BaseVisual.width (base v))
                  (BaseVisual.height (base v)))
   :: flat_map (paint v) (drawables v)).

(** The lanterns sorted before the first branch. *)
Fixpoint leading (ds : list Drawable) : list Drawable :=
  match ds with
  | [] => []
  | d :: rest =>
      match item d with
      | lantern _ => d :: leading rest
      | ob _ => []
      end
  end.

(** The drawables from the first branch on. *)
Fixpoint from_branch (ds : list Drawable) : list Drawable :=
  match ds with
  | [] => []
  | d :: rest =>
      match item d with
      | lantern _ => from_branch rest
      | ob _ => ds
      end
  end.

(** The context after the drawables: as found when no branch is among
    them, with round cap and join otherwise. *)
Definition after (ds : list Drawable) (c : Ctx.t) : Ctx.t :=
  match from_branch ds with
  | [] => c
  | _ :: _ => Ctx.rounded c
  end.

(** What is painted for a drawable on a context. *)
Definition painted (v : t) (c : Ctx.t) (d : Drawable) : list Ctx.Painted :=
  match item d with
  | ob o =>
      [ {| Ctx.shape := BranchStroke (ob_path o)
                          (Js.or_else (ob_width o) 5
                           * BaseVisual.scale (base v));
           Ctx.alpha := Ctx.globalAlpha (Ctx.now c);
           Ctx.cap := Some Ctx.cap_round;
           Ctx.join := Some Ctx.join_round |} ]
  | lantern l =>
      [ Ctx.filled c (LanternSpill (x l) (y l) (radius l * 3.2)
                                   (hue l) (sat l));
        Ctx.stroked c (LanternBody (x l) (y l) (radius l)
                                   (sin (swing l) * 0.05) (hue l) (sat l)
                                   (ribOffset l)) ]
  end.

Definition resize (w h : R) (v : t) : Rnd t :=
  v1 <- initLanterns {| base := BaseVisual.resize w h (base v);
                        lanterns := []; obstructions := [] |} ;;
  initObstructions v1.

End LanternsVisual.

(** [n] times one lifecycle step. *)
Fixpoint ticks {V} (step : V -> Rnd V) (n : nat) (v : V) : Rnd V :=
  match n with
  | O => ret v
  | S n' => v' <- step v ;; ticks step n' v'
  end.

(** ** Sunset *)

Module SunsetVisual.

Record t := mk {
  base : BaseVisual.t;
  zoomOut : R
}.

Definition new (canvas_width canvas_height : R) : Rnd t :=
  ret {| base := BaseVisual.new canvas_width canvas_height; zoomOut := 0.58 |}.

(** [update] and [resize] are inherited from [BaseVisual]. *)
Definition update (v : t) : Rnd t :=
  ret {| base := BaseVisual.update (base v); zoomOut := zoomOut v |}.

Definition resize (w h : R) (v : t) : Rnd t :=
  ret {| base := BaseVisual.resize w h (base v); zoomOut := zoomOut v |}.

(** The operands of [^] are read as signed 32-bit integers, [>>>] reads and
    yields an unsigned one. *)
Definition to_uint32 (n : Z) : Z := (n mod 2 ^ 32)%Z.

Definition to_int32 (n : Z) : Z :=
  let u := to_uint32 n in
  if (2 ^ 31 <=? u)%Z then (u - 2 ^ 32)%Z else u.

(** [hash = (n) => ((n * 92837111) ^ (n >>> 15)) >>> 0].  The product is
    exact for the arguments [drawClouds] passes (below 2^53). *)
Definition hash (n : Z) : Z :=
  to_uint32
    (Z.lxor (to_int32 (n * 92837111))
            (to_int32 (Z.shiftr (to_uint32 n) 15))).

Definition seed : Z := 12345.

Definition clouds : nat := 5.

Definition cloud_blob (s baseX baseY opacity : R) (i b : nat) : Shape :=
  let iz := Z.of_nat i in
  let bz := Z.of_nat b in
  let bx := baseX
            + (IZR (hash (iz * 7 + bz + seed) mod 200) - 100) * 0.5 * s in
  let by_ := baseY
            + (IZR (hash (iz * 7 + bz + seed + 1) mod 80) - 40) * 0.7 * s in
  let br := (22 + IZR (hash (iz * 7 + bz + seed + 2) mod 32)) * s in
  SoftDisc bx by_ br opacity.

Definition cloud (v : t) (s : R) (i : nat) : list Shape :=
  let b := base v in
  let iz := Z.of_nat i in
  let t := BaseVisual.time b * 0.08 * s in
  let baseX :=
    Js.rem (t * 120 + IZR (hash (iz + seed + 1) mod 1000))
           (BaseVisual.width b + 400) - 200 in
  let baseY :=
    BaseVisual.height b * (0.35 + IZR (hash (iz + seed + 2) mod 40) / 400)
    + sin (BaseVisual.time b * 0.05 + INR i) * 8 * s in
  let blobCount := (4 + hash (iz + seed + 3) mod 3)%Z in
  let opacity := 0.2 + IZR (hash (iz + seed + 4) mod 18) / 100 in
  map (cloud_blob s baseX baseY opacity i) (seq 0 (Z.to_nat blobCount)).

Definition drawClouds (v : t) (s : R) : list Shape :=
  flat_map (cloud v s) (seq 0 clouds).

Definition render (v : t) : t * list Shape :=
  let b := base v in
  let s := BaseVisual.scale b * zoomOut v in
  let sunY := BaseVisual.height b * 0.3
              + sin (BaseVisual.time b * 0.1) * 50 * s in
  let sunX := BaseVisual.width b * 0.5 in
  let sunGlowR := 150 * s in
  let sunDiskR := 80 * s in
  (v,
   Fill 0 0 (BaseVisual.width b) (BaseVisual.height b)
   :: SunDisk sunX sunY sunGlowR
   :: SunDisk sunX sunY sunDiskR
   :: drawClouds v s).

(** The calls of [render] on the context: fills, the blobs of each cloud
    between [save] and [restore]. *)
Definition cloud_calls (v : t) (s : R) (i : nat) : list Ctx.Op :=
  Ctx.save :: map Ctx.fill (cloud v s i) ++ [Ctx.restore].

Definition render_calls (v : t) : list Ctx.Op :=
  let b := base v in
  let s := BaseVisual.scale b * zoomOut v in
  let sunY := BaseVisual.height b * 0.3
              + sin (BaseVisual.time b * 0.1) * 50 * s in
  let sunX := BaseVisual.width b * 0.5 in
  let sunGlowR := 150 * s in
  let sunDiskR := 80 * s in
  Ctx.fill (Fill 0 0 (BaseVisual.width b) (BaseVisual.height b))
  :: Ctx.fill (SunDisk sunX sunY sunGlowR)
  :: Ctx.fill (SunDisk sunX sunY sunDiskR)
  :: flat_map (cloud_calls v s) (seq 0 clouds).

End SunsetVisual.

(** ** Bloom *)

Module BloomVisual.

Record Bloom := mkBloom {
  x : R; y : R; hue : R; sat : R; size : R;
  rotation : R; rotationLag : R; rotationSpeed : R;
  swayPhase : R; swayTilt : R;
  petalPhase : list R;
  translucent : bool
}.

Record t := mk {
  base : BaseVisual.t;
  blooms : list Bloom
}.

Definition sizeScales : list R := [0.72; 1.15; 0.88].

Definition count : nat := 3.

Definition newBloom (v : t) (i : nat) : Rnd Bloom :=
  let s := BaseVisual.scale (base v) in
  let w := BaseVisual.width (base v) in
  let h := BaseVisual.height (base v) in
  let minSide := Rmin w h in
  let baseSize := minSide * 0.3 * s in
  let tx := if (1 <? count)%nat then INR i / INR (count - 1) else 0.5 in
  let x := w * (0.18 + tx * 0.64) in
  r1 <- Math_random ;;
  let y := h * 0.5 + (r1 - 0.5) * h * 0.08 in
  let nx := x / w in
  r2 <- Math_random ;;
  let hue :=
    if Rlt_dec nx 0.38 then 200 + (nx / 0.38) * 20 + (r2 - 0.5) * 8
    else if Rlt_dec nx 0.62
         then 130 + ((nx - 0.38) / 0.24) * 30 + (r2 - 0.5) * 10
         else 28 + ((nx - 0.62) / 0.38) * 22 + (r2 - 0.5) * 8 in
  r3 <- Math_random ;;
  let r0 := r3 * Js.Math_PI * 2 in
  r4 <- Math_random ;;
  r5 <- Math_random ;;
  r6 <- Math_random ;;
  r7 <- Math_random ;;
  r8 <- Math_random ;;
  ret {| x := x; y := y;
         hue := Js.rem (hue + 360) 360;
         sat := 90 + r4 * 10;
         size := baseSize * (nth i sizeScales 0 + (r5 - 0.5) * 0.12);
         rotation := r0;
         rotationLag := r0;
         rotationSpeed := 0.001 + (r6 - 0.5) * 0.0006;
         swayPhase := r7 * Js.Math_PI * 2;
         swayTilt := 0;
         petalPhase := [];
         translucent := if Rlt_dec r8 0.5 then true else false |}.

(** The second loop of [initBlooms]: sixteen phases pushed onto each bloom
    of [this.blooms]. *)
Definition addPetalPhases (b : Bloom) : Rnd Bloom :=
  let totalPetals := (6 + 10)%nat in
  ph <- for_push totalPetals 0 (fun _ => r <- Math_random ;;
                                         ret (r * Js.Math_PI * 2)) ;;
  ret {| x := x b; y := y b; hue := hue b; sat := sat b; size := size b;
         rotation := rotation b; rotationLag := rotationLag b;
         rotationSpeed := rotationSpeed b; swayPhase := swayPhase b;
         swayTilt := swayTilt b;
         petalPhase := petalPhase b ++ ph;
         translucent := translucent b |}.

Definition initBlooms (v : t) : Rnd t :=
  bs <- for_push count 0 (newBloom v) ;;
  all <- forEachM addPetalPhases (blooms v ++ bs) ;;
  ret {| base := base v; blooms := all |}.

Definition new (canvas_width canvas_height : R) : Rnd t :=
  initBlooms {| base := BaseVisual.new canvas_width canvas_height;
                blooms := [] |}.

(** [while (d > Math.PI) d -= Math.PI * 2].  In exact arithmetic the loop
    ends for every [d]; what is stated about it below is stated for
    differences of at most 1000 rad, where the loop of the code ends too
    (a double above 2^56 is not changed by the subtraction). *)
Equations? wrap_down (d : R) : R
  by wf (Z.to_nat (up ((d - PI) / (PI * 2)))) lt :=
  wrap_down d with Rgt_dec d Js.Math_PI := {
    | left _ => wrap_down (d - Js.Math_PI * 2);
    | right _ => d }.
Proof.
  unfold Js.Math_PI in *.
  assert (Hpi : 0 < PI) by apply PI_RGT_0.
  replace ((d - PI * 2 - PI) / (PI * 2)) with ((d - PI) / (PI * 2) + IZR (-1))
    by (simpl; field; lra).
  assert (Hpos : 0 < (d - PI) / (PI * 2)).
  { apply Rdiv_lt_0_compat; lra. }
  pose proof (Zfloor_bound ((d - PI) / (PI * 2))) as Hb.
  pose proof (Zfloor_addz (-1) ((d - PI) / (PI * 2))) as Ha.
  rewrite !up_Zfloor, Ha.
  assert (0 <= Zfloor ((d - PI) / (PI * 2)))%Z by (apply Zfloor_lub; simpl; lra).
  lia.
Qed.

(** [while (d < -Math.PI) d += Math.PI * 2]. *)
Equations? wrap_up (d : R) : R
  by wf (Z.to_nat (up ((- PI - d) / (PI * 2)))) lt :=
  wrap_up d with Rlt_dec d (- Js.Math_PI) := {
    | left _ => wrap_up (d + Js.Math_PI * 2);
    | right _ => d }.
Proof.
  unfold Js.Math_PI in *.
  assert (Hpi : 0 < PI) by apply PI_RGT_0.
  replace ((- PI - (d + PI * 2)) / (PI * 2))
    with ((- PI - d) / (PI * 2) + IZR (-1)) by (simpl; field; lra).
  assert (Hpos : 0 < (- PI - d) / (PI * 2)).
  { apply Rdiv_lt_0_compat; lra. }
  pose proof (Zfloor_addz (-1) ((- PI - d) / (PI * 2))) as Ha.
  rewrite !up_Zfloor, Ha.
  assert (0 <= Zfloor ((- PI - d) / (PI * 2)))%Z by (apply Zfloor_lub; simpl; lra).
  lia.
Qed.

(** [xs.forEach((_, i) => { xs[i] += f(i) })]. *)
Fixpoint add_by_index (f : nat -> R) (i : nat) (xs : list R) : list R :=
  match xs with
  | [] => []
  | p :: rest => (p + f i) :: add_by_index f (S i) rest
  end.

Definition lagFactor : R := 0.014.

(** The angular difference after the two wrapping loops. *)
Definition lagDifference (rotation1 lag : R) : R :=
  wrap_up (wrap_down (rotation1 - lag)).

Definition update_bloom (t : R) (b : Bloom) : Bloom :=
  let rotation1 := rotation b + rotationSpeed b in
  let d := lagDifference rotation1 (rotationLag b) in
  {| x := x b; y := y b; hue := hue b; sat := sat b; size := size b;
     rotation := rotation1;
     rotationLag := rotationLag b + d * lagFactor;
     rotationSpeed := rotationSpeed b;
     swayPhase := swayPhase b;
     swayTilt := 0.06 * sin (t * 0.35 + swayPhase b)
                 + 0.03 * sin (t * 0.5 + swayPhase b * 0.7);
     petalPhase :=
       add_by_index (fun i => 0.006 + INR (i mod 3) * 0.003) 0 (petalPhase b);
     translucent := translucent b |}.

Definition update (v : t) : Rnd t :=
  let b := BaseVisual.update (base v) in
  let t := BaseVisual.time b in
  ret {| base := b; blooms := map (update_bloom t) (blooms v) |}.

Definition draw_spot (w h : R) (i : nat) : Shape :=
  BloomSpot (Js.rem (INR i * 137) w) (Js.rem (INR i * 89) h).

Definition draw_bloom (t : R) (b : Bloom) : Shape :=
  let strokeW := Rmax 1 (size b * 0.014) in
  let petalLag := wrap_up (wrap_down (rotationLag b - rotation b)) in
  BloomForm (x b) (y b) (rotation b) (swayTilt b) petalLag (size b)
            (hue b) (sat b) strokeW t (petalPhase b) (translucent b).

Definition render (v : t) : t * list Shape :=
  let w := BaseVisual.width (base v) in
  let h := BaseVisual.height (base v) in
  let t := BaseVisual.time (base v) in
  (v,
   Fill 0 0 w h
   :: map (draw_spot w h) (seq 0 18)
   ++ map (draw_bloom t) (blooms v)).

(** The calls of [render] on the context: the background and the spots are
    filled; each bloom is drawn between [save] and [restore], its petal
    outlines, veins and rays stroked with the cap and the join the context
    holds. *)
Definition bloom_calls (t : R) (b : Bloom) : list Ctx.Op :=
  [ Ctx.save; Ctx.stroke (draw_bloom t b); Ctx.restore ].

Definition render_calls (v : t) : list Ctx.Op :=
  let w := BaseVisual.width (base v) in
  let h := BaseVisual.height (base v) in
  let t := BaseVisual.time (base v) in
  Ctx.fill (Fill 0 0 w h)
  :: map (fun i => Ctx.fill (draw_spot w h i)) (seq 0 18)
  ++ flat_map (bloom_calls t) (blooms v).

Definition resize (w h : R) (v : t) : Rnd t :=
  initBlooms {| base := BaseVisual.resize w h (base v); blooms := [] |}.

End BloomVisual.

(** ** Streets *)

Module StreetsVisual.

Record Car := mkCar {
  depth : R; phase : R; rightward : bool
}.

Record t := mk {
  base : BaseVisual.t;
  cars : list Car
}.

Definition newCar (i : nat) : Rnd Car :=
  ret {| depth := 0.15 + (INR i / 5) * 0.7;
         phase := (INR i / 5) * 2;
         rightward := Nat.eqb (i mod 2) 0 |}.

(** [initCars] pushes onto [this.cars] as it finds it. *)
Definition initCars (v : t) : Rnd t :=
  cs <- for_push 5 0 newCar ;;
  ret {| base := base v; cars := cars v ++ cs |}.

Definition new (canvas_width canvas_height : R) : Rnd t :=
  initCars {| base := BaseVisual.new canvas_width canvas_height; cars := [] |}.

Definition speed : R := 0.00045.

Definition update_car (c : Car) : Car :=
  let p1 := phase c + (if rightward c then speed else - speed) in
  let p2 := if Rgt_dec p1 2 then p1 - 2 else p1 in
  let p3 := if Rlt_dec p2 0 then p2 + 2 else p2 in
  {| depth := depth c; phase := p3; rightward := rightward c |}.

Definition update (v : t) : Rnd t :=
  ret {| base := BaseVisual.update (base v);
         cars := map update_car (cars v) |}.

Definition yToT (h vpY y : R) : R :=
  Rmin 1 (Rmax 0 ((y - vpY) / (h - vpY))).

Definition project (w h vpX vpY xNorm y : R) : R :=
  vpX + (xNorm * w - vpX) * yToT h vpY y.

Definition draw_car (w h : R) (car : Car) : Shape :=
  let vpX := w * 0.5 in
  let vpY := h * 0.32 in
  let roadLeft := 0.22 in
  let roadRight := 0.78 in
  let t := depth car in
  let y := vpY + (h - vpY) * t in
  let scale := 1 - t * 0.88 in
  let carW := 72 * scale in
  let carH := 28 * scale in
  let xNorm := roadLeft + (roadRight - roadLeft) * (0.15 + phase car * 0.7) in
  let x := project w h vpX vpY xNorm y - carW / 2 in
  CarBox x (y - carH) carW carH.

(** The sidewalks, road, facades and gate depend on the surface size only
    and are recorded as one shape. *)
Definition render (v : t) : t * list Shape :=
  let w := BaseVisual.width (base v) in
  let h := BaseVisual.height (base v) in
  (v, Fill 0 0 w h :: StreetScene w h :: map (draw_car w h) (cars v)).

(** The calls of [render] on the context: the background is filled, the
    cap and the join are set to ['round'], and the scene and the cars are
    stroked with them. *)
Definition render_calls (v : t) : list Ctx.Op :=
  let w := BaseVisual.width (base v) in
  let h := BaseVisual.height (base v) in
  Ctx.fill (Fill 0 0 w h)
  :: Ctx.set_lineCap Ctx.cap_round
  :: Ctx.set_lineJoin Ctx.join_round
  :: Ctx.stroke (StreetScene w h)
  :: map (fun car => Ctx.stroke (draw_car w h car)) (cars v).

Definition resize (w h : R) (v : t) : Rnd t :=
  ret {| base := BaseVisual.resize w h (base v); cars := cars v |}.

End StreetsVisual.

(** ** Urbanity: the instance state and [render] *)

Module UrbanityVisual.

Record Building := mkBuilding {
  x : R; width : R; height : R; lightness : R
}.

Record Light := mkLight {
  lx : R; ly : R; buildingX : R; buildingWidth : R; on : bool; flicker : R
}.

Record t := mk {
  base : BaseVisual.t;
  buildings : list Building;
  lights : list Light
}.

Definition draw_star (v : t) (i : nat) : Shape :=
  let x := Js.rem (INR i * 37) (BaseVisual.width (base v)) in
  let y := Js.rem (INR i * 73) (BaseVisual.height (base v) * 0.5) in
  let twinkle := sin (BaseVisual.time (base v) * 2 + INR i) * 0.5 + 0.5 in
  Star x y (twinkle * 0.8).

Definition draw_building (v : t) (b : Building) : Shape :=
  Fill (x b) (BaseVisual.height (base v) - height b) (width b) (height b).

Definition draw_light (l : Light) : list Shape :=
  if on l then
    let brightness := 0.5 + sin (flicker l) * 0.3 in
    [ WindowLight (lx l) (ly l) brightness ]
  else [].

Definition render (v : t) : t * list Shape :=
  (v,
   Fill 0 0 (BaseVisual.width (base v)) (BaseVisual.height (base v))
   :: map (draw_star v) (seq 0 100)
   ++ map (draw_building v) (buildings v)
   ++ flat_map draw_light (lights v)).

(** The calls of [render] on the context: the sky is filled under the alpha
    found, each star under the alpha [twinkle * 0.8] assigned before it, and
    the alpha is set to 1 before the buildings and the window lights. *)
Definition star_calls (v : t) (i : nat) : list Ctx.Op :=
  let twinkle := sin (BaseVisual.time (base v) * 2 + INR i) * 0.5 + 0.5 in
  [ Ctx.set_globalAlpha (twinkle * 0.8); Ctx.fill (draw_star v i) ].

Definition render_calls (v : t) : list Ctx.Op :=
  Ctx.fill (Fill 0 0 (BaseVisual.width (base v)) (BaseVisual.height (base v)))
  :: flat_map (star_calls v) (seq 0 100)
  ++ Ctx.set_globalAlpha 1
  :: map (fun b => Ctx.fill (draw_building v b)) (buildings v)
  ++ map Ctx.fill (flat_map draw_light (lights v)).

(** One window of a building: lit with probability 0.7. *)
Definition newWindow (v : t) (bx bwidth bheight : R) (i : nat)
  : Rnd (list Light) :=
  r1 <- Math_random ;;
  if Rgt_dec r1 0.3 then
    r2 <- Math_random ;;
    r3 <- Math_random ;;
    ret [ {| lx := bx + bwidth / 2;
             ly := BaseVisual.height (base v) - bheight + INR i * 30 + 15;
             buildingX := bx;
             buildingWidth := bwidth;
             on := if Rgt_dec r2 0.5 then true else false;
             flicker := r3 * Js.Math_PI * 2 |} ]
  else ret [].

(** The body of the [while] loop of [initBuildings] at position [bx]: the
    building, its lit windows, and the next position. *)
Definition addBuilding (v : t) (bx : R) : Rnd (t * R) :=
  r1 <- Math_random ;;
  let bwidth := 40 + r1 * 80 in
  r2 <- Math_random ;;
  let bheight := 100 + r2 * (BaseVisual.height (base v) * 0.7) in
  r3 <- Math_random ;;
  let b := {| x := bx; width := bwidth; height := bheight;
              lightness := 10 + r3 * 20 |} in
  let windows := Js.floor (bheight / 30) in
  ws <- for_push (Z.to_nat windows) 0 (newWindow v bx bwidth bheight) ;;
  ret ({| base := base v;
          buildings := buildings v ++ [b];
          lights := lights v ++ concat ws |},
       bx + bwidth + 5).

(** [while (x < this.width + 100) { ... }], at most [fuel] rounds; [None]
    when the rounds run out before the test fails. *)
Fixpoint initBuildings_from (fuel : nat) (bx : R) (v : t) : Rnd (option t) :=
  if Rlt_dec bx (BaseVisual.width (base v) + 100) then
    match fuel with
    | O => ret None
    | S fuel' =>
        vx <- addBuilding v bx ;;
        initBuildings_from fuel' (snd vx) (fst vx)
    end
  else ret (Some v).

Definition initBuildings (fuel : nat) (v : t) : Rnd (option t) :=
  initBuildings_from fuel 0 v.

Definition new (fuel : nat) (canvas_width canvas_height : R) : Rnd (option t) :=
  initBuildings fuel
    {| base := BaseVisual.new canvas_width canvas_height;
       buildings := []; lights := [] |}.

Definition update_light (l : Light) : Rnd Light :=
  r <- Math_random ;;
  ret {| lx := lx l; ly := ly l;
         buildingX := buildingX l; buildingWidth := buildingWidth l;
         on := if Rlt_dec r 0.001 then negb (on l) else on l;
         flicker := flicker l + 0.1 |}.

Definition update (v : t) : Rnd t :=
  let b := BaseVisual.update (base v) in
  ls <- forEachM update_light (lights v) ;;
  ret {| base := b; buildings := buildings v; lights := ls |}.

Definition resize (fuel : nat) (w h : R) (v : t) : Rnd (option t) :=
  initBuildings fuel
    {| base := BaseVisual.resize w h (base v);
       buildings := []; lights := [] |}.

End UrbanityVisual.

(** ** Any effect instance *)

Inductive Visual : Type :=
| Mosaic (v : MosaicVisual.t)
| Smoke (v : SmokeVisual.t)
| LightShade (v : LightShadeVisual.t)
| Lanterns (v : LanternsVisual.t)
| Sunset (v : SunsetVisual.t)
| Bloom (v : BloomVisual.t)
| Streets (v : StreetsVisual.t)
| Urbanity (v : UrbanityVisual.t).

(** The calls of [render] on the context. *)
Definition render_calls (e : Visual) : list Ctx.Op :=
  match e with
  | Mosaic v => MosaicVisual.render_calls v
  | Smoke v => SmokeVisual.render_calls v
  | LightShade v => LightShadeVisual.render_calls v
  | Lanterns v => snd (LanternsVisual.render v)
  | Sunset v => SunsetVisual.render_calls v
  | Bloom v => BloomVisual.render_calls v
  | Streets v => StreetsVisual.render_calls v
  | Urbanity v => UrbanityVisual.render_calls v
  end.

(** The instance as [render] leaves it: no [render] assigns to a field of
    [this]. *)
Definition rendered (e : Visual) : Visual :=
  match e with
  | Mosaic v => Mosaic (fst (MosaicVisual.render v))
  | Smoke v => Smoke (fst (SmokeVisual.render v))
  | LightShade v => LightShade (fst (LightShadeVisual.render v))
  | Lanterns v => Lanterns (fst (LanternsVisual.render v))
  | Sunset v => Sunset (fst (SunsetVisual.render v))
  | Bloom v => Bloom (fst (BloomVisual.render v))
  | Streets v => Streets (fst (StreetsVisual.render v))
  | Urbanity v => Urbanity (fst (UrbanityVisual.render v))
  end.

(** One [render] of an instance on a context: the instance and the context
    after it, and what reached the canvas. *)
Record Frame := mkFrame {
  instance : Visual;
  context : Ctx.t;
  canvas : list Ctx.Painted
}.

Definition render (e : Visual) (c : Ctx.t) : Frame :=
  let (c', out) := Ctx.run (render_calls e) c in
  {| instance := rendered e; context := c'; canvas := out |}.

(** The context a [render] leaves. *)
Definition left_by (e : Visual) (c : Ctx.t) : Ctx.t :=
  match e with
  | Lanterns v => LanternsVisual.after (LanternsVisual.drawables v) c
  | Streets _ => Ctx.rounded c
  | Urbanity _ => Ctx.opaque c
  | _ => c
  end.

(** The contexts on which a first [render] already paints what the later
    ones paint: for Lanterns the cap and the join are ['round'], or no
    lantern is sorted before the first branch. *)
Definition settled (e : Visual) (c : Ctx.t) : Prop :=
  match e with
  | Lanterns v =>
      (Ctx.lineCap (Ctx.now c) = Ctx.cap_round /\
       Ctx.lineJoin (Ctx.now c) = Ctx.join_round) \/
      LanternsVisual.leading (LanternsVisual.drawables v) = []
  | _ => True
  end.

(** ** The calls a host makes on an instance *)

Inductive Call : Type :=
| call_update
| call_resize (w h : R).

Fixpoint lifecycle {V} (update : V -> Rnd V) (resize : R -> R -> V -> Rnd V)
  (cs : list Call) (v : V) : Rnd V :=
  match cs with
  | [] => ret v
  | call_update :: rest =>
      v' <- update v ;; lifecycle update resize rest v'
  | call_resize w h :: rest =>
      v' <- resize w h v ;; lifecycle update resize rest v'
  end.

(** ** Predicates on instances used in the statements *)


(** The petal layer of a bloom trails its rotation by at most 0.1 rad and
    the bloom turns at a speed [initBlooms] can draw. *)
Definition lag_small (b : BloomVisual.Bloom) : Prop :=
  0 <= BloomVisual.rotation b - BloomVisual.rotationLag b <= 0.1 /\
  0.0007 <= BloomVisual.rotationSpeed b <= 0.0013.

(** ** The host: effect registry and preview driver *)

Module VisualScreensaver.

Inductive VisualClass : Type :=
| class_mosaic | class_smoke | class_lightshade | class_lanterns
| class_sunset | class_bloom | class_urbanity | class_streets.

(** The object literal [visuals] of [getVisualClass]: its own properties. *)
Definition visuals : list (string * VisualClass) :=
  [ ("mosaic"%string, class_mosaic);
    ("smoke"%string, class_smoke);
    ("lightshade"%string, class_lightshade);
    ("lanterns"%string, class_lanterns);
    ("sunset"%string, class_sunset);
    ("bloom"%string, class_bloom);
    ("urbanity"%string, class_urbanity);
    ("streets"%string, class_streets) ].

Fixpoint own_property (members : list (string * VisualClass)) (key : string)
  : option VisualClass :=
  match members with
  | [] => None
  | (k, c) :: rest =>
      if String.eqb k key then Some c else own_property rest key
  end.

(** What [visuals[type] || MosaicVisual] evaluates to: a visual class, or
    the member every object inherits under that name. *)
Inductive Resolved : Type :=
| visual_class (c : VisualClass)
| prototype_member (name : string).

Section Registry.

(** The property names an object literal inherits from [Object.prototype];
    all of them hold a function or an object. *)
Variable inherited : string -> bool.

Definition getVisualClass (type : string) : Resolved :=
  match own_property visuals type with
  | Some c => visual_class c
  | None =>
      if inherited type then prototype_member type
      else visual_class class_mosaic
  end.

End Registry.

(** The identifiers [initPreviews] builds a preview for. *)
Definition types : list string :=
  [ "mosaic"; "smoke"; "lightshade"; "lanterns"; "sunset"; "bloom";
    "urbanity"; "streets" ]%string.

(** One frame of [previewAnimate] at timestamp [time]: the pair is
    [lastTime] and the instance; [tick] is update-then-render. *)
Definition previewAnimate {V} (tick : V -> Rnd V) (st : R * V) (time : R)
  : Rnd (R * V) :=
  if Rgt_dec (time - fst st) 16 then
    v' <- tick (snd st) ;;
    ret (time, v')
  else ret st.

(** The frames the browser delivers, in order. *)
Fixpoint previewFrames {V} (tick : V -> Rnd V) (st : R * V) (times : list R)
  : Rnd (R * V) :=
  match times with
  | [] => ret st
  | time :: rest =>
      st' <- previewAnimate tick st time ;;
      previewFrames tick st' rest
  end.

End VisualScreensaver.

(** The timestamps, among [times], at which a preview that last ticked at
    [lastTime] ticks again. *)
Fixpoint ticked (lastTime : R) (times : list R) : list R :=
  match times with
  | [] => []
  | time :: rest =>
      if Rgt_dec (time - lastTime) 16 then time :: ticked time rest
      else ticked lastTime rest
  end.

(** A skyline: buildings laid left to right from [from], each 5 px after
    the right edge of the one before, ending at [upto]. *)
Fixpoint skyline (hmax : R) (from : R) (bs : list UrbanityVisual.Building)
  (upto : R) : Prop :=
  match bs with
  | [] => upto = from
  | b :: rest =>
      UrbanityVisual.x b = from /\
      40 <= UrbanityVisual.width b < 120 /\
      100 <= UrbanityVisual.height b <= 100 + hmax /\
      skyline hmax (from + UrbanityVisual.width b + 5) rest upto
  end.

(** The number of [update] calls among [cs] and the surface size after
    them, starting from [size]. *)
Fixpoint updates_in (cs : list Call) : nat :=
  match cs with
  | [] => O
  | call_update :: rest => S (updates_in rest)
  | call_resize _ _ :: rest => updates_in rest
  end.

Fixpoint size_after (cs : list Call) (size : R * R) : R * R :=
  match cs with
  | [] => size
  | call_update :: rest => size_after rest size
  | call_resize w h :: rest => size_after rest (w, h)
  end.

(** A lit window sits in the middle of the building [b], between its roof
    and the ground. *)
Definition window_of (hh : R) (b : UrbanityVisual.Building)
  (l : UrbanityVisual.Light) : Prop :=
  UrbanityVisual.buildingX l = UrbanityVisual.x b /\
  UrbanityVisual.buildingWidth l = UrbanityVisual.width b /\
  UrbanityVisual.lx l = UrbanityVisual.x b + UrbanityVisual.width b / 2 /\
  hh - UrbanityVisual.height b + 15 <= UrbanityVisual.ly l <= hh - 15.

(** Whether the draw of light [i] at frame [t] inverts it, when each frame
    takes [L] draws from the source [g], one per light and in order. *)
Definition toggled (g : RandomSource) (L i t : nat) : bool :=
  if Rlt_dec (g (t * L + i)%nat) 0.001 then true else false.

(** The number of frames among the first [n] that invert light [i]. *)
Definition toggles (g : RandomSource) (L i n : nat) : nat :=
  length (filter (toggled g L i) (seq 0 n)).

(** * Properties *)

(** ** Arithmetic helpers *)

Lemma floor_ge (z : Z) (a : R) : IZR z <= a -> (z <= Js.floor a)%Z.
Proof. apply Zfloor_lub. Qed.

Lemma floor_lt (z : Z) (a : R) : a < IZR z -> (Js.floor a < z)%Z.
Proof.
  intros H. unfold Js.floor.
  destruct (Zfloor_bound a) as [Hlo _].
  apply lt_IZR. lra.
Qed.

Lemma sqrt_between (lo hi a : R) :
  0 <= lo -> 0 <= hi -> lo * lo <= a -> a < hi * hi ->
  lo <= sqrt a < hi.
Proof.
  intros Hlo Hhi H1 H2. split.
  - rewrite <- (sqrt_square lo Hlo). apply sqrt_le_1_alt. exact H1.
  - rewrite <- (sqrt_square hi Hhi). apply sqrt_lt_1_alt. split; [|exact H2].
    apply Rle_trans with (lo * lo); [nra | exact H1].
Qed.

Lemma visualScale_nonneg (w h : R) : 0 <= visualScale w h.
Proof. unfold visualScale. apply sqrt_pos. Qed.

Lemma visualScale_reference : visualScale 280 200 = 1.
Proof.
  unfold visualScale, REF_AREA.
  replace (280 * 200 / (280 * 200)) with 1 by (field; lra).
  apply sqrt_1.
Qed.

(** ** The random monad and the loops *)

Lemma for_push_length {A} (n start : nat) (body : nat -> Rnd A) g :
  length (fst (for_push n start body g)) = n.
Proof.
  revert start g. induction n as [|n IH]; intros start g; simpl.
  - reflexivity.
  - unfold bind. destruct (body start g) as [a g1].
    specialize (IH (S start) g1).
    destruct (for_push n (S start) body g1) as [xs g2].
    simpl in *. now rewrite IH.
Qed.

Lemma forEachM_length {A} (body : A -> Rnd A) (xs : list A) g :
  length (fst (forEachM body xs g)) = length xs.
Proof.
  revert g. induction xs as [|a xs IH]; intros g; simpl.
  - reflexivity.
  - unfold bind. destruct (body a g) as [a' g1].
    specialize (IH g1). destruct (forEachM body xs g1) as [ys g2].
    simpl in *. now rewrite IH.
Qed.

(** ** Scale *)

(** C1: on positive dimensions [visualScale w h] is the square root of the
    area over the reference area 56000 = 280*200, it is non-negative, and
    it is monotone in the area.  The function reads its two arguments
    only. *)
Theorem visualScale_sqrt_monotone (w1 h1 w2 h2 : R) :
  0 < w1 -> 0 < h1 -> 0 < w2 -> 0 < h2 ->
  REF_AREA = 56000 /\
  visualScale w1 h1 = sqrt ((w1 * h1) / 56000) /\
  0 <= visualScale w1 h1 /\
  (w1 * h1 <= w2 * h2 -> visualScale w1 h1 <= visualScale w2 h2).
Proof.
  intros Hw1 Hh1 Hw2 Hh2.
  assert (Hr : REF_AREA = 56000) by (unfold REF_AREA; lra).
  repeat split.
  - exact Hr.
  - unfold visualScale. now rewrite Hr.
  - apply visualScale_nonneg.
  - intros Hle. unfold visualScale. apply sqrt_le_1_alt.
    rewrite Hr. lra.
Qed.

Lemma visualScale_sqrt_monotone_witness :
  REF_AREA = 56000 /\
  visualScale 280 200 = sqrt ((280 * 200) / 56000) /\
  0 <= visualScale 280 200 /\
  (280 * 200 <= 1920 * 1080 -> visualScale 280 200 <= visualScale 1920 1080).
Proof. apply (visualScale_sqrt_monotone 280 200 1920 1080); lra. Defined.

(** ** Density-clamped counts *)

Lemma particleCount_bounds (s : R) :
  (50 <= SmokeVisual.particleCount s <= 80)%Z.
Proof. unfold SmokeVisual.particleCount. lia. Qed.

Lemma lightCount_bounds (s : R) :
  (5 <= LightShadeVisual.lightCount s <= 12)%Z.
Proof. unfold LightShadeVisual.lightCount. lia. Qed.

Lemma Smoke_initParticles_particles (v : SmokeVisual.t) g :
  exists fresh,
    SmokeVisual.particles (fst (SmokeVisual.initParticles v g))
      = SmokeVisual.particles v ++ fresh /\
    length fresh
      = Z.to_nat (SmokeVisual.particleCount
                    (BaseVisual.scale (SmokeVisual.base v))) /\
    SmokeVisual.base (fst (SmokeVisual.initParticles v g)) = SmokeVisual.base v.
Proof.
  unfold SmokeVisual.initParticles, bind.
  pose proof (for_push_length
    (Z.to_nat (SmokeVisual.particleCount (BaseVisual.scale (SmokeVisual.base v))))
    0 (SmokeVisual.newParticle v) g) as Hlen.
  destruct (for_push _ 0 (SmokeVisual.newParticle v) g) as [ps g1].
  exists ps. simpl in *. auto.
Qed.

Lemma Smoke_new_length (cw ch : R) g :
  length (SmokeVisual.particles (fst (SmokeVisual.new cw ch g)))
    = Z.to_nat (SmokeVisual.particleCount (visualScale cw ch)).
Proof.
  unfold SmokeVisual.new.
  destruct (Smoke_initParticles_particles
    {| SmokeVisual.base := BaseVisual.new cw ch; SmokeVisual.particles := [] |} g)
    as (fresh & Hp & Hl & _).
  rewrite Hp. simpl in *. exact Hl.
Qed.

Lemma LightShade_initLights_lights (v : LightShadeVisual.t) g :
  exists fresh,
    LightShadeVisual.lights (fst (LightShadeVisual.initLights v g))
      = LightShadeVisual.lights v ++ fresh /\
    length fresh
      = Z.to_nat (LightShadeVisual.lightCount
                    (BaseVisual.scale (LightShadeVisual.base v))).
Proof.
  unfold LightShadeVisual.initLights, bind.
  pose proof (for_push_length
    (Z.to_nat (LightShadeVisual.lightCount
                 (BaseVisual.scale (LightShadeVisual.base v))))
    0 (LightShadeVisual.newLight v) g) as Hlen.
  destruct (for_push _ 0 (LightShadeVisual.newLight v) g) as [ls g1].
  exists ls. simpl in *. auto.
Qed.

Lemma LightShade_new_length (cw ch : R) g :
  length (LightShadeVisual.lights (fst (LightShadeVisual.new cw ch g)))
    = Z.to_nat (LightShadeVisual.lightCount (visualScale cw ch)).
Proof.
  unfold LightShadeVisual.new.
  destruct (LightShade_initLights_lights
    {| LightShadeVisual.base := BaseVisual.new cw ch;
       LightShadeVisual.lights := [] |} g) as (fresh & Hp & Hl).
  rewrite Hp. simpl in *. exact Hl.
Qed.

Lemma visualScale_full_hd : 6.08 <= visualScale 1920 1080 < 6.09.
Proof.
  unfold visualScale, REF_AREA.
  apply sqrt_between; lra.
Qed.

Lemma particleCount_reference : SmokeVisual.particleCount 1 = 50%Z.
Proof.
  unfold SmokeVisual.particleCount.
  replace (50 * 1) with (IZR 50) by lra.
  unfold Js.floor. rewrite (Zfloor_eq 50 (IZR 50)) by lra. reflexivity.
Qed.

Lemma particleCount_full_hd :
  SmokeVisual.particleCount (visualScale 1920 1080) = 80%Z.
Proof.
  unfold SmokeVisual.particleCount.
  pose proof visualScale_full_hd as [Hlo _].
  assert (80 <= Js.floor (50 * visualScale 1920 1080))%Z
    by (apply floor_ge; lra).
  lia.
Qed.

(** C5: on every surface (non-negative width and height) the Smoke
    particle count is min(80, max(50, floor(50*scale))) and lies in
    [50,80], the LightShade light count min(12, max(5, floor(5*scale)))
    lies in [5,12]; a Smoke instance constructed at 280x200 has scale 1 and
    50 particles, one constructed at 1920x1080 has scale
    sqrt(2073600/56000), about 6.08, and 80 particles. *)
Theorem density_clamped_counts (cw ch : R) (g : RandomSource) :
  0 <= cw -> 0 <= ch ->
  (let v := fst (SmokeVisual.new cw ch g) in
   let n := Z.min 80 (Z.max 50 (Js.floor (50 * visualScale cw ch))) in
   length (SmokeVisual.particles v) = Z.to_nat n /\ (50 <= n <= 80)%Z /\
   (50 <= length (SmokeVisual.particles v) <= 80)%nat) /\
  (let v := fst (LightShadeVisual.new cw ch g) in
   let n := Z.min 12 (Z.max 5 (Js.floor (5 * visualScale cw ch))) in
   length (LightShadeVisual.lights v) = Z.to_nat n /\ (5 <= n <= 12)%Z /\
   (5 <= length (LightShadeVisual.lights v) <= 12)%nat) /\
  (let v := fst (SmokeVisual.new 280 200 g) in
   BaseVisual.scale (SmokeVisual.base v) = 1 /\
   length (SmokeVisual.particles v) = 50%nat) /\
  (let v := fst (SmokeVisual.new 1920 1080 g) in
   BaseVisual.scale (SmokeVisual.base v) = sqrt (2073600 / 56000) /\
   6.08 <= BaseVisual.scale (SmokeVisual.base v) < 6.09 /\
   length (SmokeVisual.particles v) = 80%nat).
Proof.
  intros _ _.
  assert (Hbase : forall a b,
            SmokeVisual.base (fst (SmokeVisual.new a b g)) = BaseVisual.new a b).
  { intros a b. unfold SmokeVisual.new.
    destruct (Smoke_initParticles_particles
      {| SmokeVisual.base := BaseVisual.new a b;
         SmokeVisual.particles := [] |} g) as (_ & _ & _ & Hb).
    exact Hb. }
  split; [|split; [|split]]; cbv zeta.
  - rewrite Smoke_new_length.
    pose proof (particleCount_bounds (visualScale cw ch)) as Hn.
    unfold SmokeVisual.particleCount in *. repeat split; lia.
  - rewrite LightShade_new_length.
    pose proof (lightCount_bounds (visualScale cw ch)) as Hn.
    unfold LightShadeVisual.lightCount in *. repeat split; lia.
  - rewrite Hbase, Smoke_new_length. simpl.
    rewrite visualScale_reference, particleCount_reference.
    split; reflexivity.
  - rewrite Hbase, Smoke_new_length, particleCount_full_hd. simpl.
    split; [unfold visualScale, REF_AREA; f_equal; lra|].
    split; [apply visualScale_full_hd | reflexivity].
Qed.

Lemma density_clamped_counts_witness :
  0 <= 1920 /\ 0 <= 1080 /\
  (let v := fst (SmokeVisual.new 1920 1080 (const_source (1 / 2))) in
   (50 <= length (SmokeVisual.particles v) <= 80)%nat) /\
  (let v := fst (LightShadeVisual.new 1920 1080 (const_source (1 / 2))) in
   (5 <= length (LightShadeVisual.lights v) <= 12)%nat).
Proof.
  assert (Hw : 0 <= 1920) by lra.
  assert (Hh : 0 <= 1080) by lra.
  destruct (density_clamped_counts 1920 1080 (const_source (1 / 2)) Hw Hh)
    as ((_ & _ & Hs) & (_ & _ & Hl) & _).
  repeat split; try assumption; [apply Hs | apply Hs | apply Hl | apply Hl].
Defined.

(** ** Sorting by a numeric key *)

Section SortByKey.

Context {A : Type} (key : A -> R).

Let cmp (a b : A) : R := key a - key b.
Let le (a b : A) : Prop := key a <= key b.

Lemma sort_insert_perm (a : A) (l : list A) :
  Permutation (sort_insert cmp a l) (a :: l).
Proof.
  induction l as [|b l IH]; simpl.
  - apply Permutation_refl.
  - destruct (Rle_dec (cmp a b) 0).
    + apply Permutation_refl.
    + apply Permutation_trans with (b :: a :: l).
      * now apply perm_skip.
      * apply perm_swap.
Qed.

Lemma array_sort_perm (l : list A) : Permutation (array_sort cmp l) l.
Proof.
  induction l as [|a l IH]; simpl.
  - apply perm_nil.
  - apply Permutation_trans with (a :: array_sort cmp l).
    + apply sort_insert_perm.
    + now apply perm_skip.
Qed.

Lemma sort_insert_sorted (a : A) (l : list A) :
  StronglySorted le l -> StronglySorted le (sort_insert cmp a l).
Proof.
  induction l as [|b l IH]; intros Hs; simpl.
  - constructor; [constructor | constructor].
  - inversion Hs as [|b' l' Hl Hb]; subst.
    destruct (Rle_dec (cmp a b) 0) as [Hab | Hab]; unfold cmp in Hab.
    + constructor; [exact Hs|].
      constructor; [unfold le; lra|].
      eapply Forall_impl; [|exact Hb].
      intros c Hc. unfold le in *. lra.
    + constructor; [now apply IH|].
      apply (Permutation_Forall (Permutation_sym (sort_insert_perm a l))).
      constructor; [unfold le; lra | exact Hb].
Qed.

Lemma array_sort_sorted (l : list A) : StronglySorted le (array_sort cmp l).
Proof.
  induction l as [|a l IH]; simpl.
  - constructor.
  - now apply sort_insert_sorted.
Qed.

Lemma sorted_after (l1 l2 : list A) (b : A) :
  StronglySorted le (l1 ++ b :: l2) -> Forall (le b) l2.
Proof.
  induction l1 as [|c l1 IH]; simpl; intros Hs.
  - now inversion Hs.
  - inversion Hs; subst. now apply IH.
Qed.

Lemma sorted_nth_le (l : list A) (i j : nat) (a b : A) :
  StronglySorted le l -> (i < j)%nat ->
  nth_error l i = Some a -> nth_error l j = Some b -> le a b.
Proof.
  intros Hs. revert i j.
  induction Hs as [|c l Hs IH Hc]; intros i j Hij Ha Hb.
  - destruct i; discriminate.
  - destruct j as [|j]; [lia|].
    destruct i as [|i]; simpl in *.
    + injection Ha as <-.
      rewrite Forall_forall in Hc. apply Hc.
      eapply nth_error_In; eassumption.
    + apply (IH i j); [lia | assumption | assumption].
Qed.

(** In a sorted list a strictly smaller key sits at a strictly smaller
    index. *)
Lemma sorted_lt_index (l : list A) (i j : nat) (a b : A) :
  StronglySorted le l ->
  nth_error l i = Some a -> nth_error l j = Some b ->
  key a < key b -> (i < j)%nat.
Proof.
  intros Hs Ha Hb Hlt.
  destruct (Nat.lt_trichotomy i j) as [H | [H | H]]; [exact H | |].
  - subst j. rewrite Ha in Hb. injection Hb as ->. lra.
  - pose proof (sorted_nth_le l j i b a Hs H Hb Ha) as Hle.
    unfold le in Hle. lra.
Qed.

(** Two members of a sorted list with different keys: the smaller one
    comes first. *)
Lemma sorted_split (l : list A) (a b : A) :
  StronglySorted le l -> In a l -> In b l -> key a < key b ->
  exists pre mid post, l = pre ++ a :: mid ++ b :: post.
Proof.
  intros Hs Ha Hb Hlt.
  destruct (in_split b l Hb) as (l1 & l2 & ->).
  pose proof (sorted_after l1 l2 b Hs) as Hafter.
  apply in_app_or in Ha. destruct Ha as [Ha | [Ha | Ha]].
  - destruct (in_split a l1 Ha) as (pre & mid & ->).
    exists pre, mid, l2. now rewrite <- app_assoc.
  - subst. lra.
  - rewrite Forall_forall in Hafter. specialize (Hafter a Ha).
    unfold le in Hafter. lra.
Qed.

End SortByKey.

(** ** Running calls on a context *)

Lemma Ctx_eta (c : Ctx.t) : {| Ctx.now := Ctx.now c; Ctx.saved := Ctx.saved c |} = c.
Proof. destruct c; reflexivity. Qed.

Lemma Ctx_run_app (ops1 ops2 : list Ctx.Op) (c : Ctx.t) :
  Ctx.run (ops1 ++ ops2) c
  = (fst (Ctx.run ops2 (fst (Ctx.run ops1 c))),
     snd (Ctx.run ops1 c) ++ snd (Ctx.run ops2 (fst (Ctx.run ops1 c)))).
Proof.
  revert c. induction ops1 as [|o ops1 IH]; intros c; cbn [app Ctx.run fst snd].
  - now destruct (Ctx.run ops2 c).
  - destruct (Ctx.step o c) as [c1 out1]. rewrite IH.
    destruct (Ctx.run ops1 c1) as [c2 out2]. cbn [fst snd].
    now rewrite app_assoc.
Qed.

Lemma Ctx_run_cons (o : Ctx.Op) (ops : list Ctx.Op) (c : Ctx.t) :
  Ctx.run (o :: ops) c
  = (fst (Ctx.run ops (fst (Ctx.step o c))),
     snd (Ctx.step o c) ++ snd (Ctx.run ops (fst (Ctx.step o c)))).
Proof.
  cbn [Ctx.run]. destruct (Ctx.step o c) as [c1 out1]. cbn [fst snd].
  now destruct (Ctx.run ops c1).
Qed.

(** Calls that leave the context as they find it, one group per element. *)
Lemma Ctx_run_flat_map_neutral {A} (f : A -> list Ctx.Op)
  (p : Ctx.t -> A -> list Ctx.Painted) (xs : list A) (c : Ctx.t) :
  (forall x, In x xs -> Ctx.run (f x) c = (c, p c x)) ->
  Ctx.run (flat_map f xs) c = (c, flat_map (p c) xs).
Proof.
  induction xs as [|x xs IH]; intros H; simpl; [reflexivity|].
  rewrite Ctx_run_app, (H x (or_introl eq_refl)). simpl.
  rewrite IH by (intros y Hy; apply H; now right). reflexivity.
Qed.

Lemma Ctx_run_map_neutral {A} (f : A -> Ctx.Op)
  (p : Ctx.t -> A -> Ctx.Painted) (xs : list A) (c : Ctx.t) :
  (forall x, In x xs -> Ctx.step (f x) c = (c, [p c x])) ->
  Ctx.run (map f xs) c = (c, map (p c) xs).
Proof.
  induction xs as [|x xs IH]; intros H; simpl; [reflexivity|].
  rewrite (H x (or_introl eq_refl)).
  rewrite IH by (intros y Hy; apply H; now right). reflexivity.
Qed.

(** The shapes that reach the canvas are the shapes of the drawing calls,
    in the order of the calls, whatever the context. *)
Lemma Ctx_run_shapes (ops : list Ctx.Op) (c : Ctx.t) :
  map Ctx.shape (snd (Ctx.run ops c)) = Ctx.drawn ops.
Proof.
  revert c. induction ops as [|o ops IH]; intros c; [reflexivity|].
  rewrite Ctx_run_cons. cbn [snd]. rewrite map_app, IH.
  unfold Ctx.drawn. cbn [flat_map]. f_equal.
  destruct o as [k | j | a | | | s | s | s]; cbn; try reflexivity.
  destruct (Ctx.saved c); reflexivity.
Qed.

Lemma Ctx_rounded_idem (c : Ctx.t) : Ctx.rounded (Ctx.rounded c) = Ctx.rounded c.
Proof. reflexivity. Qed.

Lemma Ctx_rounded_fix (c : Ctx.t) :
  Ctx.lineCap (Ctx.now c) = Ctx.cap_round ->
  Ctx.lineJoin (Ctx.now c) = Ctx.join_round ->
  Ctx.rounded c = c.
Proof.
  destruct c as [[k j a] st]. cbn. intros -> ->. reflexivity.
Qed.

(** ** Lanterns: what reaches the canvas *)

Lemma Lanterns_drawables_perm (v : LanternsVisual.t) :
  Permutation (LanternsVisual.drawables v) (LanternsVisual.merged v).
Proof. apply (array_sort_perm LanternsVisual.depth). Qed.

Lemma Lanterns_drawables_sorted (v : LanternsVisual.t) :
  StronglySorted
    (fun a b => LanternsVisual.depth a <= LanternsVisual.depth b)
    (LanternsVisual.drawables v).
Proof. apply (array_sort_sorted LanternsVisual.depth). Qed.

(** A lantern is painted with the cap and the join it finds and leaves the
    context as it found it. *)
Lemma Lanterns_paint_lantern (v : LanternsVisual.t) (c : Ctx.t)
  (d : LanternsVisual.Drawable) (l : LanternsVisual.Lantern) :
  LanternsVisual.item d = LanternsVisual.lantern l ->
  Ctx.run (LanternsVisual.paint v d) c = (c, LanternsVisual.painted v c d).
Proof.
  intros E. unfold LanternsVisual.paint, LanternsVisual.painted. rewrite E.
  cbn. now rewrite Ctx_eta.
Qed.

(** A branch is stroked with round cap and join and leaves them so. *)
Lemma Lanterns_paint_branch (v : LanternsVisual.t) (c : Ctx.t)
  (d : LanternsVisual.Drawable) (o : LanternsVisual.Obstruction) :
  LanternsVisual.item d = LanternsVisual.ob o ->
  Ctx.run (LanternsVisual.paint v d) c
  = (Ctx.rounded c, LanternsVisual.painted v c d).
Proof.
  intros E. unfold LanternsVisual.paint, LanternsVisual.painted. rewrite E.
  reflexivity.
Qed.

Lemma Lanterns_painted_branch_rounded (v : LanternsVisual.t) (c : Ctx.t)
  (d : LanternsVisual.Drawable) (o : LanternsVisual.Obstruction) :
  LanternsVisual.item d = LanternsVisual.ob o ->
  LanternsVisual.painted v (Ctx.rounded c) d = LanternsVisual.painted v c d.
Proof.
  intros E. unfold LanternsVisual.painted. rewrite E. reflexivity.
Qed.

(** On a context whose cap and join are round, every drawable is painted
    on that same context. *)
Lemma Lanterns_run_rounded (v : LanternsVisual.t)
  (ds : list LanternsVisual.Drawable) (c : Ctx.t) :
  Ctx.run (flat_map (LanternsVisual.paint v) ds) (Ctx.rounded c)
  = (Ctx.rounded c, flat_map (LanternsVisual.painted v (Ctx.rounded c)) ds).
Proof.
  apply Ctx_run_flat_map_neutral. intros d _.
  destruct (LanternsVisual.item d) as [o | l] eqn:E.
  - rewrite (Lanterns_paint_branch v _ d o E). now rewrite Ctx_rounded_idem.
  - apply (Lanterns_paint_lantern v _ d l E).
Qed.

Lemma Lanterns_leading_from_branch (ds : list LanternsVisual.Drawable) :
  ds = LanternsVisual.leading ds ++ LanternsVisual.from_branch ds.
Proof.
  induction ds as [|d ds IH]; [reflexivity|]. simpl.
  destruct (LanternsVisual.item d); [reflexivity|].
  simpl. now rewrite <- IH.
Qed.

Lemma Lanterns_leading_lanterns (ds : list LanternsVisual.Drawable) :
  Forall (fun d => exists l, LanternsVisual.item d = LanternsVisual.lantern l)
         (LanternsVisual.leading ds).
Proof.
  induction ds as [|d ds IH]; simpl; [constructor|].
  destruct (LanternsVisual.item d) as [o | l] eqn:E; constructor.
  - now exists l.
  - exact IH.
Qed.

(** The lanterns sorted before the first branch are painted on the context
    as found, everything from the first branch on with round cap and
    join. *)
Lemma Lanterns_run_paints (v : LanternsVisual.t)
  (ds : list LanternsVisual.Drawable) (c : Ctx.t) :
  Ctx.run (flat_map (LanternsVisual.paint v) ds) c
  = (LanternsVisual.after ds c,
     flat_map (LanternsVisual.painted v c) (LanternsVisual.leading ds)
     ++ flat_map (LanternsVisual.painted v (Ctx.rounded c))
                 (LanternsVisual.from_branch ds)).
Proof.
  unfold LanternsVisual.after.
  induction ds as [|d ds IH]; [reflexivity|].
  cbn [flat_map LanternsVisual.leading LanternsVisual.from_branch].
  rewrite Ctx_run_app.
  destruct (LanternsVisual.item d) as [o | l] eqn:E.
  - rewrite (Lanterns_paint_branch v c d o E). cbn [fst snd].
    rewrite Lanterns_run_rounded. cbn [fst snd flat_map app].
    now rewrite (Lanterns_painted_branch_rounded v c d o E).
  - rewrite (Lanterns_paint_lantern v c d l E). cbn [fst snd].
    rewrite IH. cbn [fst snd flat_map]. now rewrite <- app_assoc.
Qed.

Lemma Lanterns_render_canvas (v : LanternsVisual.t) (c : Ctx.t) :
  let ds := LanternsVisual.drawables v in
  Ctx.run (snd (LanternsVisual.render v)) c
  = (LanternsVisual.after ds c,
     Ctx.filled c (Fill 0 0 (BaseVisual.width (LanternsVisual.base v))
                        (BaseVisual.height (LanternsVisual.base v)))
     :: flat_map (LanternsVisual.painted v c) (LanternsVisual.leading ds)
     ++ flat_map (LanternsVisual.painted v (Ctx.rounded c))
                 (LanternsVisual.from_branch ds)).
Proof.
  intros ds. unfold LanternsVisual.render. cbn [snd].
  rewrite Ctx_run_cons. cbn [Ctx.step fst snd].
  fold ds. now rewrite Lanterns_run_paints.
Qed.

(** ** Lanterns: paint order *)

(** The shapes drawn for a drawable: one stroke for a branch, the light
    spill and then the body for a lantern. *)
Lemma Lanterns_paint_drawn (v : LanternsVisual.t) (d : LanternsVisual.Drawable) :
  Ctx.drawn (LanternsVisual.paint v d)
  = match LanternsVisual.item d with
    | LanternsVisual.ob o =>
        [ BranchStroke (LanternsVisual.ob_path o)
            (Js.or_else (LanternsVisual.ob_width o) 5
             * BaseVisual.scale (LanternsVisual.base v)) ]
    | LanternsVisual.lantern l =>
        [ LanternSpill (LanternsVisual.x l) (LanternsVisual.y l)
            (LanternsVisual.radius l * 3.2)
            (LanternsVisual.hue l) (LanternsVisual.sat l);
          LanternBody (LanternsVisual.x l) (LanternsVisual.y l)
            (LanternsVisual.radius l) (sin (LanternsVisual.swing l) * 0.05)
            (LanternsVisual.hue l) (LanternsVisual.sat l)
            (LanternsVisual.ribOffset l) ]
    end.
Proof.
  unfold LanternsVisual.paint. destruct (LanternsVisual.item d); reflexivity.
Qed.

Lemma map_shape_nonempty (P : list Ctx.Painted) (s : Shape) (ss : list Shape) :
  map Ctx.shape P = s :: ss -> P <> [].
Proof. intros E ->. discriminate E. Qed.

(** C2: [render] merges every branch and every lantern into one list and
    paints it in ascending depth order: of two drawables of that list with
    depths d1 < d2, the one with depth d1 is painted strictly before the
    other.  On any context, what reaches the canvas is the background, then
    what is painted for the drawables sorted before the first, then the
    shapes of the first (one stroke for a branch, the light spill and the
    body for a lantern: never none), and only later the shapes of the
    second. *)
Theorem Lanterns_render_ascending_depth
  (v : LanternsVisual.t) (c : Ctx.t) (a b : LanternsVisual.Drawable) :
  In a (LanternsVisual.merged v) ->
  In b (LanternsVisual.merged v) ->
  LanternsVisual.depth a < LanternsVisual.depth b ->
  (forall o, In o (LanternsVisual.obstructions v) ->
     exists d, In d (LanternsVisual.drawables v)
               /\ LanternsVisual.item d = LanternsVisual.ob o) /\
  (forall l, In l (LanternsVisual.lanterns v) ->
     exists d, In d (LanternsVisual.drawables v)
               /\ LanternsVisual.item d = LanternsVisual.lantern l) /\
  length (LanternsVisual.drawables v)
    = (length (LanternsVisual.obstructions v)
       + length (LanternsVisual.lanterns v))%nat /\
  (forall i j,
     nth_error (LanternsVisual.drawables v) i = Some a ->
     nth_error (LanternsVisual.drawables v) j = Some b -> (i < j)%nat) /\
  exists pre mid post Ppre Pa Pmid Pb Ppost,
    LanternsVisual.drawables v = pre ++ a :: mid ++ b :: post /\
    snd (Ctx.run (snd (LanternsVisual.render v)) c)
      = Ctx.filled c (Fill 0 0 (BaseVisual.width (LanternsVisual.base v))
                           (BaseVisual.height (LanternsVisual.base v)))
        :: Ppre ++ Pa ++ Pmid ++ Pb ++ Ppost /\
    map Ctx.shape Ppre = Ctx.drawn (flat_map (LanternsVisual.paint v) pre) /\
    map Ctx.shape Pa = Ctx.drawn (LanternsVisual.paint v a) /\
    Pa <> [] /\
    map Ctx.shape Pmid = Ctx.drawn (flat_map (LanternsVisual.paint v) mid) /\
    map Ctx.shape Pb = Ctx.drawn (LanternsVisual.paint v b) /\
    Pb <> [] /\
    map Ctx.shape Ppost = Ctx.drawn (flat_map (LanternsVisual.paint v) post) /\
    (forall d,
       Ctx.drawn (LanternsVisual.paint v d)
       = match LanternsVisual.item d with
         | LanternsVisual.ob o =>
             [ BranchStroke (LanternsVisual.ob_path o)
                 (Js.or_else (LanternsVisual.ob_width o) 5
                  * BaseVisual.scale (LanternsVisual.base v)) ]
         | LanternsVisual.lantern l =>
             [ LanternSpill (LanternsVisual.x l) (LanternsVisual.y l)
                 (LanternsVisual.radius l * 3.2)
                 (LanternsVisual.hue l) (LanternsVisual.sat l);
               LanternBody (LanternsVisual.x l) (LanternsVisual.y l)
                 (LanternsVisual.radius l)
                 (sin (LanternsVisual.swing l) * 0.05)
                 (LanternsVisual.hue l) (LanternsVisual.sat l)
                 (LanternsVisual.ribOffset l) ]
         end).
Proof.
  intros Ha Hb Hlt.
  pose proof (Lanterns_drawables_perm v) as Hperm.
  pose proof (Lanterns_drawables_sorted v) as Hsorted.
  split; [|split; [|split; [|split]]].
  - intros o Ho.
    exists {| LanternsVisual.depth := LanternsVisual.ob_depth o;
              LanternsVisual.item := LanternsVisual.ob o |}.
    split; [|reflexivity].
    apply (Permutation_in _ (Permutation_sym Hperm)).
    unfold LanternsVisual.merged. apply in_or_app. left.
    apply (in_map (fun o => LanternsVisual.mkDrawable
                              (LanternsVisual.ob_depth o)
                              (LanternsVisual.ob o))). exact Ho.
  - intros l Hl.
    exists {| LanternsVisual.depth := LanternsVisual.lanternDepth v l;
              LanternsVisual.item := LanternsVisual.lantern l |}.
    split; [|reflexivity].
    apply (Permutation_in _ (Permutation_sym Hperm)).
    unfold LanternsVisual.merged. apply in_or_app. right.
    apply (in_map (fun l => LanternsVisual.mkDrawable
                              (LanternsVisual.lanternDepth v l)
                              (LanternsVisual.lantern l))). exact Hl.
  - rewrite (Permutation_length Hperm). unfold LanternsVisual.merged.
    now rewrite length_app, !length_map.
  - intros i j Hi Hj.
    exact (sorted_lt_index LanternsVisual.depth _ i j a b Hsorted Hi Hj Hlt).
  - destruct (sorted_split LanternsVisual.depth
                (LanternsVisual.drawables v) a b Hsorted) as (pre & mid & post & E).
    + apply (Permutation_in _ (Permutation_sym Hperm)). exact Ha.
    + apply (Permutation_in _ (Permutation_sym Hperm)). exact Hb.
    + exact Hlt.
    + set (paint := LanternsVisual.paint v).
      set (c1 := fst (Ctx.run (flat_map paint pre) c)).
      set (c2 := fst (Ctx.run (paint a) c1)).
      set (c3 := fst (Ctx.run (flat_map paint mid) c2)).
      set (c4 := fst (Ctx.run (paint b) c3)).
      exists pre, mid, post,
        (snd (Ctx.run (flat_map paint pre) c)),
        (snd (Ctx.run (paint a) c1)),
        (snd (Ctx.run (flat_map paint mid) c2)),
        (snd (Ctx.run (paint b) c3)),
        (snd (Ctx.run (flat_map paint post) c4)).
      split; [exact E|]. split.
      * unfold LanternsVisual.render. cbn [snd]. rewrite E.
        rewrite Ctx_run_cons. cbn [Ctx.step fst snd app]. f_equal.
        rewrite flat_map_app. cbn [flat_map].
        rewrite flat_map_app. cbn [flat_map].
        fold paint.
        rewrite Ctx_run_app. cbn [snd]. f_equal. fold c1.
        rewrite Ctx_run_app. cbn [snd]. f_equal. fold c2.
        rewrite Ctx_run_app. cbn [snd]. f_equal. fold c3.
        rewrite Ctx_run_app. cbn [snd]. fold c4. reflexivity.
      * pose proof (Lanterns_paint_drawn v a) as Da.
        pose proof (Lanterns_paint_drawn v b) as Db.
        rewrite !Ctx_run_shapes. fold paint in Da, Db.
        repeat (split; [reflexivity|]).
        split.
        { apply (f_equal (@length Shape)) in Da.
          intros E0. pose proof (Ctx_run_shapes (paint a) c1) as Hs.
          rewrite E0 in Hs. cbn in Hs. rewrite <- Hs in Da.
          destruct (LanternsVisual.item a); discriminate Da. }
        repeat (split; [reflexivity|]).
        split.
        { apply (f_equal (@length Shape)) in Db.
          intros E0. pose proof (Ctx_run_shapes (paint b) c3) as Hs.
          rewrite E0 in Hs. cbn in Hs. rewrite <- Hs in Db.
          destruct (LanternsVisual.item b); discriminate Db. }
        split; [reflexivity|].
        intros d. apply Lanterns_paint_drawn.
Qed.

(** ** Lanterns: depth *)


Lemma clampedY_inside (v : LanternsVisual.t) (l : LanternsVisual.Lantern) :
  - (2 * LanternsVisual.radius l) <= LanternsVisual.y l ->
  LanternsVisual.y l
    <= BaseVisual.height (LanternsVisual.base v) + 2 * LanternsVisual.radius l ->
  LanternsVisual.clampedY v l = LanternsVisual.y l.
Proof.
  intros H1 H2. unfold LanternsVisual.clampedY.
  rewrite Rmin_right by lra. rewrite Rmax_right by lra. reflexivity.
Qed.




(** *** Lanterns above the top edge *)


Lemma for_push_Forall {A} (I : RandomSource -> Prop) (Q : A -> Prop)
  (body : nat -> Rnd A) :
  (forall i g, I g -> Q (fst (body i g)) /\ I (snd (body i g))) ->
  forall n start g, I g ->
    Forall Q (fst (for_push n start body g)) /\ I (snd (for_push n start body g)).
Proof.
  intros Hbody n. induction n as [|n IH]; intros start g Hg; simpl.
  - split; [constructor | exact Hg].
  - unfold bind. destruct (Hbody start g Hg) as [Hq Hi].
    destruct (body start g) as [a g1]. simpl in *.
    destruct (IH (S start) g1 Hi) as [Hqs His].
    destruct (for_push n (S start) body g1) as [xs g2]. simpl in *.
    split; [now constructor | exact His].
Qed.

Lemma Lanterns_new_fields (cw ch : R) g :
  LanternsVisual.base (fst (LanternsVisual.new cw ch g)) = BaseVisual.new cw ch /\
  LanternsVisual.lanterns (fst (LanternsVisual.new cw ch g))
    = fst (for_push
             (Z.to_nat (LanternsVisual.lanternCount (visualScale cw ch))) 0
             (LanternsVisual.newLantern
                {| LanternsVisual.base := BaseVisual.new cw ch;
                   LanternsVisual.lanterns := [];
                   LanternsVisual.obstructions := [] |}) g).
Proof.
  unfold LanternsVisual.new, LanternsVisual.initLanterns,
    LanternsVisual.initObstructions, bind. simpl.
  destruct (for_push _ 0 (LanternsVisual.newLantern _) g) as [ls g1].
  destruct (for_push 5 0 LanternsVisual.newBranch g1) as [obs g2].
  simpl. split; reflexivity.
Qed.


Section LanternFloat.

Variables (H0 y0 r0 f0 : R).
Hypothesis f0_nonneg : 0 <= f0.




End LanternFloat.




Lemma Lanterns_render_ascending_depth_witness :
  let o := LanternsVisual.mkObstruction 0.22 0 4 in
  let l := LanternsVisual.mkLantern 0 10 20 0 0 0 0 0 0 0 in
  let v := {| LanternsVisual.base := BaseVisual.new 280 200;
              LanternsVisual.lanterns := [l];
              LanternsVisual.obstructions := [o] |} in
  let a := {| LanternsVisual.depth := 0.22;
              LanternsVisual.item := LanternsVisual.ob o |} in
  let b := {| LanternsVisual.depth := LanternsVisual.lanternDepth v l;
              LanternsVisual.item := LanternsVisual.lantern l |} in
  In a (LanternsVisual.merged v) /\
  In b (LanternsVisual.merged v) /\
  LanternsVisual.depth a < LanternsVisual.depth b /\
  (forall i j,
     nth_error (LanternsVisual.drawables v) i = Some a ->
     nth_error (LanternsVisual.drawables v) j = Some b -> (i < j)%nat) /\
  exists Ppre Pa Pmid Pb Ppost,
    snd (Ctx.run (snd (LanternsVisual.render v)) Ctx.created)
      = Ctx.filled Ctx.created (Fill 0 0 280 200)
        :: Ppre ++ Pa ++ Pmid ++ Pb ++ Ppost /\
    map Ctx.shape Pa = Ctx.drawn (LanternsVisual.paint v a) /\ Pa <> [] /\
    map Ctx.shape Pb = Ctx.drawn (LanternsVisual.paint v b) /\ Pb <> [].
Proof.
  intros o l v a b.
  assert (Ha : In a (LanternsVisual.merged v)) by (left; reflexivity).
  assert (Hb : In b (LanternsVisual.merged v)) by (right; left; reflexivity).
  assert (Hlt : LanternsVisual.depth a < LanternsVisual.depth b).
  { unfold a, b, LanternsVisual.depth, LanternsVisual.lanternDepth.
    rewrite clampedY_inside by (simpl; lra). simpl.
    assert (Hq : 10 / (200 + 20 * 4) < 1 / 2).
    { apply (Rmult_lt_reg_r (200 + 20 * 4)); [lra|].
      unfold Rdiv at 1. rewrite Rmult_assoc, Rinv_l by lra. lra. }
    lra. }
  destruct (Lanterns_render_ascending_depth v Ctx.created a b Ha Hb Hlt)
    as (_ & _ & _ & Hidx & pre & mid & post & Ppre & Pa & Pmid & Pb & Ppost
        & _ & Hout & _ & Hsa & Hna & _ & Hsb & Hnb & _).
  split; [exact Ha|]. split; [exact Hb|]. split; [exact Hlt|].
  split; [exact Hidx|].
  exists Ppre, Pa, Pmid, Pb, Ppost.
  split; [exact Hout|]. repeat split; assumption.
Defined.

(** ** Resize *)

(** [SmokeVisual.resize] keeps every particle it finds and appends the
    freshly generated ones. *)
Lemma Smoke_resize_appends (w h : R) (v : SmokeVisual.t) g :
  exists fresh,
    SmokeVisual.particles (fst (SmokeVisual.resize w h v g))
      = SmokeVisual.particles v ++ fresh /\
    length fresh = Z.to_nat (SmokeVisual.particleCount (visualScale w h)) /\
    SmokeVisual.base (fst (SmokeVisual.resize w h v g))
      = BaseVisual.resize w h (SmokeVisual.base v).
Proof.
  unfold SmokeVisual.resize.
  destruct (Smoke_initParticles_particles
    {| SmokeVisual.base := BaseVisual.resize w h (SmokeVisual.base v);
       SmokeVisual.particles := SmokeVisual.particles v |} g)
    as (fresh & Hp & Hl & Hb).
  exists fresh. simpl in *. auto.
Qed.

(** The same holds of [LightShadeVisual.resize]. *)
Lemma LightShade_resize_appends (w h : R) (v : LightShadeVisual.t) g :
  exists fresh,
    LightShadeVisual.lights (fst (LightShadeVisual.resize w h v g))
      = LightShadeVisual.lights v ++ fresh /\
    length fresh = Z.to_nat (LightShadeVisual.lightCount (visualScale w h)).
Proof.
  unfold LightShadeVisual.resize.
  destruct (LightShade_initLights_lights
    {| LightShadeVisual.base := BaseVisual.resize w h (LightShadeVisual.base v);
       LightShadeVisual.lights := LightShadeVisual.lights v |} g)
    as (fresh & Hp & Hl).
  exists fresh. simpl in *. auto.
Qed.

(** [LanternsVisual.resize] empties both collections first: what it leaves
    is what the constructor builds on a surface of the new size. *)
Lemma Lanterns_resize_rebuilds (w h : R) (v : LanternsVisual.t) g :
  LanternsVisual.lanterns (fst (LanternsVisual.resize w h v g))
    = LanternsVisual.lanterns (fst (LanternsVisual.new w h g)) /\
  LanternsVisual.obstructions (fst (LanternsVisual.resize w h v g))
    = LanternsVisual.obstructions (fst (LanternsVisual.new w h g)).
Proof.
  unfold LanternsVisual.resize, LanternsVisual.new,
    LanternsVisual.initLanterns, LanternsVisual.initObstructions, bind.
  simpl.
  change (LanternsVisual.newLantern
            {| LanternsVisual.base := BaseVisual.resize w h (LanternsVisual.base v);
               LanternsVisual.lanterns := [];
               LanternsVisual.obstructions := [] |})
    with (LanternsVisual.newLantern
            {| LanternsVisual.base := BaseVisual.new w h;
               LanternsVisual.lanterns := [];
               LanternsVisual.obstructions := [] |}).
  destruct (for_push _ 0 (LanternsVisual.newLantern _) g) as [ls g1].
  destruct (for_push 5 0 LanternsVisual.newBranch g1) as [obs g2].
  split; reflexivity.
Qed.

(** After [LanternsVisual.resize] on a valid random source the lanterns
    are the freshly drawn ones: between 5 and 14, each inside the new
    surface. *)
Lemma Lanterns_resize_in_bounds (w h : R) (v : LanternsVisual.t) g :
  0 <= w -> 0 <= h -> valid_source g ->
  let v' := fst (LanternsVisual.resize w h v g) in
  (5 <= length (LanternsVisual.lanterns v') <= 14)%nat /\
  Forall (fun l => 0 <= LanternsVisual.x l <= w /\ 0 <= LanternsVisual.y l <= h)
         (LanternsVisual.lanterns v').
Proof.
  intros Hw Hh Hg v'. unfold v'.
  destruct (Lanterns_resize_rebuilds w h v g) as [-> _].
  destruct (Lanterns_new_fields w h g) as [_ ->].
  split.
  - rewrite for_push_length. unfold LanternsVisual.lanternCount. lia.
  - apply (for_push_Forall valid_source); [|exact Hg].
    intros i g' Hg'.
    unfold LanternsVisual.newLantern, bind, Math_random, ret. simpl.
    split; [|intros n; apply Hg'].
    pose proof (Hg' 0%nat). pose proof (Hg' 1%nat). nra.
Qed.

Lemma Smoke_new_const_x (cw ch c : R) :
  Forall (fun p => SmokeVisual.x p = c * cw)
         (SmokeVisual.particles (fst (SmokeVisual.new cw ch (const_source c)))).
Proof.
  unfold SmokeVisual.new, SmokeVisual.initParticles, bind. simpl.
  pose proof (for_push_Forall (fun g => forall n, g n = c)
    (fun p => SmokeVisual.x p = c * cw)
    (SmokeVisual.newParticle
       {| SmokeVisual.base := BaseVisual.new cw ch;
          SmokeVisual.particles := [] |})) as HF.
  specialize (HF ltac:(
    intros i g Hg;
    unfold SmokeVisual.newParticle, bind, Math_random, ret; simpl;
    rewrite !Hg; split; [reflexivity | intros n; apply Hg])
    (Z.to_nat (SmokeVisual.particleCount (visualScale cw ch))) 0%nat
    (const_source c) ltac:(intros n; reflexivity)).
  destruct (for_push _ 0 (SmokeVisual.newParticle _) (const_source c))
    as [ps g1].
  simpl in *. apply HF.
Qed.

Lemma visualScale_quarter : visualScale 70 50 < 1.
Proof. unfold visualScale, REF_AREA. apply (sqrt_between 0 1); lra. Qed.

Lemma particleCount_small (s : R) : s < 1 -> SmokeVisual.particleCount s = 50%Z.
Proof.
  intros Hs. unfold SmokeVisual.particleCount.
  assert (Js.floor (50 * s) < 50)%Z by (apply floor_lt; lra).
  lia.
Qed.

(** C3 on Smoke: an instance built at 280x200 and resized to 70x50 holds
    100 particles; the first 50 are the ones generated for the old surface
    and sit at x = 140, outside the new width 70. *)
Theorem Smoke_resize_keeps_stale_particles :
  let start := SmokeVisual.new 280 200 (const_source (1 / 2)) in
  let v := fst (SmokeVisual.resize 70 50 (fst start) (snd start)) in
  BaseVisual.width (SmokeVisual.base v) = 70 /\
  BaseVisual.height (SmokeVisual.base v) = 50 /\
  length (SmokeVisual.particles v) = 100%nat /\
  firstn 50 (SmokeVisual.particles v) = SmokeVisual.particles (fst start) /\
  Forall (fun p => BaseVisual.width (SmokeVisual.base v) < SmokeVisual.x p)
         (firstn 50 (SmokeVisual.particles v)).
Proof.
  intros start v.
  destruct (Smoke_resize_appends 70 50 (fst start) (snd start))
    as (fresh & Hp & Hl & Hb).
  fold v in Hp, Hb.
  assert (Hold : length (SmokeVisual.particles (fst start)) = 50%nat).
  { unfold start. rewrite Smoke_new_length, visualScale_reference,
      particleCount_reference. reflexivity. }
  rewrite (particleCount_small _ visualScale_quarter) in Hl.
  assert (Hfirst : firstn 50 (SmokeVisual.particles v)
                   = SmokeVisual.particles (fst start)).
  { rewrite Hp, <- Hold, firstn_app, Nat.sub_diag, firstn_all. simpl.
    apply app_nil_r. }
  split; [now rewrite Hb|]. split; [now rewrite Hb|].
  split; [|split].
  - rewrite Hp, length_app, Hold, Hl. reflexivity.
  - exact Hfirst.
  - rewrite Hfirst, Hb. unfold start.
    eapply Forall_impl; [|apply (Smoke_new_const_x 280 200 (1 / 2))].
    intros p Hx. simpl in *. rewrite Hx. lra.
Qed.

(** ** Sunset: the cloud layout *)

Lemma Sunset_ticks (n : nat) (v : SunsetVisual.t) g :
  ticks SunsetVisual.update n v g
  = ({| SunsetVisual.base :=
          {| BaseVisual.width := BaseVisual.width (SunsetVisual.base v);
             BaseVisual.height := BaseVisual.height (SunsetVisual.base v);
             BaseVisual.time :=
               BaseVisual.time (SunsetVisual.base v) + INR n * 0.016;
             BaseVisual.scale := BaseVisual.scale (SunsetVisual.base v) |};
        SunsetVisual.zoomOut := SunsetVisual.zoomOut v |}, g).
Proof.
  revert v. induction n as [|n IH]; intros [[w h t s] z].
  - simpl. unfold ret. do 3 f_equal. lra.
  - cbn [ticks]. unfold bind, SunsetVisual.update at 1, ret.
    rewrite IH. simpl BaseVisual.time. simpl BaseVisual.width.
    simpl BaseVisual.height. simpl BaseVisual.scale. simpl SunsetVisual.zoomOut.
    do 3 f_equal. rewrite S_INR. lra.
Qed.

Example hash_values :
  map SunsetVisual.hash [12346; 12347; 12348; 12349]%Z
  = [3705671670; 3798508781; 3891345892; 3984183003]%Z.
Proof. vm_compute. reflexivity. Qed.

(** C6: the cloud layout reads the seed 12345, the integer hash, the
    simulation time and the surface dimensions, and never the random
    source: two instances built on surfaces of one size and stepped the
    same number of ticks, whatever their random sources hold, paint the
    same cloud blobs (positions, radii, opacities). *)
Theorem Sunset_clouds_deterministic
  (cw ch : R) (n : nat) (g1 g2 : RandomSource) :
  let run := fun g =>
    ticks SunsetVisual.update n (fst (SunsetVisual.new cw ch g))
          (snd (SunsetVisual.new cw ch g)) in
  let s := fun v =>
    BaseVisual.scale (SunsetVisual.base v) * SunsetVisual.zoomOut v in
  snd (run g1) = g1 /\
  snd (run g2) = g2 /\
  fst (run g1)
    = {| SunsetVisual.base :=
           {| BaseVisual.width := cw; BaseVisual.height := ch;
              BaseVisual.time := 0 + INR n * 0.016;
              BaseVisual.scale := visualScale cw ch |};
         SunsetVisual.zoomOut := 0.58 |} /\
  SunsetVisual.drawClouds (fst (run g1)) (s (fst (run g1)))
    = SunsetVisual.drawClouds (fst (run g2)) (s (fst (run g2))) /\
  snd (SunsetVisual.render (fst (run g1)))
    = snd (SunsetVisual.render (fst (run g2))) /\
  SunsetVisual.seed = 12345%Z.
Proof.
  intros run s. unfold run.
  rewrite !Sunset_ticks. simpl. repeat split; reflexivity.
Qed.

(** ** Streets *)

Lemma Forall2_diag {A} (P : A -> A -> Prop) (l : list A) :
  (forall a, P a a) -> Forall2 P l l.
Proof. intros HP. induction l; constructor; auto. Qed.

Lemma Streets_new_cars (cw ch : R) g :
  StreetsVisual.new cw ch g
  = ({| StreetsVisual.base := BaseVisual.new cw ch;
        StreetsVisual.cars :=
          map (fun i => {| StreetsVisual.depth := 0.15 + (INR i / 5) * 0.7;
                           StreetsVisual.phase := (INR i / 5) * 2;
                           StreetsVisual.rightward := Nat.eqb (i mod 2) 0 |})
              [0; 1; 2; 3; 4]%nat |}, g).
Proof. reflexivity. Qed.

Lemma Streets_lifecycle_cars (cs : list Call) (v : StreetsVisual.t) g :
  length (StreetsVisual.cars
            (fst (lifecycle StreetsVisual.update StreetsVisual.resize cs v g)))
  = length (StreetsVisual.cars v) /\
  snd (lifecycle StreetsVisual.update StreetsVisual.resize cs v g) = g.
Proof.
  revert v. induction cs as [|c cs IH]; intros v.
  - split; reflexivity.
  - destruct c as [|w h]; cbn [lifecycle]; unfold bind.
    + unfold StreetsVisual.update at 1 3, ret.
      destruct (IH {| StreetsVisual.base := BaseVisual.update (StreetsVisual.base v);
                      StreetsVisual.cars :=
                        map StreetsVisual.update_car (StreetsVisual.cars v) |})
        as [Hl Hg].
      split; [|exact Hg]. rewrite Hl. simpl. apply length_map.
    + unfold StreetsVisual.resize at 1 3, ret.
      destruct (IH {| StreetsVisual.base :=
                        BaseVisual.resize w h (StreetsVisual.base v);
                      StreetsVisual.cars := StreetsVisual.cars v |})
        as [Hl Hg].
      split; [|exact Hg]. rewrite Hl. reflexivity.
Qed.

(** C10: [StreetsVisual.resize] rewrites width, height and scale only; on
    an instance reached from the constructor by any updates and resizes the
    fleet still has its 5 cars, each with the depth, phase and direction it
    had before the call. *)
Theorem Streets_resize_keeps_fleet
  (cw ch : R) (g : RandomSource) (cs : list Call) (w h : R) :
  let start := StreetsVisual.new cw ch g in
  let before := lifecycle StreetsVisual.update StreetsVisual.resize cs
                          (fst start) (snd start) in
  let v := fst before in
  let v' := fst (StreetsVisual.resize w h v (snd before)) in
  StreetsVisual.cars v' = StreetsVisual.cars v /\
  length (StreetsVisual.cars v') = 5%nat /\
  Forall2 (fun c c' =>
             StreetsVisual.depth c' = StreetsVisual.depth c /\
             StreetsVisual.phase c' = StreetsVisual.phase c /\
             StreetsVisual.rightward c' = StreetsVisual.rightward c)
          (StreetsVisual.cars v) (StreetsVisual.cars v') /\
  BaseVisual.width (StreetsVisual.base v') = w /\
  BaseVisual.height (StreetsVisual.base v') = h /\
  BaseVisual.scale (StreetsVisual.base v') = visualScale w h /\
  BaseVisual.time (StreetsVisual.base v')
    = BaseVisual.time (StreetsVisual.base v).
Proof.
  intros start before v v'.
  assert (Hcars : StreetsVisual.cars v' = StreetsVisual.cars v) by reflexivity.
  split; [exact Hcars|]. split.
  - rewrite Hcars. unfold v, before.
    destruct (Streets_lifecycle_cars cs (fst start) (snd start)) as [Hl _].
    rewrite Hl. unfold start. rewrite Streets_new_cars. reflexivity.
  - split.
    + rewrite Hcars. apply Forall2_diag. intros c. repeat split.
    + repeat split; reflexivity.
Qed.

Lemma Streets_ticks_cars (n : nat) (v : StreetsVisual.t) g :
  StreetsVisual.cars (fst (ticks StreetsVisual.update n v g))
  = map (Nat.iter n StreetsVisual.update_car) (StreetsVisual.cars v).
Proof.
  revert v. induction n as [|n IH]; intros v.
  - simpl. symmetry. apply map_id.
  - cbn [ticks]. unfold bind, StreetsVisual.update at 1, ret.
    rewrite IH. simpl StreetsVisual.cars. rewrite map_map.
    apply map_ext. intros c. symmetry. apply Nat.iter_succ_r.
Qed.

(** Case analysis on the two wrapping tests of [update_car], the test
    against 2 first. *)
Ltac case_wraps :=
  repeat match goal with
         | |- context [Rgt_dec ?a ?b] => destruct (Rgt_dec a b)
         end;
  repeat match goal with
         | |- context [Rlt_dec ?a ?b] => destruct (Rlt_dec a b)
         end.

Lemma update_car_rightward (c : StreetsVisual.Car) :
  0 <= StreetsVisual.phase c <= 2 ->
  StreetsVisual.rightward c = true ->
  StreetsVisual.phase (StreetsVisual.update_car c)
  = if Rgt_dec (StreetsVisual.phase c + 0.00045) 2
    then StreetsVisual.phase c + 0.00045 - 2
    else StreetsVisual.phase c + 0.00045.
Proof.
  intros Hp Hr. unfold StreetsVisual.update_car, StreetsVisual.speed.
  rewrite Hr. simpl. case_wraps; lra.
Qed.

Lemma update_car_leftward (c : StreetsVisual.Car) :
  0 <= StreetsVisual.phase c <= 2 ->
  StreetsVisual.rightward c = false ->
  StreetsVisual.phase (StreetsVisual.update_car c)
  = if Rlt_dec (StreetsVisual.phase c - 0.00045) 0
    then StreetsVisual.phase c - 0.00045 + 2
    else StreetsVisual.phase c - 0.00045.
Proof.
  intros Hp Hr. unfold StreetsVisual.update_car, StreetsVisual.speed.
  rewrite Hr. simpl. case_wraps; lra.
Qed.

Lemma update_car_range (c : StreetsVisual.Car) :
  0 <= StreetsVisual.phase c <= 2 ->
  0 <= StreetsVisual.phase (StreetsVisual.update_car c) <= 2.
Proof.
  intros Hp. destruct (StreetsVisual.rightward c) eqn:Hr.
  - rewrite (update_car_rightward c Hp Hr).
    destruct (Rgt_dec (StreetsVisual.phase c + 0.00045) 2); lra.
  - rewrite (update_car_leftward c Hp Hr).
    destruct (Rlt_dec (StreetsVisual.phase c - 0.00045) 0); lra.
Qed.

Lemma iter_update_car_range (n : nat) (c : StreetsVisual.Car) :
  0 <= StreetsVisual.phase c <= 2 ->
  0 <= StreetsVisual.phase (Nat.iter n StreetsVisual.update_car c) <= 2.
Proof.
  intros Hp. induction n as [|n IH]; simpl.
  - exact Hp.
  - now apply update_car_range.
Qed.

(** X25: the five phases start at (i/5)*2, inside [0,2); an update adds
    0.00045 to the phase of a rightward car and takes 2 away when the sum
    exceeds 2, it subtracts 0.00045 from the phase of a leftward car and
    adds 2 when the difference is below 0; after any number of updates
    there are five cars and every phase lies in the closed interval
    [0,2]. *)
Theorem Streets_phase_stays_in_closed_range
  (cw ch : R) (g : RandomSource) (n : nat) :
  let start := StreetsVisual.new cw ch g in
  let v := fst (ticks StreetsVisual.update n (fst start) (snd start)) in
  map StreetsVisual.phase (StreetsVisual.cars (fst start))
    = map (fun i => (INR i / 5) * 2) [0; 1; 2; 3; 4]%nat /\
  Forall (fun c => 0 <= StreetsVisual.phase c < 2)
         (StreetsVisual.cars (fst start)) /\
  length (StreetsVisual.cars v) = 5%nat /\
  Forall (fun c => 0 <= StreetsVisual.phase c <= 2) (StreetsVisual.cars v) /\
  (forall c, 0 <= StreetsVisual.phase c <= 2 ->
     StreetsVisual.rightward c = true ->
     StreetsVisual.phase (StreetsVisual.update_car c)
     = if Rgt_dec (StreetsVisual.phase c + 0.00045) 2
       then StreetsVisual.phase c + 0.00045 - 2
       else StreetsVisual.phase c + 0.00045) /\
  (forall c, 0 <= StreetsVisual.phase c <= 2 ->
     StreetsVisual.rightward c = false ->
     StreetsVisual.phase (StreetsVisual.update_car c)
     = if Rlt_dec (StreetsVisual.phase c - 0.00045) 0
       then StreetsVisual.phase c - 0.00045 + 2
       else StreetsVisual.phase c - 0.00045).
Proof.
  intros start v.
  assert (Hinit : Forall (fun c => 0 <= StreetsVisual.phase c < 2)
                         (StreetsVisual.cars (fst start))).
  { unfold start. rewrite Streets_new_cars. simpl.
    repeat constructor; simpl; lra. }
  split; [reflexivity|]. split; [exact Hinit|].
  unfold v. rewrite Streets_ticks_cars.
  split; [now rewrite length_map|]. split.
  - rewrite Forall_map. eapply Forall_impl; [|exact Hinit].
    intros c Hc. apply iter_update_car_range. lra.
  - split; [exact update_car_rightward | exact update_car_leftward].
Qed.

(** ** Bloom: the rotation lag *)

Lemma wrap_down_small (d : R) : d <= PI -> BloomVisual.wrap_down d = d.
Proof.
  intros H. rewrite BloomVisual.wrap_down_equation_1.
  destruct (Rgt_dec d Js.Math_PI) as [Hgt | Hle]; simpl.
  - unfold Js.Math_PI in Hgt. lra.
  - reflexivity.
Qed.

Lemma wrap_up_small (d : R) : - PI <= d -> BloomVisual.wrap_up d = d.
Proof.
  intros H. rewrite BloomVisual.wrap_up_equation_1.
  destruct (Rlt_dec d (- Js.Math_PI)) as [Hlt | Hge]; simpl.
  - unfold Js.Math_PI in Hlt. lra.
  - reflexivity.
Qed.

(** The first loop ends at or below pi, having taken whole turns away, and
    does not go below -pi what was above it. *)
Lemma wrap_down_spec (d : R) :
  BloomVisual.wrap_down d <= PI /\
  (- PI < d -> - PI < BloomVisual.wrap_down d) /\
  exists k : nat, BloomVisual.wrap_down d = d - INR k * (2 * PI).
Proof.
  funelim (BloomVisual.wrap_down d); unfold Js.Math_PI in *.
  - destruct H as (Hle & Hlo & k & Hk).
    split; [exact Hle|]. split.
    + intros _. apply Hlo. lra.
    + exists (S k). rewrite Hk, S_INR. lra.
  - split; [lra|]. split; [tauto|].
    exists 0%nat. simpl. lra.
Qed.

(** The second loop ends at or above -pi, having added whole turns, and
    does not go above pi what was at or below it. *)
Lemma wrap_up_spec (d : R) :
  - PI <= BloomVisual.wrap_up d /\
  (d <= PI -> BloomVisual.wrap_up d <= PI) /\
  (- PI < d -> BloomVisual.wrap_up d = d) /\
  exists k : nat, BloomVisual.wrap_up d = d + INR k * (2 * PI).
Proof.
  funelim (BloomVisual.wrap_up d); unfold Js.Math_PI in *.
  - destruct H as (Hge & Hhi & _ & k & Hk).
    split; [exact Hge|]. split; [|split].
    + intros _.
      destruct (Rlt_dec (d + PI * 2) (- PI)) as [Hlt | Hnlt].
      * apply Hhi. lra.
      * rewrite wrap_up_small by lra. lra.
    + intros Habove. lra.
    + exists (S k). rewrite Hk, S_INR. lra.
  - split; [lra|]. split; [tauto|]. split; [reflexivity|].
    exists 0%nat. simpl. lra.
Qed.

(** Whatever the two angles, the wrapped difference lies in [-pi, pi] and
    differs from the plain difference by whole turns. *)
Lemma lagDifference_wraps (rotation1 lag : R) :
  - PI <= BloomVisual.lagDifference rotation1 lag <= PI /\
  exists k : Z,
    BloomVisual.lagDifference rotation1 lag
    = rotation1 - lag + IZR k * (2 * PI).
Proof.
  unfold BloomVisual.lagDifference.
  destruct (wrap_down_spec (rotation1 - lag)) as (Hle & _ & k1 & Hk1).
  destruct (wrap_up_spec (BloomVisual.wrap_down (rotation1 - lag)))
    as (Hge & Hhi & _ & k2 & Hk2).
  split; [split; [exact Hge | now apply Hhi]|].
  exists (Z.of_nat k2 - Z.of_nat k1)%Z.
  rewrite Hk2, Hk1, minus_IZR, <- !INR_IZR_INZ. lra.
Qed.

Lemma lagDifference_small (rotation1 lag : R) :
  - PI < rotation1 - lag <= PI ->
  BloomVisual.lagDifference rotation1 lag = rotation1 - lag.
Proof.
  intros [Hlo Hhi]. unfold BloomVisual.lagDifference.
  rewrite wrap_down_small by lra. apply wrap_up_small. lra.
Qed.

Lemma PI_above_3 : 3 < PI.
Proof. pose proof PI_4 (* PI <= 4 *). pose proof PI2_3_2. unfold PI2 in *. lra. Qed.

Lemma Math_random_valid g :
  valid_source g ->
  0 <= fst (Math_random g) < 1 /\ valid_source (snd (Math_random g)).
Proof.
  intros Hg. unfold Math_random. simpl. split; [apply Hg|].
  intros n. apply Hg.
Qed.

Lemma forEachM_Forall_source {A} (I : RandomSource -> Prop)
  (P Q : A -> Prop) (body : A -> Rnd A) :
  (forall a g, I g -> P a -> Q (fst (body a g)) /\ I (snd (body a g))) ->
  forall xs g, I g -> Forall P xs ->
    Forall Q (fst (forEachM body xs g)) /\ I (snd (forEachM body xs g)).
Proof.
  intros Hbody xs. induction xs as [|a xs IH]; intros g Hg HP; simpl.
  - split; [constructor | exact Hg].
  - inversion HP as [|a' xs' Ha Hxs]; subst.
    unfold bind. destruct (Hbody a g Hg Ha) as [Hq Hi].
    destruct (body a g) as [a1 g1]. simpl in *.
    destruct (IH g1 Hi Hxs) as [Hqs His].
    destruct (forEachM body xs g1) as [ys g2]. simpl in *.
    split; [now constructor | exact His].
Qed.

Lemma newBloom_lag_small (v : BloomVisual.t) (i : nat) g :
  valid_source g ->
  lag_small (fst (BloomVisual.newBloom v i g)) /\
  valid_source (snd (BloomVisual.newBloom v i g)).
Proof.
  intros Hg. unfold BloomVisual.newBloom, bind, Math_random, ret.
  cbn [fst snd]. split.
  - unfold lag_small. cbn [BloomVisual.rotation BloomVisual.rotationLag
                            BloomVisual.rotationSpeed].
    pose proof (Hg 5%nat) as H5. lra.
  - intros n. apply Hg.
Qed.



(** One update of a bloom whose lag is small: the wrapping loops leave the
    difference as it is, the lag moves 1.4% of the way, and the lag stays
    small. *)
Lemma update_bloom_lag_small (t : R) (b : BloomVisual.Bloom) :
  lag_small b ->
  let b' := BloomVisual.update_bloom t b in
  let d := BloomVisual.lagDifference (BloomVisual.rotation b')
                                     (BloomVisual.rotationLag b) in
  BloomVisual.rotation b' = BloomVisual.rotation b + BloomVisual.rotationSpeed b /\
  d = BloomVisual.rotation b' - BloomVisual.rotationLag b /\
  - PI < d <= PI /\
  BloomVisual.rotationLag b' = BloomVisual.rotationLag b + d * 0.014 /\
  lag_small b'.
Proof.
  intros [He Hs] b' d.
  pose proof PI_above_3 as Hpi.
  assert (Hrot : BloomVisual.rotation b'
                 = BloomVisual.rotation b + BloomVisual.rotationSpeed b)
    by reflexivity.
  assert (Hd : d = BloomVisual.rotation b' - BloomVisual.rotationLag b).
  { unfold d. apply lagDifference_small. rewrite Hrot. lra. }
  assert (Hlag : BloomVisual.rotationLag b'
                 = BloomVisual.rotationLag b + d * 0.014).
  { unfold d. rewrite Hrot. reflexivity. }
  split; [exact Hrot|]. split; [exact Hd|].
  split; [rewrite Hd, Hrot; lra|]. split; [exact Hlag|].
  unfold lag_small. rewrite Hlag, Hd, Hrot.
  change (BloomVisual.rotationSpeed b') with (BloomVisual.rotationSpeed b).
  lra.
Qed.



Lemma initBlooms_length (b : BaseVisual.t) g :
  length (BloomVisual.blooms
            (fst (BloomVisual.initBlooms
                    {| BloomVisual.base := b; BloomVisual.blooms := [] |} g)))
  = 3%nat.
Proof.
  unfold BloomVisual.initBlooms, bind. cbn [BloomVisual.blooms app].
  pose proof (for_push_length BloomVisual.count 0
                (BloomVisual.newBloom
                   {| BloomVisual.base := b; BloomVisual.blooms := [] |}) g)
    as Hn.
  destruct (for_push BloomVisual.count 0 _ g) as [bs g1].
  pose proof (forEachM_length BloomVisual.addPetalPhases bs g1) as Hm.
  destruct (forEachM BloomVisual.addPetalPhases bs g1) as [all g2].
  unfold ret. cbn [fst BloomVisual.blooms] in *. now rewrite Hm, Hn.
Qed.







Lemma Rabs_le_bounds (a b : R) : Rabs a <= b -> - b <= a <= b.
Proof. unfold Rabs. destruct (Rcase_abs a); lra. Qed.

(** The number of whole turns taken off a difference of at most 1000 rad. *)
Lemma turns_bounded (d diff : R) (k : Z) :
  - PI <= d <= PI -> Rabs diff <= 1000 -> d = diff - IZR k * (2 * PI) ->
  (Z.abs k <= 167)%Z.
Proof.
  intros Hd Hdiff E. pose proof PI_above_3 as Hpi.
  apply Rabs_le_bounds in Hdiff.
  assert (Hk : -168 < IZR k < 168) by (split; nra).
  destruct Hk as [Hlo Hhi].
  apply lt_IZR in Hlo. apply lt_IZR in Hhi. lia.
Qed.





(** * Further properties of the engine *)

(** ** Helpers *)

Lemma rem_range (a m : R) : 0 <= a -> 0 < m -> 0 <= Js.rem a m < m.
Proof.
  intros Ha Hm. unfold Js.rem, Js.trunc.
  assert (Hq : 0 <= a / m).
  { unfold Rdiv. apply Rmult_le_pos; [exact Ha|].
    left. now apply Rinv_0_lt_compat. }
  destruct (Rle_dec 0 (a / m)) as [_ | Hn]; [|contradiction].
  destruct (Zfloor_bound (a / m)) as [Hlo Hhi].
  assert (Ha' : a = a / m * m) by (field; lra).
  split; nra.
Qed.

Lemma rem_one_turn (a m : R) : 0 < m -> m <= a < 2 * m -> Js.rem a m = a - m.
Proof.
  intros Hm [Hlo Hhi]. unfold Js.rem, Js.trunc.
  assert (Hq : 1 <= a / m < 2).
  { split.
    - apply (Rmult_le_reg_r m); [exact Hm|]. unfold Rdiv.
      rewrite Rmult_assoc, Rinv_l by lra. lra.
    - apply (Rmult_lt_reg_r m); [exact Hm|]. unfold Rdiv.
      rewrite Rmult_assoc, Rinv_l by lra. lra. }
  destruct (Rle_dec 0 (a / m)) as [_ | Hn]; [|lra].
  rewrite (Zfloor_eq 1 (a / m)) by lra. lra.
Qed.

Lemma for_push_nth {A} (I : RandomSource -> Prop) (Q : nat -> A -> Prop)
  (body : nat -> Rnd A) :
  (forall i g, I g -> Q i (fst (body i g)) /\ I (snd (body i g))) ->
  forall n start g, I g ->
  forall k a, nth_error (fst (for_push n start body g)) k = Some a ->
              Q (start + k)%nat a.
Proof.
  intros Hbody n. induction n as [|n IH]; intros start g Hg k a; simpl.
  - destruct k; discriminate.
  - unfold bind. destruct (Hbody start g Hg) as [Hq Hi].
    destruct (body start g) as [a0 g1]. simpl in *.
    specialize (IH (S start) g1 Hi).
    destruct (for_push n (S start) body g1) as [xs g2]. simpl in *.
    destruct k as [|k]; simpl.
    + intros E. injection E as <-. now rewrite Nat.add_0_r.
    + intros E. replace (start + S k)%nat with (S start + k)%nat by lia.
      now apply IH.
Qed.

Lemma forEachM_Forall2 {A} (I : RandomSource -> Prop) (P : A -> Prop)
  (Q : A -> A -> Prop) (body : A -> Rnd A) :
  (forall a g, I g -> P a -> Q a (fst (body a g)) /\ I (snd (body a g))) ->
  forall xs g, I g -> Forall P xs ->
    Forall2 Q xs (fst (forEachM body xs g)) /\ I (snd (forEachM body xs g)).
Proof.
  intros Hbody xs. induction xs as [|a xs IH]; intros g Hg HP; simpl.
  - split; [constructor | exact Hg].
  - inversion HP as [|a' xs' Ha Hxs]; subst.
    unfold bind. destruct (Hbody a g Hg Ha) as [Hq Hi].
    destruct (body a g) as [a1 g1]. simpl in *.
    destruct (IH g1 Hi Hxs) as [Hqs His].
    destruct (forEachM body xs g1) as [ys g2]. simpl in *.
    split; [now constructor | exact His].
Qed.

Lemma flat_map_length_const {A B} (f : A -> list B) (k : nat) (l : list A) :
  (forall a, In a l -> length (f a) = k) ->
  length (flat_map f l) = (k * length l)%nat.
Proof.
  induction l as [|a l IH]; intros H; simpl.
  - lia.
  - rewrite length_app, H by (now left).
    rewrite IH by (intros b Hb; apply H; now right). lia.
Qed.

Lemma ceil_nonneg (a : R) : 0 <= a -> (0 <= MosaicVisual.ceil a)%Z.
Proof.
  intros Ha. unfold MosaicVisual.ceil, Js.floor.
  destruct (Zfloor_bound (- a)) as [Hlo _].
  assert (IZR (Zfloor (- a)) <= 0) by lra.
  apply le_IZR in H. lia.
Qed.

Lemma ceil_above (a : R) : a <= IZR (MosaicVisual.ceil a).
Proof.
  unfold MosaicVisual.ceil, Js.floor.
  destruct (Zfloor_bound (- a)) as [Hlo _].
  rewrite opp_IZR. lra.
Qed.

(** ** The inherited lifecycle *)

Lemma Sunset_lifecycle_from (cs : list Call) (v : SunsetVisual.t) g :
  BaseVisual.scale (SunsetVisual.base v)
    = visualScale (BaseVisual.width (SunsetVisual.base v))
                  (BaseVisual.height (SunsetVisual.base v)) ->
  lifecycle SunsetVisual.update SunsetVisual.resize cs v g
  = (let size := size_after cs (BaseVisual.width (SunsetVisual.base v),
                                BaseVisual.height (SunsetVisual.base v)) in
     {| SunsetVisual.base :=
          {| BaseVisual.width := fst size;
             BaseVisual.height := snd size;
             BaseVisual.time :=
               BaseVisual.time (SunsetVisual.base v)
               + INR (updates_in cs) * 0.016;
             BaseVisual.scale := visualScale (fst size) (snd size) |};
        SunsetVisual.zoomOut := SunsetVisual.zoomOut v |}, g).
Proof.
  revert v. induction cs as [|c cs IH]; intros [[w h t s] z] Hs;
    cbn [SunsetVisual.base BaseVisual.scale BaseVisual.width
         BaseVisual.height] in Hs.
  - simpl. unfold ret. rewrite Hs. do 3 f_equal. lra.
  - destruct c as [|w' h']; cbn [lifecycle]; unfold bind.
    + unfold SunsetVisual.update at 1, ret. rewrite IH by exact Hs.
      cbn [SunsetVisual.base SunsetVisual.zoomOut BaseVisual.update
           BaseVisual.width BaseVisual.height BaseVisual.time BaseVisual.scale
           size_after updates_in fst snd].
      do 3 f_equal. rewrite S_INR. lra.
    + unfold SunsetVisual.resize at 1, ret. rewrite IH by reflexivity.
      reflexivity.
Qed.

(** X1: an instance that inherits [update] and [resize] from [BaseVisual]
    (Sunset) is, after any calls, at the size of the last resize (the
    canvas size if there was none) with the matching scale, and its clock
    shows 0.016 per update: a resize never resets or advances the clock. *)
Theorem Sunset_lifecycle_clock_and_size
  (cw ch : R) (cs : list Call) (g : RandomSource) :
  let start := SunsetVisual.new cw ch g in
  let v := fst (lifecycle SunsetVisual.update SunsetVisual.resize cs
                          (fst start) (snd start)) in
  let size := size_after cs (cw, ch) in
  BaseVisual.time (SunsetVisual.base v) = INR (updates_in cs) * 0.016 /\
  BaseVisual.width (SunsetVisual.base v) = fst size /\
  BaseVisual.height (SunsetVisual.base v) = snd size /\
  BaseVisual.scale (SunsetVisual.base v) = visualScale (fst size) (snd size) /\
  SunsetVisual.zoomOut v = 0.58.
Proof.
  intros start v size. unfold v, start, SunsetVisual.new, ret.
  cbn [fst snd]. rewrite Sunset_lifecycle_from by reflexivity.
  cbn. repeat split; try reflexivity. lra.
Qed.

(** ** Mosaic *)

Lemma initNode_placed (s cell : R) (row col : nat) g :
  valid_source g -> 0 < cell -> 0 <= s ->
  (let p := fst (MosaicVisual.initNode s cell 0.45 row col g) in
   (INR col - 0.725) * cell <= MosaicVisual.x0 p < (INR col - 0.275) * cell /\
   (INR row - 0.725) * cell <= MosaicVisual.y0 p < (INR row - 0.275) * cell /\
   4 * s <= MosaicVisual.amp p <= 14 * s /\
   MosaicVisual.x p = 0 /\ MosaicVisual.y p = 0) /\
  valid_source (snd (MosaicVisual.initNode s cell 0.45 row col g)).
Proof.
  intros Hg Hc Hs.
  unfold MosaicVisual.initNode, bind, Math_random, ret. cbn.
  pose proof (Hg 0%nat). pose proof (Hg 1%nat). pose proof (Hg 4%nat).
  split; [|intros n; apply Hg].
  repeat split; try reflexivity; nra.
Qed.

Lemma Mosaic_initMesh_grid (v : MosaicVisual.t) g :
  let s := BaseVisual.scale (MosaicVisual.base v) in
  let cell := (36 + g 0%nat * 24) * s in
  let cols := Z.to_nat (MosaicVisual.ceil
                (BaseVisual.width (MosaicVisual.base v) / cell) + 2) in
  let rows := Z.to_nat (MosaicVisual.ceil
                (BaseVisual.height (MosaicVisual.base v) / cell) + 2) in
  MosaicVisual.base (fst (MosaicVisual.initMesh v g)) = MosaicVisual.base v /\
  MosaicVisual.grid (fst (MosaicVisual.initMesh v g))
  = fst (for_push rows 0
           (fun row => for_push cols 0
              (fun col => MosaicVisual.initNode s cell 0.45 row col))
           (fun n => g (S n))).
Proof.
  intros s cell cols rows.
  unfold MosaicVisual.initMesh, bind, Math_random.
  fold s. fold cell. fold cols. fold rows.
  destruct (for_push rows 0 _ (fun n => g (S n))) as [gr g1].
  split; reflexivity.
Qed.

(** X2: the mesh [initMesh] builds is rectangular: ceil(height/cell) + 2
    rows of ceil(width/cell) + 2 nodes each, for the cell size
    (36 + 24*random) * scale; on a surface of positive scale that is at
    least 2 by 2 with a cell between 36 and 60 times the scale.  The grid
    it finds is discarded. *)
Theorem Mosaic_mesh_is_rectangular (v : MosaicVisual.t) (g : RandomSource) :
  valid_source g ->
  0 < BaseVisual.scale (MosaicVisual.base v) ->
  0 <= BaseVisual.width (MosaicVisual.base v) ->
  0 <= BaseVisual.height (MosaicVisual.base v) ->
  let s := BaseVisual.scale (MosaicVisual.base v) in
  let cell := (36 + g 0%nat * 24) * s in
  let cols := Z.to_nat (MosaicVisual.ceil
                (BaseVisual.width (MosaicVisual.base v) / cell) + 2) in
  let rows := Z.to_nat (MosaicVisual.ceil
                (BaseVisual.height (MosaicVisual.base v) / cell) + 2) in
  let v' := fst (MosaicVisual.initMesh v g) in
  36 * s <= cell < 60 * s /\
  length (MosaicVisual.grid v') = rows /\
  Forall (fun r => length r = cols) (MosaicVisual.grid v') /\
  (2 <= rows)%nat /\ (2 <= cols)%nat /\
  MosaicVisual.grid v'
  = MosaicVisual.grid
      (fst (MosaicVisual.initMesh
              {| MosaicVisual.base := MosaicVisual.base v;
                 MosaicVisual.grid := [] |} g)).
Proof.
  intros Hg Hs Hw Hh s cell cols rows v'.
  pose proof (Hg 0%nat) as H0.
  assert (Hcell : 36 * s <= cell < 60 * s) by (unfold cell; fold s in Hs; nra).
  assert (Hcpos : 0 < cell) by (fold s in Hs; lra).
  destruct (Mosaic_initMesh_grid v g) as [_ Hgrid].
  fold s cell cols rows in Hgrid. fold v' in Hgrid.
  split; [exact Hcell|]. split; [|split; [|split; [|split]]].
  - rewrite Hgrid. apply for_push_length.
  - rewrite Hgrid.
    apply (for_push_Forall (fun _ => True)); [|exact I].
    intros i g' _. split; [apply for_push_length | exact I].
  - unfold rows.
    assert (0 <= MosaicVisual.ceil
                   (BaseVisual.height (MosaicVisual.base v) / cell))%Z.
    { apply ceil_nonneg. unfold Rdiv. apply Rmult_le_pos; [exact Hh|].
      left. now apply Rinv_0_lt_compat. }
    lia.
  - unfold cols.
    assert (0 <= MosaicVisual.ceil
                   (BaseVisual.width (MosaicVisual.base v) / cell))%Z.
    { apply ceil_nonneg. unfold Rdiv. apply Rmult_le_pos; [exact Hw|].
      left. now apply Rinv_0_lt_compat. }
    lia.
  - reflexivity.
Qed.

Lemma Mosaic_mesh_is_rectangular_witness :
  let v := {| MosaicVisual.base := BaseVisual.mk 280 200 0 1;
              MosaicVisual.grid := [] |} in
  let g := const_source (1 / 2) in
  valid_source g /\
  (2 <= length (MosaicVisual.grid (fst (MosaicVisual.initMesh v g))))%nat.
Proof.
  intros v g.
  assert (Hg : valid_source g) by (intros n; unfold g, const_source; lra).
  split; [exact Hg|].
  destruct (Mosaic_mesh_is_rectangular v g Hg) as (_ & Hl & _ & Hr & _);
    try (simpl; lra).
  rewrite Hl. exact Hr.
Defined.

(** X3: in the mesh [initMesh] builds, the node at (row, col) has its base
    position within 22.5% of a cell of the grid point ((col - 1/2) * cell,
    (row - 1/2) * cell), and an amplitude between 4 and 14 times the scale;
    so the first column and row start left of and above the surface, and
    the last column and row lie beyond its right and bottom edges. *)
Theorem Mosaic_mesh_overhangs_surface
  (v : MosaicVisual.t) (g : RandomSource) :
  valid_source g ->
  0 < BaseVisual.scale (MosaicVisual.base v) ->
  0 <= BaseVisual.width (MosaicVisual.base v) ->
  0 <= BaseVisual.height (MosaicVisual.base v) ->
  let s := BaseVisual.scale (MosaicVisual.base v) in
  let cell := (36 + g 0%nat * 24) * s in
  let cols := Z.to_nat (MosaicVisual.ceil
                (BaseVisual.width (MosaicVisual.base v) / cell) + 2) in
  let rows := Z.to_nat (MosaicVisual.ceil
                (BaseVisual.height (MosaicVisual.base v) / cell) + 2) in
  forall (row col : nat) (r : list MosaicVisual.Node) (p : MosaicVisual.Node),
  nth_error (MosaicVisual.grid (fst (MosaicVisual.initMesh v g))) row = Some r ->
  nth_error r col = Some p ->
  (INR col - 0.725) * cell <= MosaicVisual.x0 p < (INR col - 0.275) * cell /\
  (INR row - 0.725) * cell <= MosaicVisual.y0 p < (INR row - 0.275) * cell /\
  4 * s <= MosaicVisual.amp p <= 14 * s /\
  (col = 0%nat -> MosaicVisual.x0 p < 0) /\
  (row = 0%nat -> MosaicVisual.y0 p < 0) /\
  (S col = cols -> BaseVisual.width (MosaicVisual.base v) < MosaicVisual.x0 p) /\
  (S row = rows -> BaseVisual.height (MosaicVisual.base v) < MosaicVisual.y0 p).
Proof.
  intros Hg Hs Hw Hh s cell cols rows row col r p Hrow Hcol.
  pose proof (Hg 0%nat) as H0.
  assert (Hcpos : 0 < cell) by (unfold cell; fold s in Hs; nra).
  destruct (Mosaic_initMesh_grid v g) as [_ Hgrid].
  fold s cell cols rows in Hgrid. rewrite Hgrid in Hrow.
  assert (Hg1 : valid_source (fun n => g (S n))) by (intros n; apply Hg).
  pose proof (for_push_nth valid_source
    (fun row r => forall col p, nth_error r col = Some p ->
       (INR col - 0.725) * cell <= MosaicVisual.x0 p < (INR col - 0.275) * cell /\
       (INR row - 0.725) * cell <= MosaicVisual.y0 p < (INR row - 0.275) * cell /\
       4 * s <= MosaicVisual.amp p <= 14 * s)
    (fun row => for_push cols 0
       (fun col => MosaicVisual.initNode s cell 0.45 row col))) as Houter.
  specialize (Houter ltac:(
    intros i g' Hg'; split;
    [ intros c q Hq;
      pose proof (for_push_nth valid_source
        (fun col p =>
           (INR col - 0.725) * cell <= MosaicVisual.x0 p < (INR col - 0.275) * cell /\
           (INR i - 0.725) * cell <= MosaicVisual.y0 p < (INR i - 0.275) * cell /\
           4 * s <= MosaicVisual.amp p <= 14 * s)
        (fun col => MosaicVisual.initNode s cell 0.45 i col)
        ltac:(intros j g'' Hg'';
              destruct (initNode_placed s cell i j g'' Hg'' Hcpos
                          (Rlt_le _ _ Hs)) as [(Hx & Hy & Ha & _) Hv];
              split; [repeat split; tauto | exact Hv])
        cols 0%nat g' Hg' c q Hq) as Hin;
      exact Hin
    | apply (for_push_Forall valid_source (fun _ => True));
      [ intros j g'' Hg''; split; [exact I|];
        apply (initNode_placed s cell i j g'' Hg'' Hcpos (Rlt_le _ _ Hs))
      | exact Hg' ] ])
    rows 0%nat _ Hg1 row r Hrow col p Hcol).
  simpl Nat.add in Houter. destruct Houter as (Hx & Hy & Ha).
  split; [exact Hx|]. split; [exact Hy|]. split; [exact Ha|].
  assert (Hlast : forall a (n : nat),
            0 <= a ->
            S n = Z.to_nat (MosaicVisual.ceil (a / cell) + 2) ->
            a + 0.275 * cell <= (INR n - 0.725) * cell).
  { intros a n Ha0 Hn.
    assert (Hc0 : (0 <= MosaicVisual.ceil (a / cell))%Z).
    { apply ceil_nonneg. unfold Rdiv. apply Rmult_le_pos; [exact Ha0|].
      left. now apply Rinv_0_lt_compat. }
    assert (Hn' : Z.of_nat n = (MosaicVisual.ceil (a / cell) + 1)%Z) by lia.
    rewrite INR_IZR_INZ, Hn', plus_IZR.
    pose proof (ceil_above (a / cell)) as Hca.
    assert (a = a / cell * cell) by (field; lra).
    nra. }
  repeat split.
  - intros ->. simpl in Hx. nra.
  - intros ->. simpl in Hy. nra.
  - intros Hc. pose proof (Hlast _ col Hw Hc). nra.
  - intros Hr. pose proof (Hlast _ row Hh Hr). nra.
Qed.

Lemma Mosaic_mesh_overhangs_surface_witness :
  let v := {| MosaicVisual.base := BaseVisual.mk 280 200 0 1;
              MosaicVisual.grid := [] |} in
  let g := const_source (1 / 2) in
  valid_source g /\
  forall r p,
    nth_error (MosaicVisual.grid (fst (MosaicVisual.initMesh v g))) 0 = Some r ->
    nth_error r 0 = Some p ->
    MosaicVisual.x0 p < 0 /\ MosaicVisual.y0 p < 0.
Proof.
  intros v g.
  assert (Hg : valid_source g) by (intros n; unfold g, const_source; lra).
  split; [exact Hg|]. intros r p Hr Hp.
  assert (H1 : 0 < BaseVisual.scale (MosaicVisual.base v)) by (simpl; lra).
  assert (H2 : 0 <= BaseVisual.width (MosaicVisual.base v)) by (simpl; lra).
  assert (H3 : 0 <= BaseVisual.height (MosaicVisual.base v)) by (simpl; lra).
  destruct (Mosaic_mesh_overhangs_surface v g Hg H1 H2 H3 0%nat 0%nat r p Hr Hp)
    as (_ & _ & _ & Hx & Hy & _).
  split; [now apply Hx | now apply Hy].
Defined.

Lemma Forall2_map_same {A} (Q : A -> A -> Prop) (f : A -> A) (l : list A) :
  (forall a, Q a (f a)) -> Forall2 Q l (map f l).
Proof. intros H. induction l; simpl; constructor; auto. Qed.

(** X4: [MosaicVisual.update] keeps the shape of the mesh and every node's
    base position, phases and amplitude; the drawn position of a node is
    never further than its amplitude from its base position, on either
    axis. *)
Theorem Mosaic_update_wobble_bounded (v : MosaicVisual.t) (g : RandomSource) :
  let v' := fst (MosaicVisual.update v g) in
  snd (MosaicVisual.update v g) = g /\
  BaseVisual.time (MosaicVisual.base v')
    = BaseVisual.time (MosaicVisual.base v) + 0.016 /\
  Forall2
    (Forall2 (fun p p' =>
       MosaicVisual.x0 p' = MosaicVisual.x0 p /\
       MosaicVisual.y0 p' = MosaicVisual.y0 p /\
       MosaicVisual.phase p' = MosaicVisual.phase p /\
       MosaicVisual.phaseY p' = MosaicVisual.phaseY p /\
       MosaicVisual.amp p' = MosaicVisual.amp p /\
       Rabs (MosaicVisual.x p' - MosaicVisual.x0 p') <= Rabs (MosaicVisual.amp p) /\
       Rabs (MosaicVisual.y p' - MosaicVisual.y0 p') <= Rabs (MosaicVisual.amp p)))
    (MosaicVisual.grid v) (MosaicVisual.grid v').
Proof.
  intros v'. split; [reflexivity|]. split; [reflexivity|].
  unfold v', MosaicVisual.update, ret. cbn [fst MosaicVisual.grid].
  apply Forall2_map_same. intros r. apply Forall2_map_same. intros p.
  unfold MosaicVisual.update_node.
  cbn [MosaicVisual.x0 MosaicVisual.y0 MosaicVisual.x MosaicVisual.y
       MosaicVisual.phase MosaicVisual.phaseY MosaicVisual.amp].
  repeat split.
  - match goal with |- Rabs (_ + _ * sin ?a * 1 - _) <= _ =>
      replace (MosaicVisual.x0 p + MosaicVisual.amp p * sin a * 1
               - MosaicVisual.x0 p) with (MosaicVisual.amp p * sin a) by ring;
      rewrite Rabs_mult;
      pose proof (SIN_bound a) as [Hlo Hhi];
      assert (Rabs (sin a) <= 1) by (apply Rabs_le; lra);
      pose proof (Rabs_pos (MosaicVisual.amp p)); nra
    end.
  - match goal with |- Rabs (_ + _ * cos ?a * 1 - _) <= _ =>
      replace (MosaicVisual.y0 p + MosaicVisual.amp p * cos a * 1
               - MosaicVisual.y0 p) with (MosaicVisual.amp p * cos a) by ring;
      rewrite Rabs_mult;
      pose proof (COS_bound a) as [Hlo Hhi];
      assert (Rabs (cos a) <= 1) by (apply Rabs_le; lra);
      pose proof (Rabs_pos (MosaicVisual.amp p)); nra
    end.
Qed.

Lemma drawTriangle_colours (v : MosaicVisual.t)
  (pts : MosaicVisual.Node * MosaicVisual.Node * MosaicVisual.Node)
  (hueOffset : R) (seed : nat) :
  0 <= hueOffset ->
  exists a b c hue sat light,
    MosaicVisual.drawTriangle v pts hueOffset seed
      = MosaicTriangle a b c hue sat light /\
    0 <= hue < 360 /\
    (sat = 70 \/ sat = 80 \/ sat = 90) /\
    40 <= light <= 65.
Proof.
  intros Hoff. destruct pts as [[a b] c].
  unfold MosaicVisual.drawTriangle.
  do 6 eexists. split; [reflexivity|]. split; [|split].
  - apply rem_range; [|lra].
    set (nx := Rmax 0 (Rmin 1 _)). set (ny := Rmax 0 (Rmin 1 _)).
    assert (0 <= nx) by apply Rmax_l.
    assert (0 <= ny) by apply Rmax_l.
    pose proof (pos_INR seed). nra.
  - assert (Hm : (seed mod 3 < 3)%nat) by (apply Nat.mod_upper_bound; lia).
    destruct (seed mod 3)%nat as [|[|[|k]]]; simpl; [left | right; left | right; right | lia]; lra.
  - match goal with |- context [sin ?a] => pose proof (SIN_bound a) end. lra.
Qed.

(** X5: on a rectangular mesh of [rows] by [cols] nodes, at a
    non-negative time, [MosaicVisual.render] paints the background and
    then two triangles per cell, 2*(rows-1)*(cols-1) in all, each with a
    hue in [0,360), a saturation of 70, 80 or 90 and a lightness in
    [40,65]. *)
Theorem Mosaic_render_triangles (v : MosaicVisual.t) (rows cols : nat) :
  0 <= BaseVisual.time (MosaicVisual.base v) ->
  length (MosaicVisual.grid v) = rows ->
  Forall (fun r => length r = cols) (MosaicVisual.grid v) ->
  exists triangles,
    snd (MosaicVisual.render v)
      = Fill 0 0 (BaseVisual.width (MosaicVisual.base v))
                 (BaseVisual.height (MosaicVisual.base v)) :: triangles /\
    length triangles = (2 * ((rows - 1) * (cols - 1)))%nat /\
    Forall (fun sh =>
              match sh with
              | MosaicTriangle _ _ _ hue sat light =>
                  0 <= hue < 360 /\ (sat = 70 \/ sat = 80 \/ sat = 90) /\
                  40 <= light <= 65
              | _ => False
              end) triangles.
Proof.
  intros Ht Hrows Hcols.
  unfold MosaicVisual.render. cbn [snd]. eexists. split; [reflexivity|].
  assert (Hrow : forall row, In row (seq 0 (rows - 1)) ->
            length (nth row (MosaicVisual.grid v) []) = cols).
  { intros row Hin. apply in_seq in Hin.
    rewrite Forall_forall in Hcols. apply Hcols. apply nth_In. lia. }
  rewrite Hrows. split.
  - rewrite (flat_map_length_const _ (2 * (cols - 1))%nat).
    + rewrite length_seq. lia.
    + intros row Hin. rewrite (Hrow row Hin).
      rewrite (flat_map_length_const _ 2%nat); [rewrite length_seq; lia|].
      intros col _. reflexivity.
  - rewrite Forall_forall. intros sh Hsh.
    apply in_flat_map in Hsh. destruct Hsh as (row & _ & Hsh).
    apply in_flat_map in Hsh. destruct Hsh as (col & _ & Hsh).
    assert (Hoff : 0 <= Js.rem (BaseVisual.time (MosaicVisual.base v) * 14) 360).
    { apply rem_range; lra. }
    unfold MosaicVisual.render_cell in Hsh.
    destruct Hsh as [E | [E | []]]; subst sh;
      match goal with |- context [MosaicVisual.drawTriangle ?v ?p ?o ?s] =>
        destruct (drawTriangle_colours v p o s Hoff)
          as (a & b & c & hue & sat & light & -> & H1 & H2 & H3)
      end; auto.
Qed.

Lemma Mosaic_render_triangles_witness :
  let n := MosaicVisual.no_node in
  let v := {| MosaicVisual.base := BaseVisual.mk 280 200 0 1;
              MosaicVisual.grid := [[n; n; n]; [n; n; n]] |} in
  0 <= BaseVisual.time (MosaicVisual.base v) /\
  length (MosaicVisual.grid v) = 2%nat /\
  Forall (fun r => length r = 3%nat) (MosaicVisual.grid v) /\
  length (snd (MosaicVisual.render v)) = 5%nat.
Proof.
  intros n v.
  assert (H1 : 0 <= BaseVisual.time (MosaicVisual.base v)) by (simpl; lra).
  assert (H2 : length (MosaicVisual.grid v) = 2%nat) by reflexivity.
  assert (H3 : Forall (fun r => length r = 3%nat) (MosaicVisual.grid v))
    by (repeat constructor).
  destruct (Mosaic_render_triangles v 2 3 H1 H2 H3) as (ts & E & Hl & _).
  split; [exact H1|]. split; [exact H2|]. split; [exact H3|].
  rewrite E. simpl. now rewrite Hl.
Defined.

(** ** Smoke *)

Lemma update_particle_post (b : BaseVisual.t) (p : SmokeVisual.Particle) g :
  valid_source g -> 0 <= BaseVisual.height b -> 0 <= BaseVisual.scale b ->
  (let p' := fst (SmokeVisual.update_particle b p g) in
   0.01 <= SmokeVisual.opacity p' /\
   - SmokeVisual.size p' <= SmokeVisual.y p' /\
   SmokeVisual.vx p' = SmokeVisual.vx p /\
   SmokeVisual.vy p' = SmokeVisual.vy p /\
   SmokeVisual.life p' = SmokeVisual.life p /\
   ((SmokeVisual.opacity p' = SmokeVisual.opacity p * 0.998 /\
     SmokeVisual.size p' = SmokeVisual.size p * 1.001 /\
     SmokeVisual.y p' = SmokeVisual.y p + SmokeVisual.vy p)
    \/
    (0.2 <= SmokeVisual.opacity p' < 0.5 /\
     BaseVisual.height b <= SmokeVisual.y p'
       <= BaseVisual.height b + 100 * BaseVisual.scale b /\
     20 * BaseVisual.scale b <= SmokeVisual.size p'
       <= 100 * BaseVisual.scale b))) /\
  valid_source (snd (SmokeVisual.update_particle b p g)).
Proof.
  intros Hg Hh Hs. unfold SmokeVisual.update_particle.
  pose proof (Hg 0%nat). pose proof (Hg 1%nat). pose proof (Hg 2%nat).
  pose proof (Hg 3%nat).
  destruct (Rlt_dec (SmokeVisual.y p + SmokeVisual.vy p)
                    (- (SmokeVisual.size p * 1.001))) as [Hy | Hy];
    destruct (Rlt_dec (SmokeVisual.opacity p * 0.998) 0.01) as [Ho | Ho];
    cbn [orb]; unfold bind, Math_random, ret; cbn;
    (split; [|try exact Hg; intros n; apply Hg]);
    (split; [nra|]); (split; [nra|]);
    (split; [reflexivity|]); (split; [reflexivity|]); (split; [reflexivity|]).
  1-3: right; repeat split; nra.
  left; repeat split; reflexivity.
Qed.

(** X6: after [SmokeVisual.update], on a surface of non-negative height,
    no particle is left faded (opacity below 0.01) or wholly above the top
    edge (y below -size): each one has either decayed (opacity * 0.998,
    size * 1.001, y moved by vy) or been recycled at the bottom with
    opacity in [0.2, 0.5) and a fresh size; the count, velocities and life
    phases are kept. *)
Theorem Smoke_update_recycles (v : SmokeVisual.t) (g : RandomSource) :
  valid_source g ->
  0 <= BaseVisual.height (SmokeVisual.base v) ->
  0 <= BaseVisual.scale (SmokeVisual.base v) ->
  let v' := fst (SmokeVisual.update v g) in
  let h := BaseVisual.height (SmokeVisual.base v) in
  let s := BaseVisual.scale (SmokeVisual.base v) in
  Forall2
    (fun p p' =>
       0.01 <= SmokeVisual.opacity p' /\
       - SmokeVisual.size p' <= SmokeVisual.y p' /\
       SmokeVisual.vx p' = SmokeVisual.vx p /\
       SmokeVisual.vy p' = SmokeVisual.vy p /\
       SmokeVisual.life p' = SmokeVisual.life p /\
       ((SmokeVisual.opacity p' = SmokeVisual.opacity p * 0.998 /\
         SmokeVisual.size p' = SmokeVisual.size p * 1.001 /\
         SmokeVisual.y p' = SmokeVisual.y p + SmokeVisual.vy p)
        \/
        (0.2 <= SmokeVisual.opacity p' < 0.5 /\
         h <= SmokeVisual.y p' <= h + 100 * s /\
         20 * s <= SmokeVisual.size p' <= 100 * s)))
    (SmokeVisual.particles v) (SmokeVisual.particles v') /\
  length (SmokeVisual.particles v') = length (SmokeVisual.particles v) /\
  valid_source (snd (SmokeVisual.update v g)).
Proof.
  intros Hg Hh Hs v' h s.
  unfold v', SmokeVisual.update, bind.
  pose proof (forEachM_Forall2 valid_source (fun _ => True)
    (fun p p' =>
       0.01 <= SmokeVisual.opacity p' /\
       - SmokeVisual.size p' <= SmokeVisual.y p' /\
       SmokeVisual.vx p' = SmokeVisual.vx p /\
       SmokeVisual.vy p' = SmokeVisual.vy p /\
       SmokeVisual.life p' = SmokeVisual.life p /\
       ((SmokeVisual.opacity p' = SmokeVisual.opacity p * 0.998 /\
         SmokeVisual.size p' = SmokeVisual.size p * 1.001 /\
         SmokeVisual.y p' = SmokeVisual.y p + SmokeVisual.vy p)
        \/
        (0.2 <= SmokeVisual.opacity p' < 0.5 /\
         h <= SmokeVisual.y p' <= h + 100 * s /\
         20 * s <= SmokeVisual.size p' <= 100 * s)))
    (SmokeVisual.update_particle (BaseVisual.update (SmokeVisual.base v)))
    ltac:(intros p g' Hg' _;
          apply (update_particle_post
                   (BaseVisual.update (SmokeVisual.base v)) p g' Hg' Hh Hs))
    (SmokeVisual.particles v) g Hg
    ltac:(rewrite Forall_forall; intros; exact I)) as [HF Hsrc].
  pose proof (forEachM_length
    (SmokeVisual.update_particle (BaseVisual.update (SmokeVisual.base v)))
    (SmokeVisual.particles v) g) as Hlen.
  destruct (forEachM _ (SmokeVisual.particles v) g) as [ps g1].
  unfold ret. cbn [fst snd SmokeVisual.particles] in *.
  split; [exact HF|]. split; [exact Hlen | exact Hsrc].
Qed.

Lemma Smoke_update_recycles_witness :
  let g := const_source (1 / 2) in
  let v := {| SmokeVisual.base := BaseVisual.mk 280 200 0 1;
              SmokeVisual.particles :=
                [SmokeVisual.mkParticle 10 (-50) 0 (-1) 20 0.3 0] |} in
  valid_source g /\
  Forall (fun p => 0.01 <= SmokeVisual.opacity p /\
                   - SmokeVisual.size p <= SmokeVisual.y p)
         (SmokeVisual.particles (fst (SmokeVisual.update v g))).
Proof.
  intros g v.
  assert (Hg : valid_source g) by (intros n; unfold g, const_source; lra).
  assert (H1 : 0 <= BaseVisual.height (SmokeVisual.base v)) by (simpl; lra).
  assert (H2 : 0 <= BaseVisual.scale (SmokeVisual.base v)) by (simpl; lra).
  destruct (Smoke_update_recycles v g Hg H1 H2) as (HF & _ & _).
  split; [exact Hg|].
  revert HF. generalize (SmokeVisual.particles (fst (SmokeVisual.update v g))).
  generalize (SmokeVisual.particles v).
  induction 1 as [|p p' l l' Hp _ IH]; constructor; [tauto | exact IH].
Defined.

Lemma Smoke_lifecycle_invariant (P : SmokeVisual.Particle -> Prop) :
  (forall v i g, valid_source g -> P (fst (SmokeVisual.newParticle v i g))) ->
  (forall b p g, valid_source g -> P p ->
                 P (fst (SmokeVisual.update_particle b p g))) ->
  forall cs v g, valid_source g ->
    Forall P (SmokeVisual.particles v) ->
    (50 <= length (SmokeVisual.particles v))%nat ->
    let v' := fst (lifecycle SmokeVisual.update SmokeVisual.resize cs v g) in
    Forall P (SmokeVisual.particles v') /\
    (50 <= length (SmokeVisual.particles v'))%nat.
Proof.
  intros Hnew Hupd.
  assert (Hsrc_new : forall v i g, valid_source g ->
            valid_source (snd (SmokeVisual.newParticle v i g))).
  { intros v i g Hg. unfold SmokeVisual.newParticle, bind, Math_random, ret.
    cbn. intros n. apply Hg. }
  assert (Hsrc_upd : forall b p g, valid_source g ->
            valid_source (snd (SmokeVisual.update_particle b p g))).
  { intros b p g Hg. unfold SmokeVisual.update_particle.
    destruct (orb _ _); unfold bind, Math_random, ret; cbn;
      [intros n; apply Hg | exact Hg]. }
  induction cs as [|c cs IH]; intros v g Hg Hv Hlen; cbn zeta.
  - split; assumption.
  - destruct c as [|w h]; cbn [lifecycle]; unfold bind.
    + unfold SmokeVisual.update at 1 3, bind.
      destruct (forEachM_Forall_source valid_source P P
                  (SmokeVisual.update_particle
                     (BaseVisual.update (SmokeVisual.base v)))
                  ltac:(intros p g' Hg' Hp; split;
                        [now apply Hupd | now apply Hsrc_upd])
                  (SmokeVisual.particles v) g Hg Hv) as [HF Hs].
      pose proof (forEachM_length
        (SmokeVisual.update_particle (BaseVisual.update (SmokeVisual.base v)))
        (SmokeVisual.particles v) g) as Hl.
      destruct (forEachM _ (SmokeVisual.particles v) g) as [ps g1].
      unfold ret. cbn [fst snd] in *.
      apply IH; cbn [SmokeVisual.particles]; [assumption | assumption | lia].
    + unfold SmokeVisual.resize at 1 3, SmokeVisual.initParticles, bind.
      cbn [SmokeVisual.base SmokeVisual.particles].
      destruct (for_push_Forall valid_source P
                  (SmokeVisual.newParticle
                     {| SmokeVisual.base :=
                          BaseVisual.resize w h (SmokeVisual.base v);
                        SmokeVisual.particles := SmokeVisual.particles v |})
                  ltac:(intros i g' Hg'; split;
                        [now apply Hnew | now apply Hsrc_new])
                  (Z.to_nat (SmokeVisual.particleCount
                     (BaseVisual.scale
                        (BaseVisual.resize w h (SmokeVisual.base v)))))
                  0%nat g Hg) as [HF Hs].
      destruct (for_push _ 0 _ g) as [ps g1].
      unfold ret. cbn [fst snd] in *.
      apply IH; cbn [SmokeVisual.particles];
        [assumption | apply Forall_app; split; assumption
        | rewrite length_app; lia].
Qed.

(** X7: on a Smoke instance reached from the constructor by any updates
    and resizes, every particle has an opacity in [0.01, 0.5), rises (vy in
    (-2, -0.5]), drifts sideways by less than a quarter pixel per frame
    (vx in [-0.25, 0.25)) and has a life phase in [0,1); there are never
    fewer than 50 particles. *)
Theorem Smoke_particles_keep_ranges
  (cw ch : R) (cs : list Call) (g : RandomSource) :
  valid_source g ->
  let start := SmokeVisual.new cw ch g in
  let v := fst (lifecycle SmokeVisual.update SmokeVisual.resize cs
                          (fst start) (snd start)) in
  Forall (fun p =>
            0.01 <= SmokeVisual.opacity p < 0.5 /\
            - 2 < SmokeVisual.vy p <= - 0.5 /\
            - 0.25 <= SmokeVisual.vx p < 0.25 /\
            0 <= SmokeVisual.life p < 1)
         (SmokeVisual.particles v) /\
  (50 <= length (SmokeVisual.particles v))%nat.
Proof.
  intros Hg start v.
  set (P := fun p =>
            0.01 <= SmokeVisual.opacity p < 0.5 /\
            - 2 < SmokeVisual.vy p <= - 0.5 /\
            - 0.25 <= SmokeVisual.vx p < 0.25 /\
            0 <= SmokeVisual.life p < 1).
  assert (Hnew : forall v i g, valid_source g ->
            P (fst (SmokeVisual.newParticle v i g))).
  { intros v0 i g0 Hg0. unfold SmokeVisual.newParticle, bind, Math_random, ret.
    cbn. unfold P. cbn.
    pose proof (Hg0 2%nat). pose proof (Hg0 3%nat). pose proof (Hg0 5%nat).
    pose proof (Hg0 6%nat). lra. }
  assert (Hupd : forall b p g, valid_source g -> P p ->
            P (fst (SmokeVisual.update_particle b p g))).
  { intros b p g0 Hg0 (Ho & Hvy & Hvx & Hl).
    unfold SmokeVisual.update_particle.
    pose proof (Hg0 2%nat).
    destruct (Rlt_dec (SmokeVisual.y p + SmokeVisual.vy p)
                      (- (SmokeVisual.size p * 1.001)));
      destruct (Rlt_dec (SmokeVisual.opacity p * 0.998) 0.01);
      cbn [orb]; unfold bind, Math_random, ret, P; cbn; lra. }
  assert (Hsrc_new : forall v i g, valid_source g ->
            valid_source (snd (SmokeVisual.newParticle v i g))).
  { intros v0 i g0 Hg0. unfold SmokeVisual.newParticle, bind, Math_random, ret.
    cbn. intros n. apply Hg0. }
  unfold v, start, SmokeVisual.new, SmokeVisual.initParticles, bind.
  cbn [SmokeVisual.base SmokeVisual.particles app].
  destruct (for_push_Forall valid_source P
              (SmokeVisual.newParticle
                 {| SmokeVisual.base := BaseVisual.new cw ch;
                    SmokeVisual.particles := [] |})
              ltac:(intros i g' Hg'; split;
                    [now apply Hnew | now apply Hsrc_new])
              (Z.to_nat (SmokeVisual.particleCount
                 (BaseVisual.scale (BaseVisual.new cw ch))))
              0%nat g Hg) as [HF Hs].
  pose proof (for_push_length
    (Z.to_nat (SmokeVisual.particleCount
       (BaseVisual.scale (BaseVisual.new cw ch))))
    0 (SmokeVisual.newParticle
         {| SmokeVisual.base := BaseVisual.new cw ch;
            SmokeVisual.particles := [] |}) g) as Hl.
  destruct (for_push _ 0 _ g) as [ps g1].
  unfold ret. cbn [fst snd] in *.
  apply (Smoke_lifecycle_invariant P Hnew Hupd cs); cbn [SmokeVisual.particles].
  - exact Hs.
  - exact HF.
  - rewrite Hl.
    pose proof (particleCount_bounds (BaseVisual.scale (BaseVisual.new cw ch))).
    lia.
Qed.

Lemma Smoke_particles_keep_ranges_witness :
  let g := const_source (1 / 2) in
  let cs := [call_update; call_resize 70 50; call_update] in
  let start := SmokeVisual.new 280 200 g in
  let v := fst (lifecycle SmokeVisual.update SmokeVisual.resize cs
                          (fst start) (snd start)) in
  valid_source g /\ (50 <= length (SmokeVisual.particles v))%nat.
Proof.
  intros g cs start v.
  assert (Hg : valid_source g) by (intros n; unfold g, const_source; lra).
  split; [exact Hg|].
  exact (proj2 (Smoke_particles_keep_ranges 280 200 cs g Hg)).
Defined.

(** ** Light and shade *)

Lemma LightShade_lifecycle_count (cs : list Call) (v : LightShadeVisual.t) g :
  let v' := fst (lifecycle LightShadeVisual.update LightShadeVisual.resize
                           cs v g) in
  (length (LightShadeVisual.lights v) + 5 * (length cs - updates_in cs)
   <= length (LightShadeVisual.lights v')
   <= length (LightShadeVisual.lights v) + 12 * (length cs - updates_in cs))%nat.
Proof.
  revert v g. induction cs as [|c cs IH]; intros v g; cbn zeta.
  - simpl. lia.
  - assert (Hu : (updates_in cs <= length cs)%nat).
    { clear. induction cs as [|[|w h] cs IHc]; simpl; lia. }
    destruct c as [|w h]; cbn [lifecycle]; unfold bind.
    + unfold LightShadeVisual.update at 1 3, ret.
      specialize (IH {| LightShadeVisual.base :=
                          BaseVisual.update (LightShadeVisual.base v);
                        LightShadeVisual.lights :=
                          map (LightShadeVisual.update_light
                                 (BaseVisual.update (LightShadeVisual.base v)))
                              (LightShadeVisual.lights v) |} g).
      cbn zeta in IH. cbn [LightShadeVisual.lights] in IH.
      rewrite length_map in IH. simpl length. simpl updates_in. lia.
    + destruct (LightShade_resize_appends w h v g) as (fresh & Hp & Hl).
      pose proof (lightCount_bounds (visualScale w h)) as Hb.
      destruct (LightShadeVisual.resize w h v g) as [v1 g1].
      cbn [fst] in Hp. specialize (IH v1 g1). cbn zeta in IH.
      rewrite Hp, length_app, Hl in IH.
      simpl length. simpl updates_in. lia.
Qed.

(** X8: [LightShadeVisual.resize] keeps every light it finds, in order,
    and appends between 5 and 12 new ones; so after construction and any
    calls with k resizes among them the instance holds between 5*(k+1) and
    12*(k+1) lights. *)
Theorem LightShade_resize_accumulates
  (cw ch : R) (cs : list Call) (w h : R) (g : RandomSource) :
  let start := LightShadeVisual.new cw ch g in
  let before := lifecycle LightShadeVisual.update LightShadeVisual.resize cs
                          (fst start) (snd start) in
  let v := fst before in
  let v' := fst (LightShadeVisual.resize w h v (snd before)) in
  let k := (length cs - updates_in cs)%nat in
  (5 * (k + 1) <= length (LightShadeVisual.lights v) <= 12 * (k + 1))%nat /\
  (exists fresh,
     LightShadeVisual.lights v' = LightShadeVisual.lights v ++ fresh /\
     (5 <= length fresh <= 12)%nat /\
     length fresh = Z.to_nat (LightShadeVisual.lightCount (visualScale w h))).
Proof.
  intros start before v v' k. split.
  - pose proof (LightShade_lifecycle_count cs (fst start) (snd start)) as Hc.
    cbn zeta in Hc. fold before in Hc. fold v in Hc. fold k in Hc.
    unfold start in Hc. rewrite LightShade_new_length in Hc.
    pose proof (lightCount_bounds (visualScale cw ch)). lia.
  - destruct (LightShade_resize_appends w h v (snd before))
      as (fresh & Hp & Hl).
    exists fresh. split; [exact Hp|]. split; [|exact Hl].
    pose proof (lightCount_bounds (visualScale w h)). lia.
Qed.

Lemma update_light_contained (b : BaseVisual.t) (l : LightShadeVisual.Light) :
  let w := BaseVisual.width b in
  let h := BaseVisual.height b in
  let J := fun l =>
    0 <= LightShadeVisual.hue l < 360 /\
    -1 <= LightShadeVisual.speedX l <= 1 /\
    -1 <= LightShadeVisual.speedY l <= 1 /\
    (0 <= LightShadeVisual.x l <= w \/
     0 <= LightShadeVisual.x l + LightShadeVisual.speedX l <= w) /\
    (0 <= LightShadeVisual.y l <= h \/
     0 <= LightShadeVisual.y l + LightShadeVisual.speedY l <= h) in
  J l -> J (LightShadeVisual.update_light b l).
Proof.
  intros w h J (Hhue & Hsx & Hsy & Hx & Hy). unfold J.
  unfold LightShadeVisual.update_light, LightShadeVisual.outside.
  cbn [LightShadeVisual.hue LightShadeVisual.speedX LightShadeVisual.speedY
       LightShadeVisual.x LightShadeVisual.y].
  fold w. fold h.
  split; [apply rem_range; lra|].
  destruct (Rlt_dec (LightShadeVisual.x l + LightShadeVisual.speedX l) 0);
    destruct (Rgt_dec (LightShadeVisual.x l + LightShadeVisual.speedX l) w);
    destruct (Rlt_dec (LightShadeVisual.y l + LightShadeVisual.speedY l) 0);
    destruct (Rgt_dec (LightShadeVisual.y l + LightShadeVisual.speedY l) h);
    cbn [orb]; lra.
Qed.

Lemma LightShade_ticks_lights (n : nat) (v : LightShadeVisual.t) g :
  BaseVisual.width (LightShadeVisual.base
     (fst (ticks LightShadeVisual.update n v g)))
    = BaseVisual.width (LightShadeVisual.base v) /\
  BaseVisual.height (LightShadeVisual.base
     (fst (ticks LightShadeVisual.update n v g)))
    = BaseVisual.height (LightShadeVisual.base v) /\
  forall J : LightShadeVisual.Light -> Prop,
    (forall b l,
        BaseVisual.width b = BaseVisual.width (LightShadeVisual.base v) ->
        BaseVisual.height b = BaseVisual.height (LightShadeVisual.base v) ->
        J l -> J (LightShadeVisual.update_light b l)) ->
    Forall J (LightShadeVisual.lights v) ->
    Forall J (LightShadeVisual.lights
                (fst (ticks LightShadeVisual.update n v g))).
Proof.
  revert v g. induction n as [|n IH]; intros v g.
  - simpl. repeat split; auto.
  - cbn [ticks]. unfold bind, LightShadeVisual.update at 1 3 5, ret.
    specialize (IH {| LightShadeVisual.base :=
                        BaseVisual.update (LightShadeVisual.base v);
                      LightShadeVisual.lights :=
                        map (LightShadeVisual.update_light
                               (BaseVisual.update (LightShadeVisual.base v)))
                            (LightShadeVisual.lights v) |} g).
    destruct IH as (Hw & Hh & HJ).
    split; [exact Hw|]. split; [exact Hh|].
    intros J Hstep Hall. apply HJ.
    + intros b l Hbw Hbh. apply Hstep; assumption.
    + cbn [LightShadeVisual.lights]. rewrite Forall_map.
      eapply Forall_impl; [|exact Hall].
      intros l Hl. apply Hstep; [reflexivity | reflexivity | exact Hl].
Qed.

(** X9: between construction and the first resize the lights bounce
    inside the surface: after any number of updates every light is at most
    one pixel outside it on either axis, moves at most one pixel per frame
    on either axis, and has a hue in [0,360). *)
Theorem LightShade_lights_stay_near_surface
  (cw ch : R) (n : nat) (g : RandomSource) :
  valid_source g -> 0 <= cw -> 0 <= ch ->
  let start := LightShadeVisual.new cw ch g in
  let v := fst (ticks LightShadeVisual.update n (fst start) (snd start)) in
  Forall (fun l =>
            -1 <= LightShadeVisual.x l <= cw + 1 /\
            -1 <= LightShadeVisual.y l <= ch + 1 /\
            -1 <= LightShadeVisual.speedX l <= 1 /\
            -1 <= LightShadeVisual.speedY l <= 1 /\
            0 <= LightShadeVisual.hue l < 360)
         (LightShadeVisual.lights v).
Proof.
  intros Hg Hw Hh start v.
  set (J := fun l =>
    0 <= LightShadeVisual.hue l < 360 /\
    -1 <= LightShadeVisual.speedX l <= 1 /\
    -1 <= LightShadeVisual.speedY l <= 1 /\
    (0 <= LightShadeVisual.x l <= cw \/
     0 <= LightShadeVisual.x l + LightShadeVisual.speedX l <= cw) /\
    (0 <= LightShadeVisual.y l <= ch \/
     0 <= LightShadeVisual.y l + LightShadeVisual.speedY l <= ch)).
  assert (Hbase : LightShadeVisual.base (fst start) = BaseVisual.new cw ch
                  /\ Forall J (LightShadeVisual.lights (fst start))).
  { unfold start, LightShadeVisual.new, LightShadeVisual.initLights, bind.
    cbn [LightShadeVisual.base LightShadeVisual.lights app].
    destruct (for_push_Forall valid_source J
                (LightShadeVisual.newLight
                   {| LightShadeVisual.base := BaseVisual.new cw ch;
                      LightShadeVisual.lights := [] |})
                ltac:(intros i g' Hg';
                      unfold LightShadeVisual.newLight, bind, Math_random, ret;
                      cbn; split; [|intros k; apply Hg'];
                      pose proof (Hg' 0%nat); pose proof (Hg' 1%nat);
                      pose proof (Hg' 3%nat); pose proof (Hg' 4%nat);
                      pose proof (Hg' 5%nat);
                      unfold J; cbn; repeat split; try lra;
                      left; split; nra)
                (Z.to_nat (LightShadeVisual.lightCount
                   (BaseVisual.scale (BaseVisual.new cw ch))))
                0%nat g Hg) as [HF _].
    destruct (for_push _ 0 _ g) as [ls g1]. unfold ret. cbn [fst] in *.
    split; [reflexivity | exact HF]. }
  destruct Hbase as [Hb HJ0].
  destruct (LightShade_ticks_lights n (fst start) (snd start))
    as (_ & _ & Hinv).
  fold v in Hinv. specialize (Hinv J).
  eapply Forall_impl; [|apply Hinv].
  - intros l (Hhue & Hsx & Hsy & Hx & Hy). repeat split; lra.
  - intros b l Hbw Hbh Hl. rewrite Hb in Hbw, Hbh. cbn in Hbw, Hbh.
    pose proof (update_light_contained b l) as Hstep. cbn zeta in Hstep.
    rewrite Hbw, Hbh in Hstep. apply Hstep. exact Hl.
  - exact HJ0.
Qed.

Lemma LightShade_lights_stay_near_surface_witness :
  let g := const_source (1 / 2) in
  let start := LightShadeVisual.new 280 200 g in
  let v := fst (ticks LightShadeVisual.update 3 (fst start) (snd start)) in
  valid_source g /\ 0 <= 280 /\ 0 <= 200 /\
  Forall (fun l => -1 <= LightShadeVisual.x l <= 280 + 1)
         (LightShadeVisual.lights v).
Proof.
  intros g start v.
  assert (Hg : valid_source g) by (intros n; unfold g, const_source; lra).
  assert (H1 : 0 <= 280) by lra. assert (H2 : 0 <= 200) by lra.
  split; [exact Hg|]. split; [exact H1|]. split; [exact H2|].
  eapply Forall_impl;
    [|exact (LightShade_lights_stay_near_surface 280 200 3 g Hg H1 H2)].
  intros l Hl. apply Hl.
Defined.

(** ** Lanterns *)

Lemma Lanterns_new_obstructions (cw ch : R) g :
  exists g1,
    LanternsVisual.obstructions (fst (LanternsVisual.new cw ch g))
      = fst (for_push 5 0 LanternsVisual.newBranch g1) /\
    (valid_source g -> valid_source g1).
Proof.
  unfold LanternsVisual.new, LanternsVisual.initLanterns,
    LanternsVisual.initObstructions, bind. simpl.
  pose proof (for_push_Forall valid_source (fun _ => True)
    (LanternsVisual.newLantern
       {| LanternsVisual.base := BaseVisual.new cw ch;
          LanternsVisual.lanterns := [];
          LanternsVisual.obstructions := [] |})
    ltac:(intros i g' Hg'; split; [exact I|];
          unfold LanternsVisual.newLantern, bind, Math_random, ret; cbn;
          intros n; apply Hg')
    (Z.to_nat (LanternsVisual.lanternCount (visualScale cw ch))) 0%nat g)
    as Hsrc.
  destruct (for_push _ 0 (LanternsVisual.newLantern _) g) as [ls g1].
  exists g1. cbn [fst snd] in *.
  destruct (for_push 5 0 LanternsVisual.newBranch g1) as [obs g2].
  split; [reflexivity|]. intros Hg. now apply Hsrc.
Qed.

(** X10: the Lanterns constructor builds min(14, max(5, floor(6*scale)))
    lanterns, between 5 and 14, each inside the surface with a radius
    between 16.24 and 38.28 times the scale and a non-negative float
    speed, and exactly five branches, of depths 0.22, 0.48, 0.58, 0.72 and
    0.35 in that order and widths in [4, 9). *)
Theorem Lanterns_constructor_layout (cw ch : R) (g : RandomSource) :
  valid_source g -> 0 <= cw -> 0 <= ch ->
  let v := fst (LanternsVisual.new cw ch g) in
  let s := visualScale cw ch in
  length (LanternsVisual.lanterns v)
    = Z.to_nat (Z.min 14 (Z.max 5 (Js.floor (6 * s)))) /\
  (5 <= length (LanternsVisual.lanterns v) <= 14)%nat /\
  Forall (fun l =>
            0 <= LanternsVisual.x l <= cw /\ 0 <= LanternsVisual.y l <= ch /\
            16.24 * s <= LanternsVisual.radius l <= 38.28 * s /\
            0.004 * s <= LanternsVisual.floatSpeed l <= 0.013 * s)
         (LanternsVisual.lanterns v) /\
  map LanternsVisual.ob_depth (LanternsVisual.obstructions v)
    = [0.22; 0.48; 0.58; 0.72; 0.35] /\
  map LanternsVisual.ob_path (LanternsVisual.obstructions v)
    = [0; 1; 2; 3; 4]%nat /\
  Forall (fun o => 4 <= LanternsVisual.ob_width o < 9)
         (LanternsVisual.obstructions v).
Proof.
  intros Hg Hw Hh v s.
  destruct (Lanterns_new_fields cw ch g) as [_ Hl].
  destruct (Lanterns_new_obstructions cw ch g) as (g1 & Ho & Hg1).
  fold v in Hl, Ho. specialize (Hg1 Hg).
  pose proof (visualScale_nonneg cw ch) as Hs. fold s in Hs.
  split; [|split; [|split; [|split; [|split]]]].
  - rewrite Hl. apply for_push_length.
  - rewrite Hl, for_push_length. unfold LanternsVisual.lanternCount. lia.
  - rewrite Hl. apply (for_push_Forall valid_source); [|exact Hg].
    intros i g' Hg'.
    unfold LanternsVisual.newLantern, bind, Math_random, ret. cbn.
    fold s. split; [|intros n; apply Hg'].
    pose proof (Hg' 0%nat). pose proof (Hg' 1%nat). pose proof (Hg' 2%nat).
    pose proof (Hg' 5%nat). repeat split; nra.
  - rewrite Ho. reflexivity.
  - rewrite Ho. reflexivity.
  - rewrite Ho. apply (for_push_Forall valid_source); [|exact Hg1].
    intros i g' Hg'. unfold LanternsVisual.newBranch, bind, Math_random, ret.
    cbn. split; [|intros n; apply Hg']. pose proof (Hg' 0%nat). lra.
Qed.

Lemma Lanterns_constructor_layout_witness :
  let g := const_source (1 / 2) in
  valid_source g /\ 0 <= 280 /\ 0 <= 200 /\
  (5 <= length (LanternsVisual.lanterns (fst (LanternsVisual.new 280 200 g)))
   <= 14)%nat.
Proof.
  intros g.
  assert (Hg : valid_source g) by (intros n; unfold g, const_source; lra).
  assert (H1 : 0 <= 280) by lra. assert (H2 : 0 <= 200) by lra.
  split; [exact Hg|]. split; [exact H1|]. split; [exact H2|].
  exact (proj1 (proj2 (Lanterns_constructor_layout 280 200 g Hg H1 H2))).
Defined.

Lemma update_lantern_range (b : BaseVisual.t) (l : LanternsVisual.Lantern) g :
  let J := fun l : LanternsVisual.Lantern =>
    0 <= LanternsVisual.radius l /\ 0 <= LanternsVisual.floatSpeed l /\
    - (3 * LanternsVisual.radius l) <= LanternsVisual.y l
      <= BaseVisual.height b + 2 * LanternsVisual.radius l in
  valid_source g -> J l ->
  (let l' := fst (LanternsVisual.update_lantern b l g) in
   J l' /\
   LanternsVisual.radius l' = LanternsVisual.radius l /\
   LanternsVisual.floatSpeed l' = LanternsVisual.floatSpeed l /\
   (LanternsVisual.y l' = LanternsVisual.y l - LanternsVisual.floatSpeed l \/
    LanternsVisual.y l'
      = BaseVisual.height b + 2 * LanternsVisual.radius l)) /\
  valid_source (snd (LanternsVisual.update_lantern b l g)).
Proof.
  intros J Hg (Hr & Hf & Hy). unfold J, LanternsVisual.update_lantern.
  destruct (Rlt_dec (LanternsVisual.y l - LanternsVisual.floatSpeed l)
                    (- LanternsVisual.radius l * 3)) as [Hlt | Hge];
    unfold bind, Math_random, ret; cbn.
  - split; [|intros n; apply Hg]. repeat split; lra.
  - split; [|exact Hg]. repeat split; lra.
Qed.

Lemma Lanterns_ticks_range (hh : R) (n : nat) (v : LanternsVisual.t) g :
  let J := fun l : LanternsVisual.Lantern =>
    0 <= LanternsVisual.radius l /\ 0 <= LanternsVisual.floatSpeed l /\
    - (3 * LanternsVisual.radius l) <= LanternsVisual.y l
      <= hh + 2 * LanternsVisual.radius l in
  valid_source g ->
  BaseVisual.height (LanternsVisual.base v) = hh ->
  Forall J (LanternsVisual.lanterns v) ->
  let v' := fst (ticks LanternsVisual.update n v g) in
  Forall J (LanternsVisual.lanterns v') /\
  map LanternsVisual.radius (LanternsVisual.lanterns v')
    = map LanternsVisual.radius (LanternsVisual.lanterns v) /\
  LanternsVisual.obstructions v' = LanternsVisual.obstructions v.
Proof.
  intros J. revert v g. induction n as [|n IH]; intros v g Hg Hh Hall; cbn zeta.
  - simpl. auto.
  - cbn [ticks]. unfold bind, LanternsVisual.update at 1 3 5, bind.
    pose proof (forEachM_Forall2 valid_source J
      (fun l l' => J l' /\ LanternsVisual.radius l' = LanternsVisual.radius l)
      (LanternsVisual.update_lantern (BaseVisual.update (LanternsVisual.base v)))
      ltac:(intros l g' Hg' Hl;
            pose proof (update_lantern_range
                          (BaseVisual.update (LanternsVisual.base v)) l g') as U;
            cbn zeta in U;
            change (BaseVisual.height (BaseVisual.update (LanternsVisual.base v)))
              with (BaseVisual.height (LanternsVisual.base v)) in U;
            rewrite Hh in U;
            destruct (U Hg' Hl) as [(HJ & Hr & _) Hv];
            split; [split; assumption | exact Hv])
      (LanternsVisual.lanterns v) g Hg Hall) as [HF Hsrc].
    destruct (forEachM _ (LanternsVisual.lanterns v) g) as [ls g1].
    unfold ret. cbn [fst snd] in *.
    specialize (IH {| LanternsVisual.base :=
                        BaseVisual.update (LanternsVisual.base v);
                      LanternsVisual.lanterns := ls;
                      LanternsVisual.obstructions :=
                        LanternsVisual.obstructions v |} g1 Hsrc Hh).
    cbn zeta in IH. cbn [LanternsVisual.lanterns LanternsVisual.obstructions] in IH.
    assert (HJls : Forall J ls).
    { clear -HF. induction HF as [|a b l l' [Hb _] _ IHF]; constructor; auto. }
    destruct (IH HJls) as (H1 & H2 & H3).
    split; [exact H1|]. split; [|exact H3].
    rewrite H2. clear -HF.
    induction HF as [|a b l l' [_ Hr] _ IHF]; simpl; [reflexivity|].
    now rewrite Hr, IHF.
Qed.

(** X11: between construction and the first resize a lantern never
    leaves the band it floats in: after any number of updates its y lies
    between -3*radius (where it is sent back to the bottom) and height +
    2*radius (where it re-enters); the lanterns keep their radii and the
    branches are untouched. *)
Theorem Lanterns_float_band (cw ch : R) (n : nat) (g : RandomSource) :
  valid_source g -> 0 <= cw -> 0 <= ch ->
  let start := LanternsVisual.new cw ch g in
  let v := fst (ticks LanternsVisual.update n (fst start) (snd start)) in
  Forall (fun l =>
            - (3 * LanternsVisual.radius l) <= LanternsVisual.y l
              <= ch + 2 * LanternsVisual.radius l)
         (LanternsVisual.lanterns v) /\
  map LanternsVisual.radius (LanternsVisual.lanterns v)
    = map LanternsVisual.radius (LanternsVisual.lanterns (fst start)) /\
  LanternsVisual.obstructions v = LanternsVisual.obstructions (fst start).
Proof.
  intros Hg Hw Hh start v.
  pose proof (visualScale_nonneg cw ch) as Hs.
  destruct (Lanterns_new_fields cw ch g) as [Hb Hl].
  assert (Hsrc : valid_source (snd start)).
  { unfold start, LanternsVisual.new, LanternsVisual.initLanterns,
      LanternsVisual.initObstructions, bind. simpl.
    pose proof (for_push_Forall valid_source (fun _ => True)
      (LanternsVisual.newLantern
         {| LanternsVisual.base := BaseVisual.new cw ch;
            LanternsVisual.lanterns := [];
            LanternsVisual.obstructions := [] |})
      ltac:(intros i g' Hg'; split; [exact I|];
            unfold LanternsVisual.newLantern, bind, Math_random, ret; cbn;
            intros k; apply Hg')
      (Z.to_nat (LanternsVisual.lanternCount (visualScale cw ch))) 0%nat g Hg)
      as [_ H1].
    destruct (for_push _ 0 (LanternsVisual.newLantern _) g) as [ls g1].
    cbn [snd] in H1.
    unfold ret. cbn. intros k. apply H1. }
  assert (Hinit : Forall (fun l : LanternsVisual.Lantern =>
            0 <= LanternsVisual.radius l /\ 0 <= LanternsVisual.floatSpeed l /\
            - (3 * LanternsVisual.radius l) <= LanternsVisual.y l
              <= ch + 2 * LanternsVisual.radius l)
            (LanternsVisual.lanterns (fst start))).
  { unfold start. rewrite Hl.
    apply (for_push_Forall valid_source); [|exact Hg].
    intros i g' Hg'.
    unfold LanternsVisual.newLantern, bind, Math_random, ret. cbn.
    split; [|intros k; apply Hg'].
    pose proof (Hg' 1%nat). pose proof (Hg' 2%nat). pose proof (Hg' 5%nat).
    repeat split; nra. }
  assert (Hheight : BaseVisual.height (LanternsVisual.base (fst start)) = ch).
  { unfold start. rewrite Hb. reflexivity. }
  destruct (Lanterns_ticks_range ch n (fst start) (snd start) Hsrc Hheight Hinit)
    as (H1 & H2 & H3).
  fold v in H1, H2, H3.
  split; [|split; assumption].
  eapply Forall_impl; [|exact H1]. intros l (_ & _ & Hy). exact Hy.
Qed.

Lemma Lanterns_float_band_witness :
  let g := const_source (1 / 2) in
  let start := LanternsVisual.new 280 200 g in
  let v := fst (ticks LanternsVisual.update 10 (fst start) (snd start)) in
  valid_source g /\ 0 <= 280 /\ 0 <= 200 /\
  Forall (fun l =>
            - (3 * LanternsVisual.radius l) <= LanternsVisual.y l
              <= 200 + 2 * LanternsVisual.radius l)
         (LanternsVisual.lanterns v).
Proof.
  intros g start v.
  assert (Hg : valid_source g) by (intros n; unfold g, const_source; lra).
  assert (H1 : 0 <= 280) by lra. assert (H2 : 0 <= 200) by lra.
  split; [exact Hg|]. split; [exact H1|]. split; [exact H2|].
  exact (proj1 (Lanterns_float_band 280 200 10 g Hg H1 H2)).
Defined.

Lemma Lanterns_in_from_branch (ds : list LanternsVisual.Drawable)
  (d : LanternsVisual.Drawable) (o : LanternsVisual.Obstruction) :
  In d ds -> LanternsVisual.item d = LanternsVisual.ob o ->
  In d (LanternsVisual.from_branch ds).
Proof.
  intros Hd E. rewrite (Lanterns_leading_from_branch ds) in Hd.
  apply in_app_or in Hd. destruct Hd as [Hd | Hd]; [|exact Hd].
  pose proof (Lanterns_leading_lanterns ds) as Hl.
  rewrite Forall_forall in Hl. destruct (Hl d Hd) as (l & El).
  rewrite E in El. discriminate El.
Qed.

Lemma Lanterns_branch_drawable (v : LanternsVisual.t)
  (o : LanternsVisual.Obstruction) :
  In o (LanternsVisual.obstructions v) ->
  In {| LanternsVisual.depth := LanternsVisual.ob_depth o;
        LanternsVisual.item := LanternsVisual.ob o |}
     (LanternsVisual.drawables v).
Proof.
  intros Ho.
  apply (Permutation_in _ (Permutation_sym (Lanterns_drawables_perm v))).
  unfold LanternsVisual.merged. apply in_or_app. left.
  apply (in_map (fun o => LanternsVisual.mkDrawable
                            (LanternsVisual.ob_depth o)
                            (LanternsVisual.ob o))). exact Ho.
Qed.

Lemma Lanterns_lantern_drawable (v : LanternsVisual.t)
  (l : LanternsVisual.Lantern) :
  In l (LanternsVisual.lanterns v) ->
  In {| LanternsVisual.depth := LanternsVisual.lanternDepth v l;
        LanternsVisual.item := LanternsVisual.lantern l |}
     (LanternsVisual.drawables v).
Proof.
  intros Hl.
  apply (Permutation_in _ (Permutation_sym (Lanterns_drawables_perm v))).
  unfold LanternsVisual.merged. apply in_or_app. right.
  apply (in_map (fun l => LanternsVisual.mkDrawable
                            (LanternsVisual.lanternDepth v l)
                            (LanternsVisual.lantern l))). exact Hl.
Qed.

(** With at least one branch, [render] leaves the cap and the join of the
    context round. *)
Lemma Lanterns_after_rounded (v : LanternsVisual.t) (c : Ctx.t) :
  LanternsVisual.obstructions v <> [] ->
  LanternsVisual.after (LanternsVisual.drawables v) c = Ctx.rounded c.
Proof.
  intros Hne. unfold LanternsVisual.after.
  destruct (LanternsVisual.obstructions v) as [|o obs] eqn:E; [congruence|].
  assert (Ho : In o (LanternsVisual.obstructions v)) by (rewrite E; now left).
  pose proof (Lanterns_in_from_branch _ _ o
                (Lanterns_branch_drawable v o Ho) eq_refl) as Hin.
  destruct (LanternsVisual.from_branch (LanternsVisual.drawables v));
    [destruct Hin | reflexivity].
Qed.




(** ** Sunset *)

Lemma mod_IZR_range (z m : Z) :
  (0 < m)%Z -> 0 <= IZR (z mod m) <= IZR m - 1.
Proof.
  intros Hm. pose proof (Z.mod_pos_bound z m Hm) as [Hlo Hhi].
  split.
  - now apply IZR_le.
  - rewrite <- minus_IZR. apply IZR_le. lia.
Qed.

(** X13: [drawClouds] paints 5 clouds of 4 to 6 blobs each (24 blobs with
    the seed 12345).  At a non-negative time and scale on a surface of
    non-negative size every blob has a radius between 22 and 53 times the
    scale and an opacity between 0.2 and 0.37; its centre keeps within
    50*scale of the cloud's base position, which wraps in [-200, width +
    200) horizontally and stays between 0.35 and 0.4475 of the height, give
    or take 8*scale, vertically. *)
Theorem Sunset_cloud_blobs_bounded (v : SunsetVisual.t) (s : R) :
  0 <= BaseVisual.time (SunsetVisual.base v) ->
  0 <= s ->
  0 <= BaseVisual.width (SunsetVisual.base v) ->
  0 <= BaseVisual.height (SunsetVisual.base v) ->
  let w := BaseVisual.width (SunsetVisual.base v) in
  let h := BaseVisual.height (SunsetVisual.base v) in
  length (SunsetVisual.drawClouds v s) = 24%nat /\
  Forall (fun sh =>
            match sh with
            | SoftDisc bx by_ br opacity =>
                22 * s <= br <= 53 * s /\
                0.2 <= opacity <= 0.37 /\
                - 200 - 50 * s <= bx < w + 200 + 50 * s /\
                0.35 * h - 36 * s <= by_ <= 0.4475 * h + 36 * s
            | _ => False
            end)
         (SunsetVisual.drawClouds v s).
Proof.
  intros Ht Hs Hw Hh w h. split.
  - unfold SunsetVisual.drawClouds, SunsetVisual.clouds.
    cbn [seq flat_map]. rewrite !length_app. unfold SunsetVisual.cloud.
    rewrite !length_map, !length_seq. vm_compute. reflexivity.
  - rewrite Forall_forall. intros sh Hsh.
    unfold SunsetVisual.drawClouds in Hsh.
    apply in_flat_map in Hsh. destruct Hsh as (i & _ & Hsh).
    unfold SunsetVisual.cloud in Hsh. apply in_map_iff in Hsh.
    destruct Hsh as (b & <- & _).
    unfold SunsetVisual.cloud_blob. fold w. fold h.
    set (iz := Z.of_nat i). set (bz := Z.of_nat b).
    pose proof (mod_IZR_range (SunsetVisual.hash (iz * 7 + bz + SunsetVisual.seed))
                  200 ltac:(lia)) as H200.
    pose proof (mod_IZR_range
                  (SunsetVisual.hash (iz * 7 + bz + SunsetVisual.seed + 1))
                  80 ltac:(lia)) as H80.
    pose proof (mod_IZR_range
                  (SunsetVisual.hash (iz * 7 + bz + SunsetVisual.seed + 2))
                  32 ltac:(lia)) as H32.
    pose proof (mod_IZR_range (SunsetVisual.hash (iz + SunsetVisual.seed + 1))
                  1000 ltac:(lia)) as H1000.
    pose proof (mod_IZR_range (SunsetVisual.hash (iz + SunsetVisual.seed + 2))
                  40 ltac:(lia)) as H40.
    pose proof (mod_IZR_range (SunsetVisual.hash (iz + SunsetVisual.seed + 4))
                  18 ltac:(lia)) as H18.
    set (m200 := IZR (_ mod 200)) in *. set (m80 := IZR (_ mod 80)) in *.
    set (m32 := IZR (_ mod 32)) in *. set (m1000 := IZR (_ mod 1000)) in *.
    set (m40 := IZR (_ mod 40)) in *. set (m18 := IZR (_ mod 18)) in *.
    assert (Hrem : 0 <= Js.rem (BaseVisual.time (SunsetVisual.base v) * 0.08 * s
                                * 120 + m1000) (w + 400) < w + 400).
    { apply rem_range; [|unfold w; lra].
      assert (0 <= BaseVisual.time (SunsetVisual.base v) * s)
        by (apply Rmult_le_pos; assumption).
      lra. }
    set (bx0 := Js.rem _ (w + 400)) in *.
    match goal with |- context [sin ?a] =>
      pose proof (SIN_bound a) as Hsin; set (sn := sin a) in *
    end.
    assert (P32 : 0 <= m32 * s <= 31 * s) by nra.
    assert (P200 : 0 <= m200 * s <= 199 * s) by nra.
    assert (P80 : 0 <= m80 * s <= 79 * s) by nra.
    assert (P40 : 0 <= h * m40 <= 39 * h) by (unfold h; nra).
    assert (Psn : - s <= sn * s <= s) by nra.
    unfold h, w in *. repeat split; lra.
Qed.

Lemma Sunset_cloud_blobs_bounded_witness :
  let v := {| SunsetVisual.base := BaseVisual.mk 280 200 1 1;
              SunsetVisual.zoomOut := 0.58 |} in
  0 <= BaseVisual.time (SunsetVisual.base v) /\ 0 <= 0.58 /\
  0 <= BaseVisual.width (SunsetVisual.base v) /\
  0 <= BaseVisual.height (SunsetVisual.base v) /\
  length (SunsetVisual.drawClouds v 0.58) = 24%nat.
Proof.
  intros v.
  assert (H1 : 0 <= BaseVisual.time (SunsetVisual.base v)) by (simpl; lra).
  assert (H2 : 0 <= 0.58) by lra.
  assert (H3 : 0 <= BaseVisual.width (SunsetVisual.base v)) by (simpl; lra).
  assert (H4 : 0 <= BaseVisual.height (SunsetVisual.base v)) by (simpl; lra).
  split; [exact H1|]. split; [exact H2|]. split; [exact H3|].
  split; [exact H4|].
  exact (proj1 (Sunset_cloud_blobs_bounded v 0.58 H1 H2 H3 H4)).
Defined.

(** ** Bloom *)

Lemma wrap_same_direction (rotation1 lag : R) :
  cos (BloomVisual.lagDifference rotation1 lag) = cos (rotation1 - lag) /\
  sin (BloomVisual.lagDifference rotation1 lag) = sin (rotation1 - lag).
Proof.
  unfold BloomVisual.lagDifference.
  destruct (wrap_down_spec (rotation1 - lag)) as (_ & _ & k1 & Hk1).
  destruct (wrap_up_spec (BloomVisual.wrap_down (rotation1 - lag)))
    as (_ & _ & _ & k2 & Hk2).
  rewrite Hk2.
  replace (BloomVisual.wrap_down (rotation1 - lag) + INR k2 * (2 * PI))
    with (BloomVisual.wrap_down (rotation1 - lag) + 2 * INR k2 * PI) by lra.
  rewrite cos_period, sin_period.
  set (x := rotation1 - lag) in *. set (y := BloomVisual.wrap_down x) in *.
  assert (E : x = y + 2 * INR k1 * PI) by lra.
  rewrite E, cos_period, sin_period. split; reflexivity.
Qed.

(** X14: for angles within 1000 rad of each other, the two wrapping loops
    of [BloomVisual.update] leave a difference in [-pi, pi] that points the
    same way as rotation - lag (same cosine and sine), at most 167 whole
    turns away from it.  Whole turns added to the rotation do not change
    the result, except that a result of exactly pi can become -pi and the
    reverse. *)
Theorem lagDifference_normalizes (rotation1 lag : R) (n : Z) :
  Rabs (rotation1 - lag) <= 1000 ->
  Rabs (rotation1 + IZR n * (2 * PI) - lag) <= 1000 ->
  let d := BloomVisual.lagDifference rotation1 lag in
  let d' := BloomVisual.lagDifference (rotation1 + IZR n * (2 * PI)) lag in
  - PI <= d <= PI /\
  (exists k : Z, d = rotation1 - lag - IZR k * (2 * PI)
                 /\ (Z.abs k <= 167)%Z) /\
  cos d = cos (rotation1 - lag) /\
  sin d = sin (rotation1 - lag) /\
  (- PI < d < PI -> d' = d) /\
  (d' = d \/ (d = PI /\ d' = - PI) \/ (d = - PI /\ d' = PI)).
Proof.
  intros H1 H2 d d'. pose proof PI_RGT_0 as Hpi.
  destruct (lagDifference_wraps rotation1 lag) as (Hr & k & Hk).
  destruct (lagDifference_wraps (rotation1 + IZR n * (2 * PI)) lag)
    as (Hr' & k' & Hk').
  fold d in Hr, Hk. fold d' in Hr', Hk'.
  assert (Hkk : d = rotation1 - lag - IZR (- k) * (2 * PI))
    by (rewrite opp_IZR; lra).
  destruct (wrap_same_direction rotation1 lag) as [Hc Hs].
  fold d in Hc, Hs.
  assert (Hm : d' - d = IZR (n + k' - k) * (2 * PI))
    by (rewrite minus_IZR, plus_IZR; lra).
  assert (Hcases : (n + k' - k = -1 \/ n + k' - k = 0 \/ n + k' - k = 1)%Z).
  { assert (Hb : -2 < IZR (n + k' - k) < 2) by (split; nra).
    destruct Hb as [Hlo Hhi]. apply lt_IZR in Hlo. apply lt_IZR in Hhi. lia. }
  split; [exact Hr|]. split.
  { exists (- k)%Z. split; [exact Hkk|].
    exact (turns_bounded d (rotation1 - lag) (- k) Hr H1 Hkk). }
  split; [exact Hc|]. split; [exact Hs|]. split.
  - intros Hin.
    destruct Hcases as [E | [E | E]]; rewrite E in Hm; simpl in Hm; lra.
  - destruct Hcases as [E | [E | E]]; rewrite E in Hm; simpl in Hm.
    + right. left. split; lra.
    + left. lra.
    + right. right. split; lra.
Qed.

Lemma lagDifference_normalizes_witness :
  Rabs (7 - 0) <= 1000 /\
  Rabs (7 + IZR 1 * (2 * PI) - 0) <= 1000 /\
  - PI <= BloomVisual.lagDifference 7 0 <= PI /\
  cos (BloomVisual.lagDifference 7 0) = cos (7 - 0).
Proof.
  pose proof PI_above_3 as Hpi. pose proof PI_4 as Hpi4.
  assert (H1 : Rabs (7 - 0) <= 1000) by (apply Rabs_le; lra).
  assert (H2 : Rabs (7 + IZR 1 * (2 * PI) - 0) <= 1000)
    by (apply Rabs_le; lra).
  destruct (lagDifference_normalizes 7 0 1 H1 H2) as (Hr & _ & Hc & _).
  split; [exact H1|]. split; [exact H2|]. split; [exact Hr | exact Hc].
Defined.

Lemma add_by_index_length (f : nat -> R) (i : nat) (xs : list R) :
  length (BloomVisual.add_by_index f i xs) = length xs.
Proof.
  revert i. induction xs as [|a xs IH]; intros i; simpl; [reflexivity|].
  now rewrite IH.
Qed.

Lemma newBloom_layout (v : BloomVisual.t) (i : nat) g :
  valid_source g ->
  0 < BaseVisual.width (BloomVisual.base v) ->
  0 <= BaseVisual.height (BloomVisual.base v) ->
  (i < 3)%nat ->
  let w := BaseVisual.width (BloomVisual.base v) in
  let h := BaseVisual.height (BloomVisual.base v) in
  let b := fst (BloomVisual.newBloom v i g) in
  BloomVisual.x b = w * (0.18 + INR i / 2 * 0.64) /\
  h * 0.46 <= BloomVisual.y b <= h * 0.54 /\
  BloomVisual.rotationLag b = BloomVisual.rotation b /\
  0.0007 <= BloomVisual.rotationSpeed b <= 0.0013 /\
  BloomVisual.swayTilt b = 0 /\
  BloomVisual.petalPhase b = [] /\
  90 <= BloomVisual.sat b <= 100 /\
  match i with
  | 0%nat => 205 <= BloomVisual.hue b <= 214
  | 1%nat => 140 <= BloomVisual.hue b <= 150
  | _ => 35 <= BloomVisual.hue b <= 44
  end.
Proof.
  intros Hg Hw Hh Hi w h b.
  pose proof (Hg 0%nat) as G0. pose proof (Hg 1%nat) as G1.
  pose proof (Hg 3%nat) as G3. pose proof (Hg 5%nat) as G5.
  assert (Hnx : forall c, w * c / w = c) by (intros c; field; unfold w; lra).
  assert (Hhue : forall a, 0 <= a < 360 -> Js.rem (a + 360) 360 = a).
  { intros a Ha. rewrite rem_one_turn by lra. lra. }
  unfold b, BloomVisual.newBloom, bind, Math_random, ret.
  cbn [fst snd BloomVisual.x BloomVisual.y BloomVisual.rotation
       BloomVisual.rotationLag BloomVisual.rotationSpeed BloomVisual.swayTilt
       BloomVisual.petalPhase BloomVisual.sat BloomVisual.hue
       BloomVisual.count Nat.ltb Nat.leb Nat.sub].
  fold w. fold h. rewrite !Hnx.
  replace (INR 2) with 2 by (simpl; lra).
  split; [reflexivity|]. split; [unfold h; nra|]. split; [reflexivity|].
  split; [lra|]. split; [reflexivity|]. split; [reflexivity|].
  split; [lra|].
  destruct i as [|[|[|i]]]; [| | |lia]; simpl INR.
  - replace (0.18 + 0 / 2 * 0.64) with 0.18 by lra.
    destruct (Rlt_dec 0.18 0.38); [|lra].
    rewrite Hhue; lra.
  - replace (0.18 + 1 / 2 * 0.64) with 0.5 by lra.
    destruct (Rlt_dec 0.5 0.38); [lra|].
    destruct (Rlt_dec 0.5 0.62); [|lra].
    rewrite Hhue; lra.
  - replace (0.18 + (1 + 1) / 2 * 0.64) with 0.82 by lra.
    destruct (Rlt_dec 0.82 0.38); [lra|].
    destruct (Rlt_dec 0.82 0.62); [lra|].
    rewrite Hhue; lra.
Qed.

Lemma Forall2_nth_error_r {A B} (Q : A -> B -> Prop) (l : list A) (l' : list B) :
  Forall2 Q l l' ->
  forall i b, nth_error l' i = Some b ->
              exists a, nth_error l i = Some a /\ Q a b.
Proof.
  induction 1 as [|a b0 l l' Hab _ IH]; intros i b Hi.
  - destruct i; discriminate.
  - destruct i as [|i]; simpl in *.
    + injection Hi as <-. now exists a.
    + now apply IH.
Qed.

Lemma addPetalPhases_fields (b : BloomVisual.Bloom) g :
  valid_source g ->
  (let b' := fst (BloomVisual.addPetalPhases b g) in
   BloomVisual.x b' = BloomVisual.x b /\
   BloomVisual.y b' = BloomVisual.y b /\
   BloomVisual.hue b' = BloomVisual.hue b /\
   BloomVisual.sat b' = BloomVisual.sat b /\
   BloomVisual.rotation b' = BloomVisual.rotation b /\
   BloomVisual.rotationLag b' = BloomVisual.rotationLag b /\
   BloomVisual.rotationSpeed b' = BloomVisual.rotationSpeed b /\
   BloomVisual.swayTilt b' = BloomVisual.swayTilt b /\
   length (BloomVisual.petalPhase b')
     = (length (BloomVisual.petalPhase b) + 16)%nat) /\
  valid_source (snd (BloomVisual.addPetalPhases b g)).
Proof.
  intros Hg. unfold BloomVisual.addPetalPhases, bind.
  destruct (for_push_Forall valid_source (fun _ : R => True)
              (fun _ => r <- Math_random ;; ret (r * Js.Math_PI * 2))
              ltac:(intros i g' Hg'; split; [exact I | intros n; apply Hg'])
              (6 + 10)%nat 0%nat g Hg) as [_ Hsrc].
  pose proof (for_push_length (6 + 10) 0
                (fun _ => r <- Math_random ;; ret (r * Js.Math_PI * 2)) g)
    as Hlen.
  destruct (for_push (6 + 10) 0 _ g) as [ph g1].
  unfold ret. cbn [fst snd] in *. split; [|exact Hsrc].
  cbn. rewrite length_app, Hlen. repeat split; reflexivity.
Qed.

(** X15: the Bloom constructor places three blooms at 18%, 50% and 82% of
    the width and within 4% of the height of the vertical middle, with
    hues in a blue (205..214), a green (140..150) and an orange (35..44)
    band from left to right, the petal layer aligned with the form
    (rotationLag = rotation), no sway yet, and 16 petal phases each. *)
Theorem Bloom_constructor_layout (cw ch : R) (g : RandomSource) :
  valid_source g -> 0 < cw -> 0 <= ch ->
  let v := fst (BloomVisual.new cw ch g) in
  length (BloomVisual.blooms v) = 3%nat /\
  forall i b, nth_error (BloomVisual.blooms v) i = Some b ->
    BloomVisual.x b = cw * (0.18 + INR i / 2 * 0.64) /\
    ch * 0.46 <= BloomVisual.y b <= ch * 0.54 /\
    BloomVisual.rotationLag b = BloomVisual.rotation b /\
    BloomVisual.swayTilt b = 0 /\
    length (BloomVisual.petalPhase b) = 16%nat /\
    90 <= BloomVisual.sat b <= 100 /\
    match i with
    | 0%nat => 205 <= BloomVisual.hue b <= 214
    | 1%nat => 140 <= BloomVisual.hue b <= 150
    | _ => 35 <= BloomVisual.hue b <= 44
    end.
Proof.
  intros Hg Hw Hh v.
  assert (Hlen : length (BloomVisual.blooms v) = 3%nat)
    by apply initBlooms_length.
  split; [exact Hlen|]. intros i b Hi.
  assert (Hi3 : (i < 3)%nat).
  { rewrite <- Hlen. apply nth_error_Some. congruence. }
  unfold v, BloomVisual.new, BloomVisual.initBlooms, bind in Hi.
  cbn [BloomVisual.blooms app] in Hi.
  set (v0 := {| BloomVisual.base := BaseVisual.new cw ch;
                BloomVisual.blooms := [] |}) in *.
  pose proof (for_push_nth valid_source
    (fun i a => (i < 3)%nat ->
       BloomVisual.x a = cw * (0.18 + INR i / 2 * 0.64) /\
       ch * 0.46 <= BloomVisual.y a <= ch * 0.54 /\
       BloomVisual.rotationLag a = BloomVisual.rotation a /\
       BloomVisual.swayTilt a = 0 /\
       BloomVisual.petalPhase a = [] /\
       90 <= BloomVisual.sat a <= 100 /\
       match i with
       | 0%nat => 205 <= BloomVisual.hue a <= 214
       | 1%nat => 140 <= BloomVisual.hue a <= 150
       | _ => 35 <= BloomVisual.hue a <= 44
       end)
    (BloomVisual.newBloom v0)
    ltac:(intros j g' Hg'; split;
          [ intros Hj;
            destruct (newBloom_layout v0 j g' Hg' Hw Hh Hj)
              as (H1 & H2 & H3 & _ & H5 & H6 & H7 & H8);
            repeat split; try assumption; apply H2 || apply H7
          | apply (newBloom_lag_small v0 j g' Hg') ])
    BloomVisual.count 0%nat g Hg) as Hnth.
  destruct (for_push_Forall valid_source (fun _ => True)
              (BloomVisual.newBloom v0)
              ltac:(intros j g' Hg'; split; [exact I|];
                    apply (newBloom_lag_small v0 j g' Hg'))
              BloomVisual.count 0%nat g Hg) as [_ Hsrc].
  destruct (for_push BloomVisual.count 0 (BloomVisual.newBloom v0) g)
    as [bs g1].
  cbn [fst snd] in *.
  destruct (forEachM_Forall2 valid_source (fun _ => True)
              (fun a b =>
                 BloomVisual.x b = BloomVisual.x a /\
                 BloomVisual.y b = BloomVisual.y a /\
                 BloomVisual.hue b = BloomVisual.hue a /\
                 BloomVisual.sat b = BloomVisual.sat a /\
                 BloomVisual.rotation b = BloomVisual.rotation a /\
                 BloomVisual.rotationLag b = BloomVisual.rotationLag a /\
                 BloomVisual.rotationSpeed b = BloomVisual.rotationSpeed a /\
                 BloomVisual.swayTilt b = BloomVisual.swayTilt a /\
                 length (BloomVisual.petalPhase b)
                   = (length (BloomVisual.petalPhase a) + 16)%nat)
              BloomVisual.addPetalPhases
              ltac:(intros a g' Hg' _; apply (addPetalPhases_fields a g' Hg'))
              bs g1 Hsrc ltac:(rewrite Forall_forall; intros; exact I))
    as [HF _].
  destruct (forEachM BloomVisual.addPetalPhases bs g1) as [all g2].
  unfold ret in Hi. cbn [fst snd BloomVisual.blooms] in *.
  destruct (Forall2_nth_error_r _ _ _ HF i b Hi) as (a & Ha & Hab).
  specialize (Hnth i a Ha Hi3).
  destruct Hnth as (A1 & A2 & A3 & A4 & A5 & A6 & A7).
  destruct Hab as (B1 & B2 & B3 & B4 & B5 & B6 & B7 & B8 & B9).
  rewrite B1, B2, B6, B5, B8, B9, B4, B3, A5.
  repeat split; try assumption; try apply A2; try apply A6.
Qed.

Lemma Bloom_constructor_layout_witness :
  let g := const_source (1 / 2) in
  valid_source g /\ 0 < 280 /\ 0 <= 200 /\
  length (BloomVisual.blooms (fst (BloomVisual.new 280 200 g))) = 3%nat.
Proof.
  intros g.
  assert (Hg : valid_source g) by (intros n; unfold g, const_source; lra).
  assert (H1 : 0 < 280) by lra. assert (H2 : 0 <= 200) by lra.
  split; [exact Hg|]. split; [exact H1|]. split; [exact H2|].
  exact (proj1 (Bloom_constructor_layout 280 200 g Hg H1 H2)).
Defined.

Lemma initBlooms_trailing (b0 : BaseVisual.t) g :
  let P := fun b =>
    length (BloomVisual.petalPhase b) = 16%nat /\
    0.0007 <= BloomVisual.rotationSpeed b <= 0.0013 /\
    0 <= BloomVisual.rotation b - BloomVisual.rotationLag b
      <= 0.986 / 0.014 * BloomVisual.rotationSpeed b in
  valid_source g ->
  Forall P (BloomVisual.blooms
              (fst (BloomVisual.initBlooms
                      {| BloomVisual.base := b0; BloomVisual.blooms := [] |} g)))
  /\ valid_source
       (snd (BloomVisual.initBlooms
               {| BloomVisual.base := b0; BloomVisual.blooms := [] |} g)).
Proof.
  intros P Hg. unfold BloomVisual.initBlooms, bind.
  cbn [BloomVisual.blooms app].
  set (v0 := {| BloomVisual.base := b0; BloomVisual.blooms := [] |}).
  destruct (for_push_Forall valid_source
              (fun b => BloomVisual.petalPhase b = [] /\
                        0.0007 <= BloomVisual.rotationSpeed b <= 0.0013 /\
                        BloomVisual.rotationLag b = BloomVisual.rotation b)
              (BloomVisual.newBloom v0)
              ltac:(intros j g' Hg'; split;
                    [ unfold BloomVisual.newBloom, bind, Math_random, ret; cbn;
                      pose proof (Hg' 5%nat); repeat split; lra
                    | apply (newBloom_lag_small v0 j g' Hg') ])
              BloomVisual.count 0%nat g Hg) as [Hnew Hsrc].
  destruct (for_push BloomVisual.count 0 (BloomVisual.newBloom v0) g)
    as [bs g1].
  cbn [fst snd] in *.
  destruct (forEachM_Forall_source valid_source
              (fun b => BloomVisual.petalPhase b = [] /\
                        0.0007 <= BloomVisual.rotationSpeed b <= 0.0013 /\
                        BloomVisual.rotationLag b = BloomVisual.rotation b)
              P BloomVisual.addPetalPhases
              ltac:(intros a g' Hg' (A1 & A2 & A3);
                    destruct (addPetalPhases_fields a g' Hg')
                      as [(_ & _ & _ & _ & B5 & B6 & B7 & _ & B9) Hv];
                    split; [|exact Hv];
                    unfold P; rewrite B9, B5, B6, B7, A1, A3;
                    split; [reflexivity|]; split; lra)
              bs g1 Hsrc Hnew) as [HF Hs].
  destruct (forEachM BloomVisual.addPetalPhases bs g1) as [all g2].
  unfold ret. cbn [fst snd BloomVisual.blooms] in *. split; assumption.
Qed.

Lemma update_bloom_trailing (t : R) (b : BloomVisual.Bloom) :
  let P := fun b =>
    length (BloomVisual.petalPhase b) = 16%nat /\
    0.0007 <= BloomVisual.rotationSpeed b <= 0.0013 /\
    0 <= BloomVisual.rotation b - BloomVisual.rotationLag b
      <= 0.986 / 0.014 * BloomVisual.rotationSpeed b in
  P b -> P (BloomVisual.update_bloom t b).
Proof.
  intros P (Hlen & Hs & He).
  assert (Hsmall : lag_small b) by (unfold lag_small; lra).
  destruct (update_bloom_lag_small t b Hsmall) as (Hrot & Hd & _ & Hlag & _).
  unfold P. rewrite Hlag, Hd, Hrot.
  change (BloomVisual.rotationSpeed (BloomVisual.update_bloom t b))
    with (BloomVisual.rotationSpeed b).
  split; [|lra].
  unfold BloomVisual.update_bloom. cbn [BloomVisual.petalPhase].
  now rewrite add_by_index_length.
Qed.

(** X16: on a Bloom instance reached from the constructor by any updates
    and resizes, every bloom has its 16 petal phases (6 for the inner and
    10 for the outer layer), turns by between 0.0007 and 0.0013 rad per
    update, and its petal layer trails the form by a non-negative angle of
    at most 0.986/0.014 (about 70) updates' worth of rotation. *)
Theorem Bloom_petals_trail_boundedly
  (cw ch : R) (cs : list Call) (g : RandomSource) :
  valid_source g ->
  let start := BloomVisual.new cw ch g in
  let v := fst (lifecycle BloomVisual.update BloomVisual.resize cs
                          (fst start) (snd start)) in
  Forall (fun b =>
            length (BloomVisual.petalPhase b) = 16%nat /\
            0.0007 <= BloomVisual.rotationSpeed b <= 0.0013 /\
            0 <= BloomVisual.rotation b - BloomVisual.rotationLag b
              <= 0.986 / 0.014 * BloomVisual.rotationSpeed b)
         (BloomVisual.blooms v).
Proof.
  intros Hg start v.
  set (P := fun b =>
            length (BloomVisual.petalPhase b) = 16%nat /\
            0.0007 <= BloomVisual.rotationSpeed b <= 0.0013 /\
            0 <= BloomVisual.rotation b - BloomVisual.rotationLag b
              <= 0.986 / 0.014 * BloomVisual.rotationSpeed b).
  assert (Hgen : forall cs v g, valid_source g ->
            Forall P (BloomVisual.blooms v) ->
            Forall P (BloomVisual.blooms
              (fst (lifecycle BloomVisual.update BloomVisual.resize cs v g)))).
  { clear. induction cs as [|c cs IH]; intros v g Hg Hv.
    - exact Hv.
    - destruct c as [|w h]; cbn [lifecycle]; unfold bind.
      + unfold BloomVisual.update at 1, ret. apply IH; [exact Hg|].
        cbn [BloomVisual.blooms]. rewrite Forall_map.
        eapply Forall_impl; [|exact Hv].
        intros b Hb. now apply update_bloom_trailing.
      + unfold BloomVisual.resize.
        destruct (initBlooms_trailing
                    (BaseVisual.resize w h (BloomVisual.base v)) g Hg)
          as [Hv1 Hg1].
        destruct (BloomVisual.initBlooms _ g) as [v1 g1]. now apply IH. }
  destruct (initBlooms_trailing (BaseVisual.new cw ch) g Hg) as [H0 Hg0].
  apply Hgen; assumption.
Qed.

Lemma Bloom_petals_trail_boundedly_witness :
  let g := const_source (1 / 2) in
  let cs := [call_update; call_update; call_resize 1920 1080; call_update] in
  let start := BloomVisual.new 280 200 g in
  let v := fst (lifecycle BloomVisual.update BloomVisual.resize cs
                          (fst start) (snd start)) in
  valid_source g /\
  Forall (fun b => length (BloomVisual.petalPhase b) = 16%nat)
         (BloomVisual.blooms v).
Proof.
  intros g cs start v.
  assert (Hg : valid_source g) by (intros n; unfold g, const_source; lra).
  split; [exact Hg|].
  eapply Forall_impl; [|exact (Bloom_petals_trail_boundedly 280 200 cs g Hg)].
  intros b Hb. apply Hb.
Defined.

(** ** Streets *)

Lemma yToT_inside (h y : R) :
  0 < h -> h * 0.32 <= y <= h ->
  StreetsVisual.yToT h (h * 0.32) y = (y - h * 0.32) / (h - h * 0.32).
Proof.
  intros Hh [Hlo Hhi]. unfold StreetsVisual.yToT.
  assert (Hd : 0 < h - h * 0.32) by lra.
  assert (Hq : 0 <= (y - h * 0.32) / (h - h * 0.32) <= 1).
  { split.
    - unfold Rdiv. apply Rmult_le_pos; [lra|].
      left. now apply Rinv_0_lt_compat.
    - apply (Rmult_le_reg_r (h - h * 0.32)); [exact Hd|].
      unfold Rdiv. rewrite Rmult_assoc, Rinv_l by lra. lra. }
  rewrite Rmax_right by lra. rewrite Rmin_right by lra. reflexivity.
Qed.

(** X17: the perspective function of [StreetsVisual.render], with the
    vanishing point at (width/2, 0.32*height) on a surface of positive
    height: the interpolation factor lies in [0,1]; everything at or above
    the vanishing point projects onto its x; at or below the bottom edge a
    normalized x projects to x*width; in between the projection moves
    linearly from the one to the other, and it is never further from the
    vanishing point than x*width is. *)
Theorem Streets_project_converges (w h xNorm y : R) :
  0 < h ->
  let vpX := w * 0.5 in
  let vpY := h * 0.32 in
  let p := StreetsVisual.project w h vpX vpY xNorm y in
  0 <= StreetsVisual.yToT h vpY y <= 1 /\
  (y <= vpY -> p = vpX) /\
  (h <= y -> p = xNorm * w) /\
  (vpY <= y <= h ->
   p = vpX + (xNorm * w - vpX) * ((y - vpY) / (h - vpY))) /\
  Rabs (p - vpX) <= Rabs (xNorm * w - vpX).
Proof.
  intros Hh vpX vpY p.
  assert (Hd : 0 < h - vpY) by (unfold vpY; lra).
  assert (Ht : 0 <= StreetsVisual.yToT h vpY y <= 1).
  { unfold StreetsVisual.yToT. split.
    - apply Rmin_glb; [lra | apply Rmax_l].
    - apply Rmin_l. }
  split; [exact Ht|]. split; [|split; [|split]].
  - intros Hy. unfold p, StreetsVisual.project, StreetsVisual.yToT.
    assert ((y - vpY) / (h - vpY) <= 0).
    { apply (Rmult_le_reg_r (h - vpY)); [exact Hd|].
      unfold Rdiv. rewrite Rmult_assoc, Rinv_l by lra. lra. }
    rewrite Rmax_left by lra. rewrite Rmin_right by lra. lra.
  - intros Hy. unfold p, StreetsVisual.project, StreetsVisual.yToT.
    assert (1 <= (y - vpY) / (h - vpY)).
    { apply (Rmult_le_reg_r (h - vpY)); [exact Hd|].
      unfold Rdiv. rewrite Rmult_assoc, Rinv_l by lra. lra. }
    rewrite Rmax_right by lra. rewrite Rmin_left by lra. lra.
  - intros Hy. unfold p, StreetsVisual.project, vpY.
    rewrite yToT_inside by (unfold vpY in Hy; lra). reflexivity.
  - unfold p, StreetsVisual.project.
    replace (vpX + (xNorm * w - vpX) * StreetsVisual.yToT h vpY y - vpX)
      with ((xNorm * w - vpX) * StreetsVisual.yToT h vpY y) by ring.
    rewrite Rabs_mult.
    rewrite (Rabs_right (StreetsVisual.yToT h vpY y)) by lra.
    pose proof (Rabs_pos (xNorm * w - vpX)). nra.
Qed.

Lemma Streets_project_converges_witness :
  0 < 200 /\
  StreetsVisual.project 280 200 (280 * 0.5) (200 * 0.32) 0.78 200 = 0.78 * 280 /\
  StreetsVisual.project 280 200 (280 * 0.5) (200 * 0.32) 0.78 10 = 280 * 0.5.
Proof.
  assert (Hh : 0 < 200) by lra.
  split; [exact Hh|]. split.
  - destruct (Streets_project_converges 280 200 0.78 200 Hh)
      as (_ & _ & Hb & _).
    apply Hb. lra.
  - destruct (Streets_project_converges 280 200 0.78 10 Hh)
      as (_ & Ha & _).
    apply Ha. lra.
Defined.

(** X18: the box [render] strokes for a car of depth t in [0,1] on a
    surface of positive height has its bottom edge at y = height * (0.32 +
    0.68*t), is 72*(1 - 0.88*t) wide and 28*(1 - 0.88*t) high, and is centred
    at x = width * (0.5 + (0.304 + 0.392*phase - 0.5) * t); so of two cars the
    one drawn lower on the surface has the smaller box. *)
Theorem Streets_car_box (w h : R) (c1 c2 : StreetsVisual.Car) :
  0 < h ->
  0 <= StreetsVisual.depth c1 <= 1 ->
  0 <= StreetsVisual.depth c2 <= 1 ->
  StreetsVisual.depth c1 < StreetsVisual.depth c2 ->
  exists x1 y1 w1 h1 x2 y2 w2 h2,
    StreetsVisual.draw_car w h c1 = CarBox x1 y1 w1 h1 /\
    StreetsVisual.draw_car w h c2 = CarBox x2 y2 w2 h2 /\
    y1 + h1 = h * (0.32 + 0.68 * StreetsVisual.depth c1) /\
    w1 = 72 * (1 - 0.88 * StreetsVisual.depth c1) /\
    h1 = 28 * (1 - 0.88 * StreetsVisual.depth c1) /\
    x1 + w1 / 2
      = w * (0.5 + (0.304 + 0.392 * StreetsVisual.phase c1 - 0.5)
                   * StreetsVisual.depth c1) /\
    y1 + h1 < y2 + h2 /\
    0 < w2 < w1 /\ 0 < h2 < h1.
Proof.
  intros Hh Hd1 Hd2 Hlt.
  assert (Hproj : forall c, 0 <= StreetsVisual.depth c <= 1 ->
            StreetsVisual.yToT h (h * 0.32)
              (h * 0.32 + (h - h * 0.32) * StreetsVisual.depth c)
            = StreetsVisual.depth c).
  { intros c Hc. rewrite yToT_inside; [field; lra | exact Hh | nra]. }
  unfold StreetsVisual.draw_car, StreetsVisual.project.
  rewrite (Hproj c1 Hd1), (Hproj c2 Hd2).
  do 8 eexists. split; [reflexivity|]. split; [reflexivity|].
  repeat split; try nra.
Qed.

Lemma Streets_car_box_witness :
  let c1 := StreetsVisual.mkCar 0.15 0 true in
  let c2 := StreetsVisual.mkCar 0.29 0.4 false in
  0 < 200 /\ 0 <= StreetsVisual.depth c1 <= 1 /\
  0 <= StreetsVisual.depth c2 <= 1 /\
  StreetsVisual.depth c1 < StreetsVisual.depth c2 /\
  exists x1 y1 w1 h1,
    StreetsVisual.draw_car 280 200 c1 = CarBox x1 y1 w1 h1 /\
    w1 = 72 * (1 - 0.88 * 0.15).
Proof.
  intros c1 c2.
  assert (Hh : 0 < 200) by lra.
  assert (H1 : 0 <= StreetsVisual.depth c1 <= 1) by (simpl; lra).
  assert (H2 : 0 <= StreetsVisual.depth c2 <= 1) by (simpl; lra).
  assert (H3 : StreetsVisual.depth c1 < StreetsVisual.depth c2) by (simpl; lra).
  split; [exact Hh|]. split; [exact H1|]. split; [exact H2|].
  split; [exact H3|].
  destruct (Streets_car_box 280 200 c1 c2 Hh H1 H2 H3)
    as (x1 & y1 & w1 & h1 & _ & _ & _ & _ & E & _ & _ & Hw & _).
  exists x1, y1, w1, h1. split; [exact E | exact Hw].
Defined.

(** ** Urbanity *)

Lemma newWindow_spec (v : UrbanityVisual.t) (bx bw bh : R) (i : nat) g :
  valid_source g ->
  Forall (fun l =>
            UrbanityVisual.buildingX l = bx /\
            UrbanityVisual.buildingWidth l = bw /\
            UrbanityVisual.lx l = bx + bw / 2 /\
            UrbanityVisual.ly l
              = BaseVisual.height (UrbanityVisual.base v) - bh + INR i * 30 + 15)
         (fst (UrbanityVisual.newWindow v bx bw bh i g)) /\
  valid_source (snd (UrbanityVisual.newWindow v bx bw bh i g)).
Proof.
  intros Hg. unfold UrbanityVisual.newWindow, bind, Math_random.
  destruct (Rgt_dec (g 0%nat) 0.3) as [Hlit | Hdark]; unfold ret; cbn.
  - split; [|intros k; apply Hg]. repeat constructor.
  - split; [constructor | intros k; apply Hg].
Qed.

Lemma in_concat_nth {A} (ls : list (list A)) (a : A) :
  In a (concat ls) -> exists i l, nth_error ls i = Some l /\ In a l.
Proof.
  intros H. apply in_concat in H. destruct H as (l & Hl & Ha).
  destruct (In_nth_error ls l Hl) as [i Hi]. now exists i, l.
Qed.

Lemma addBuilding_spec (v : UrbanityVisual.t) (bx : R) g :
  valid_source g ->
  0 <= BaseVisual.height (UrbanityVisual.base v) ->
  let hh := BaseVisual.height (UrbanityVisual.base v) in
  let r := fst (UrbanityVisual.addBuilding v bx g) in
  (exists b ws,
     UrbanityVisual.buildings (fst r) = UrbanityVisual.buildings v ++ [b] /\
     UrbanityVisual.lights (fst r) = UrbanityVisual.lights v ++ ws /\
     UrbanityVisual.base (fst r) = UrbanityVisual.base v /\
     UrbanityVisual.x b = bx /\
     40 <= UrbanityVisual.width b < 120 /\
     100 <= UrbanityVisual.height b <= 100 + 0.7 * hh /\
     snd r = bx + UrbanityVisual.width b + 5 /\
     Forall (window_of hh b) ws /\
     (length ws <= Z.to_nat (Js.floor (UrbanityVisual.height b / 30)))%nat) /\
  valid_source (snd (UrbanityVisual.addBuilding v bx g)).
Proof.
  intros Hg Hh hh r. unfold r, UrbanityVisual.addBuilding, bind, Math_random.
  pose proof (Hg 0%nat) as G0. pose proof (Hg 1%nat) as G1.
  set (bw := 40 + g 0%nat * 80).
  set (bh := 100 + g 1%nat * (BaseVisual.height (UrbanityVisual.base v) * 0.7)).
  set (g3 := fun n => g (S (S (S n)))).
  assert (Hg3 : valid_source g3) by (intros k; apply Hg).
  set (n := Z.to_nat (Js.floor (bh / 30))).
  pose proof (for_push_nth valid_source
    (fun i ws => Forall (fun l =>
        UrbanityVisual.buildingX l = bx /\
        UrbanityVisual.buildingWidth l = bw /\
        UrbanityVisual.lx l = bx + bw / 2 /\
        UrbanityVisual.ly l = hh - bh + INR i * 30 + 15) ws)
    (UrbanityVisual.newWindow v bx bw bh)
    ltac:(intros i g' Hg'; apply (newWindow_spec v bx bw bh i g' Hg'))
    n 0%nat g3 Hg3) as Hnth.
  pose proof (for_push_Forall valid_source
    (fun ws : list UrbanityVisual.Light => (length ws <= 1)%nat)
    (UrbanityVisual.newWindow v bx bw bh)
    ltac:(intros i g' Hg'; split;
          [ unfold UrbanityVisual.newWindow, bind, Math_random;
            destruct (Rgt_dec (g' 0%nat) 0.3); unfold ret; cbn; lia
          | apply (newWindow_spec v bx bw bh i g' Hg') ])
    n 0%nat g3 Hg3) as [Hone Hsrc].
  pose proof (for_push_length n 0 (UrbanityVisual.newWindow v bx bw bh) g3)
    as Hlen.
  change (fun n0 : nat => g (S (S (S n0)))) with g3.
  destruct (for_push n 0 (UrbanityVisual.newWindow v bx bw bh) g3) as [wss g4].
  unfold ret. cbn [fst snd] in *. split; [|exact Hsrc].
  exists {| UrbanityVisual.x := bx; UrbanityVisual.width := bw;
            UrbanityVisual.height := bh;
            UrbanityVisual.lightness := 10 + g 2%nat * 20 |}, (concat wss).
  cbn [UrbanityVisual.x UrbanityVisual.width UrbanityVisual.height
       UrbanityVisual.buildings UrbanityVisual.lights UrbanityVisual.base].
  assert (Hbh : 100 <= bh <= 100 + 0.7 * hh) by (unfold bh, hh in *; nra).
  split; [reflexivity|]. split; [reflexivity|]. split; [reflexivity|].
  split; [reflexivity|]. split; [unfold bw; lra|]. split; [exact Hbh|].
  split; [reflexivity|]. split.
  - rewrite Forall_forall. intros l Hl.
    destruct (in_concat_nth wss l Hl) as (i & ws & Hi & Hin).
    specialize (Hnth i ws Hi). rewrite Forall_forall in Hnth.
    destruct (Hnth l Hin) as (L1 & L2 & L3 & L4).
    assert (Hlt : (i < n)%nat).
    { rewrite <- Hlen. apply nth_error_Some. congruence. }
    assert (Hfl : IZR (Js.floor (bh / 30)) <= bh / 30).
    { unfold Js.floor. apply Zfloor_bound. }
    assert (Hn : INR n <= bh / 30).
    { unfold n. rewrite INR_IZR_INZ.
      destruct (Z.le_gt_cases 0 (Js.floor (bh / 30))) as [Hp | Hp].
      - rewrite Z2Nat.id by exact Hp. exact Hfl.
      - unfold n in Hlt. lia. }
    assert (Hi1 : INR i + 1 <= INR n).
    { rewrite <- S_INR. apply le_INR. lia. }
    pose proof (pos_INR i).
    unfold window_of.
    cbn [UrbanityVisual.x UrbanityVisual.width UrbanityVisual.height].
    simpl Nat.add in L4.
    split; [exact L1|]. split; [exact L2|]. split; [exact L3|].
    rewrite L4. lra.
  - rewrite length_concat.
    assert (Hsum : forall (l : list (list UrbanityVisual.Light)),
              Forall (fun ws => (length ws <= 1)%nat) l ->
              (list_sum (map (@length _) l) <= length l)%nat).
    { induction 1 as [|a l Ha _ IH]; simpl; lia. }
    specialize (Hsum wss Hone). fold n. lia.
Qed.

Lemma initBuildings_from_spec (fuel : nat) :
  forall (bx : R) (v : UrbanityVisual.t) g,
  valid_source g ->
  0 <= BaseVisual.height (UrbanityVisual.base v) ->
  BaseVisual.width (UrbanityVisual.base v) + 100 - bx <= 45 * INR fuel ->
  let hh := BaseVisual.height (UrbanityVisual.base v) in
  let ww := BaseVisual.width (UrbanityVisual.base v) in
  exists v' bs ls upto,
    fst (UrbanityVisual.initBuildings_from fuel bx v g) = Some v' /\
    valid_source (snd (UrbanityVisual.initBuildings_from fuel bx v g)) /\
    UrbanityVisual.base v' = UrbanityVisual.base v /\
    UrbanityVisual.buildings v' = UrbanityVisual.buildings v ++ bs /\
    UrbanityVisual.lights v' = UrbanityVisual.lights v ++ ls /\
    skyline (0.7 * hh) bx bs upto /\
    (bx <= upto /\ ww + 100 <= upto) /\
    Forall (fun b => UrbanityVisual.x b < ww + 100) bs /\
    Forall (fun l => exists b, In b bs /\ window_of hh b l) ls.
Proof.
  induction fuel as [|fuel IH]; intros bx v g Hg Hh Hfuel hh ww.
  - simpl in Hfuel. simpl.
    destruct (Rlt_dec bx (BaseVisual.width (UrbanityVisual.base v) + 100));
      [lra|].
    exists v, [], [], bx. unfold ret. cbn [fst snd].
    rewrite !app_nil_r.
    split; [reflexivity|]. split; [exact Hg|]. split; [reflexivity|].
    split; [reflexivity|]. split; [reflexivity|]. split; [reflexivity|].
    split; [unfold ww; lra|]. split; constructor.
  - cbn [UrbanityVisual.initBuildings_from].
    destruct (Rlt_dec bx (BaseVisual.width (UrbanityVisual.base v) + 100))
      as [Hlt | Hge].
    + unfold bind.
      destruct (addBuilding_spec v bx g Hg Hh)
        as [(b & ws & Eb & El & Ebase & Hx & Hw & Hbh & Hnext & Hws & _) Hsrc].
      destruct (UrbanityVisual.addBuilding v bx g) as [[v1 bx1] g1].
      cbn [fst snd] in *.
      assert (Hh1 : 0 <= BaseVisual.height (UrbanityVisual.base v1))
        by (rewrite Ebase; exact Hh).
      assert (Hf1 : BaseVisual.width (UrbanityVisual.base v1) + 100 - bx1
                    <= 45 * INR fuel).
      { rewrite Ebase, Hnext. rewrite S_INR in Hfuel. lra. }
      destruct (IH bx1 v1 g1 Hsrc Hh1 Hf1)
        as (v' & bs & ls & upto & E & Hs & B & Bs & Ls & Sk & Up & Fx & Fl).
      rewrite Ebase in Sk, Up, Fx, Fl. fold hh ww in Sk, Up, Fx, Fl.
      exists v', (b :: bs), (ws ++ ls), upto.
      split; [exact E|]. split; [exact Hs|].
      split; [now rewrite B|].
      split; [rewrite Bs, Eb, <- app_assoc; reflexivity|].
      split; [rewrite Ls, El, <- app_assoc; reflexivity|].
      split.
      { cbn [skyline]. split; [exact Hx|]. split; [exact Hw|].
        split; [exact Hbh|]. rewrite <- Hnext. exact Sk. }
      split; [split; lra|].
      split.
      { constructor; [rewrite Hx; exact Hlt | exact Fx]. }
      apply Forall_app. split.
      * eapply Forall_impl; [|exact Hws].
        intros l Hl. exists b. split; [now left | exact Hl].
      * eapply Forall_impl; [|exact Fl].
        intros l (b' & Hb' & Hl). exists b'. split; [now right | exact Hl].
    + exists v, [], [], bx. unfold ret. cbn [fst snd].
    rewrite !app_nil_r.
    split; [reflexivity|]. split; [exact Hg|]. split; [reflexivity|].
    split; [reflexivity|]. split; [reflexivity|]. split; [reflexivity|].
    split; [unfold ww; lra|]. split; constructor.
Qed.

(** X19: given enough rounds (45 px per round cover width + 100), the
    Urbanity constructor ends with a skyline: the first building starts at
    x = 0, each next one 5 px after the right edge of the one before, every
    building is between 40 and 120 wide and between 100 and 100 +
    0.7*height high and starts left of width + 100, and the row reaches
    width + 100 or beyond, so the whole width is built over. *)
Theorem Urbanity_skyline_covers_width
  (fuel : nat) (cw ch : R) (g : RandomSource) :
  valid_source g -> 0 <= cw -> 0 <= ch ->
  cw + 100 <= 45 * INR fuel ->
  exists v upto,
    fst (UrbanityVisual.new fuel cw ch g) = Some v /\
    UrbanityVisual.base v = BaseVisual.new cw ch /\
    skyline (0.7 * ch) 0 (UrbanityVisual.buildings v) upto /\
    cw + 100 <= upto /\
    UrbanityVisual.buildings v <> [] /\
    Forall (fun b => UrbanityVisual.x b < cw + 100)
           (UrbanityVisual.buildings v).
Proof.
  intros Hg Hw Hh Hfuel.
  unfold UrbanityVisual.new, UrbanityVisual.initBuildings.
  destruct (initBuildings_from_spec fuel 0
              {| UrbanityVisual.base := BaseVisual.new cw ch;
                 UrbanityVisual.buildings := [];
                 UrbanityVisual.lights := [] |} g Hg Hh
              ltac:(cbn; lra))
    as (v & bs & ls & upto & E & _ & B & Bs & _ & Sk & Up & Fx & _).
  cbn [UrbanityVisual.base UrbanityVisual.buildings app BaseVisual.new
       BaseVisual.height BaseVisual.width] in *.
  exists v, upto. rewrite Bs.
  split; [exact E|]. split; [exact B|]. split; [exact Sk|].
  assert (Hup : cw + 100 <= upto) by apply Up.
  split; [exact Hup|]. split; [|exact Fx].
  intros ->. cbn in Sk. lra.
Qed.

Lemma Urbanity_skyline_covers_width_witness :
  let g := const_source (1 / 2) in
  valid_source g /\ 0 <= 280 /\ 0 <= 200 /\ 280 + 100 <= 45 * INR 9 /\
  exists v, fst (UrbanityVisual.new 9 280 200 g) = Some v.
Proof.
  intros g.
  assert (Hg : valid_source g) by (intros n; unfold g, const_source; lra).
  assert (H1 : 0 <= 280) by lra. assert (H2 : 0 <= 200) by lra.
  assert (H3 : 280 + 100 <= 45 * INR 9) by (simpl; lra).
  split; [exact Hg|]. split; [exact H1|]. split; [exact H2|].
  split; [exact H3|].
  destruct (Urbanity_skyline_covers_width 9 280 200 g Hg H1 H2 H3)
    as (v & _ & E & _).
  exists v. exact E.
Defined.

(** X20: every window light the Urbanity constructor creates belongs to
    one of its buildings: it records that building's x and width, sits at
    the building's horizontal middle, and lies between 15 px below the roof
    and 15 px above the ground. *)
Theorem Urbanity_lights_inside_buildings
  (fuel : nat) (cw ch : R) (g : RandomSource) :
  valid_source g -> 0 <= cw -> 0 <= ch ->
  cw + 100 <= 45 * INR fuel ->
  exists v,
    fst (UrbanityVisual.new fuel cw ch g) = Some v /\
    Forall (fun l =>
              exists b, In b (UrbanityVisual.buildings v) /\
                UrbanityVisual.buildingX l = UrbanityVisual.x b /\
                UrbanityVisual.buildingWidth l = UrbanityVisual.width b /\
                UrbanityVisual.lx l
                  = UrbanityVisual.x b + UrbanityVisual.width b / 2 /\
                ch - UrbanityVisual.height b + 15 <= UrbanityVisual.ly l
                  <= ch - 15)
           (UrbanityVisual.lights v).
Proof.
  intros Hg Hw Hh Hfuel.
  unfold UrbanityVisual.new, UrbanityVisual.initBuildings.
  destruct (initBuildings_from_spec fuel 0
              {| UrbanityVisual.base := BaseVisual.new cw ch;
                 UrbanityVisual.buildings := [];
                 UrbanityVisual.lights := [] |} g Hg Hh
              ltac:(cbn; lra))
    as (v & bs & ls & upto & E & _ & _ & Bs & Ls & _ & _ & _ & Fl).
  cbn [UrbanityVisual.base UrbanityVisual.buildings UrbanityVisual.lights app
       BaseVisual.new BaseVisual.height BaseVisual.width] in *.
  exists v. split; [exact E|]. rewrite Ls, Bs.
  eapply Forall_impl; [|exact Fl].
  intros l (b & Hb & Hl). exists b. split; [exact Hb | exact Hl].
Qed.

Lemma Urbanity_lights_inside_buildings_witness :
  let g := const_source (1 / 2) in
  valid_source g /\ 0 <= 280 /\ 0 <= 200 /\ 280 + 100 <= 45 * INR 9 /\
  exists v, fst (UrbanityVisual.new 9 280 200 g) = Some v /\
            Forall (fun l => UrbanityVisual.ly l <= 200 - 15)
                   (UrbanityVisual.lights v).
Proof.
  intros g.
  assert (Hg : valid_source g) by (intros n; unfold g, const_source; lra).
  assert (H1 : 0 <= 280) by lra. assert (H2 : 0 <= 200) by lra.
  assert (H3 : 280 + 100 <= 45 * INR 9) by (simpl; lra).
  split; [exact Hg|]. split; [exact H1|]. split; [exact H2|].
  split; [exact H3|].
  destruct (Urbanity_lights_inside_buildings 9 280 200 g Hg H1 H2 H3)
    as (v & E & HF).
  exists v. split; [exact E|].
  eapply Forall_impl; [|exact HF].
  intros l (b & _ & _ & _ & _ & Hy). apply Hy.
Defined.

(** One [update] of the lights: light [i] takes the draw [g i], and the
    source moves on by one draw per light. *)
Lemma Urbanity_update_lights (ls : list UrbanityVisual.Light) :
  forall g,
  length (fst (forEachM UrbanityVisual.update_light ls g)) = length ls /\
  (forall k, snd (forEachM UrbanityVisual.update_light ls g) k
             = g (length ls + k)%nat) /\
  (forall i l, nth_error ls i = Some l ->
     nth_error (fst (forEachM UrbanityVisual.update_light ls g)) i
     = Some {| UrbanityVisual.lx := UrbanityVisual.lx l;
               UrbanityVisual.ly := UrbanityVisual.ly l;
               UrbanityVisual.buildingX := UrbanityVisual.buildingX l;
               UrbanityVisual.buildingWidth := UrbanityVisual.buildingWidth l;
               UrbanityVisual.on :=
                 if Rlt_dec (g i) 0.001 then negb (UrbanityVisual.on l)
                 else UrbanityVisual.on l;
               UrbanityVisual.flicker := UrbanityVisual.flicker l + 0.1 |}).
Proof.
  induction ls as [|l0 ls IH]; intros g.
  - split; [reflexivity|]. split; [intros k; reflexivity|].
    intros i l E. destruct i; discriminate E.
  - set (l1 := {| UrbanityVisual.lx := UrbanityVisual.lx l0;
                  UrbanityVisual.ly := UrbanityVisual.ly l0;
                  UrbanityVisual.buildingX := UrbanityVisual.buildingX l0;
                  UrbanityVisual.buildingWidth :=
                    UrbanityVisual.buildingWidth l0;
                  UrbanityVisual.on :=
                    if Rlt_dec (g 0%nat) 0.001
                    then negb (UrbanityVisual.on l0)
                    else UrbanityVisual.on l0;
                  UrbanityVisual.flicker := UrbanityVisual.flicker l0 + 0.1 |}).
    assert (E : forEachM UrbanityVisual.update_light (l0 :: ls) g
                = (l1 :: fst (forEachM UrbanityVisual.update_light ls
                                (fun n => g (S n))),
                   snd (forEachM UrbanityVisual.update_light ls
                          (fun n => g (S n))))).
    { cbn [forEachM]. unfold bind at 1.
      change (UrbanityVisual.update_light l0 g) with (l1, fun n => g (S n)).
      unfold bind.
      now destruct (forEachM UrbanityVisual.update_light ls
                      (fun n => g (S n))). }
    rewrite E. cbn [fst snd].
    destruct (IH (fun n => g (S n))) as (Hlen & Hsrc & Hnth).
    split; [cbn; now rewrite Hlen|]. split.
    + intros k. rewrite Hsrc. reflexivity.
    + intros i l El. destruct i as [|i]; cbn in El |- *.
      * now injection El as <-.
      * now apply Hnth.
Qed.

Lemma toggles_S (g g1 : RandomSource) (L i n : nat) :
  (forall k, g1 k = g (L + k)%nat) ->
  toggles g L i (S n)
  = ((if toggled g L i 0 then 1 else 0) + toggles g1 L i n)%nat.
Proof.
  intros Hg. unfold toggles.
  rewrite <- cons_seq, <- seq_shift. cbn [filter].
  assert (E : length (filter (toggled g L i) (map S (seq 0 n)))
              = length (filter (toggled g1 L i) (seq 0 n))).
  { induction (seq 0 n) as [|t ts IH]; [reflexivity|].
    cbn [map filter].
    assert (Et : toggled g L i (S t) = toggled g1 L i t).
    { unfold toggled. rewrite Hg.
      replace (S t * L + i)%nat with (L + (t * L + i))%nat by lia.
      reflexivity. }
    rewrite Et. destruct (toggled g1 L i t); cbn [length]; now rewrite IH. }
  destruct (toggled g L i 0); cbn [length]; now rewrite E.
Qed.

(** X21: after [n] updates of an Urbanity instance with [L] window lights
    the buildings and the position of every light are as before, the clock
    has advanced by 0.016 * n and every flicker phase by 0.1 * n; each
    update has taken exactly one random number per light, in order, so the
    source has moved on by n * L draws; and light [i] is on exactly when
    its first state is inverted an odd number of times, once for each frame
    t < n whose draw g (t * L + i) is below 0.001. *)
Theorem Urbanity_update_keeps_layout
  (n : nat) (v : UrbanityVisual.t) (g : RandomSource) :
  let L := length (UrbanityVisual.lights v) in
  let r := ticks UrbanityVisual.update n v g in
  UrbanityVisual.buildings (fst r) = UrbanityVisual.buildings v /\
  BaseVisual.time (UrbanityVisual.base (fst r))
    = BaseVisual.time (UrbanityVisual.base v) + 0.016 * INR n /\
  (forall k, snd r k = g (n * L + k)%nat) /\
  length (UrbanityVisual.lights (fst r)) = L /\
  (forall i l, nth_error (UrbanityVisual.lights v) i = Some l ->
     exists l',
       nth_error (UrbanityVisual.lights (fst r)) i = Some l' /\
       UrbanityVisual.lx l' = UrbanityVisual.lx l /\
       UrbanityVisual.ly l' = UrbanityVisual.ly l /\
       UrbanityVisual.buildingX l' = UrbanityVisual.buildingX l /\
       UrbanityVisual.buildingWidth l' = UrbanityVisual.buildingWidth l /\
       UrbanityVisual.flicker l'
         = UrbanityVisual.flicker l + 0.1 * INR n /\
       UrbanityVisual.on l'
         = xorb (UrbanityVisual.on l) (Nat.odd (toggles g L i n))).
Proof.
  revert v g. induction n as [|n IH]; intros v g L r.
  - unfold r. cbn [ticks ret fst snd]. split; [reflexivity|].
    split; [simpl; lra|]. split; [intros k; reflexivity|].
    split; [reflexivity|].
    intros i l E. exists l. split; [exact E|].
    repeat (split; [reflexivity|]). split; [simpl; lra|].
    unfold toggles. cbn. now rewrite xorb_false_r.
  - set (ls1 := fst (forEachM UrbanityVisual.update_light
                         (UrbanityVisual.lights v) g)).
    set (g1 := snd (forEachM UrbanityVisual.update_light
                        (UrbanityVisual.lights v) g)).
    set (v1 := {| UrbanityVisual.base :=
                    BaseVisual.update (UrbanityVisual.base v);
                  UrbanityVisual.buildings := UrbanityVisual.buildings v;
                  UrbanityVisual.lights := ls1 |}).
    assert (Eup : UrbanityVisual.update v g = (v1, g1)).
    { unfold UrbanityVisual.update, bind, ret, v1, ls1, g1.
      now destruct (forEachM UrbanityVisual.update_light
                      (UrbanityVisual.lights v) g). }
    assert (Er : r = ticks UrbanityVisual.update n v1 g1).
    { unfold r. cbn [ticks]. unfold bind. now rewrite Eup. }
    rewrite Er.
    destruct (Urbanity_update_lights (UrbanityVisual.lights v) g)
      as (Hlen & Hsrc & Hnth).
    fold ls1 in Hlen, Hnth. fold g1 in Hsrc.
    specialize (IH v1 g1). cbv zeta in IH.
    change (UrbanityVisual.lights v1) with ls1 in IH.
    change (UrbanityVisual.buildings v1) with (UrbanityVisual.buildings v) in IH.
    change (BaseVisual.time (UrbanityVisual.base v1))
      with (BaseVisual.time (UrbanityVisual.base v) + 0.016) in IH.
    rewrite Hlen in IH. fold L in IH.
    destruct IH as (Hb & Ht & Hs & Hl & Hi).
    split; [exact Hb|]. split; [rewrite Ht, S_INR; lra|]. split.
    { intros k. rewrite Hs, Hsrc. fold L. f_equal. simpl. lia. }
    split; [exact Hl|].
    intros i l El.
    destruct (Hi i _ (Hnth i l El))
      as (l' & El' & Hx & Hy & Hbx & Hbw & Hf & Hon).
    exists l'. split; [exact El'|].
    cbn [UrbanityVisual.lx UrbanityVisual.ly UrbanityVisual.buildingX
         UrbanityVisual.buildingWidth UrbanityVisual.flicker
         UrbanityVisual.on] in Hx, Hy, Hbx, Hbw, Hf, Hon.
    split; [exact Hx|]. split; [exact Hy|]. split; [exact Hbx|].
    split; [exact Hbw|]. split; [rewrite Hf, S_INR; lra|].
    rewrite Hon, (toggles_S g g1 L i n) by (intros k; rewrite Hsrc; reflexivity).
    rewrite Nat.odd_add.
    unfold toggled at 1. cbn [Nat.mul Nat.add].
    destruct (Rlt_dec (g i) 0.001); cbn [Nat.odd].
    + destruct (UrbanityVisual.on l), (Nat.odd (toggles g1 L i n));
        reflexivity.
    + destruct (UrbanityVisual.on l), (Nat.odd (toggles g1 L i n));
        reflexivity.
Qed.

(** X22: on a surface of positive size [UrbanityVisual.render] paints the
    sky, 100 stars, one rectangle per building and one light per window
    that is on, in that order.  Every star lies in the upper half of the
    surface with an alpha in [0, 0.8]; every building stands on the bottom
    edge; every lit window has a brightness in [0.2, 0.8]. *)
Theorem Urbanity_render_layers (v : UrbanityVisual.t) :
  0 < BaseVisual.width (UrbanityVisual.base v) ->
  0 < BaseVisual.height (UrbanityVisual.base v) ->
  let w := BaseVisual.width (UrbanityVisual.base v) in
  let h := BaseVisual.height (UrbanityVisual.base v) in
  exists stars blocks windows,
    snd (UrbanityVisual.render v)
      = Fill 0 0 w h :: stars ++ blocks ++ windows /\
    length stars = 100%nat /\
    Forall (fun sh => match sh with
                      | Star x y alpha =>
                          0 <= x < w /\ 0 <= y < h * 0.5 /\ 0 <= alpha <= 0.8
                      | _ => False
                      end) stars /\
    Forall2 (fun b sh => match sh with
                         | Fill x y bw bh =>
                             x = UrbanityVisual.x b /\
                             bw = UrbanityVisual.width b /\
                             bh = UrbanityVisual.height b /\
                             y + bh = h
                         | _ => False
                         end) (UrbanityVisual.buildings v) blocks /\
    length windows
      = length (filter UrbanityVisual.on (UrbanityVisual.lights v)) /\
    Forall (fun sh => match sh with
                      | WindowLight _ _ brightness => 0.2 <= brightness <= 0.8
                      | _ => False
                      end) windows.
Proof.
  intros Hw Hh w h. unfold UrbanityVisual.render. cbn [snd].
  do 3 eexists. split; [reflexivity|].
  split; [now rewrite length_map, length_seq|]. split; [|split; [|split]].
  - rewrite Forall_map, Forall_forall. intros i _.
    unfold UrbanityVisual.draw_star, w, h.
    pose proof (pos_INR i).
    split; [apply rem_range; lra|].
    split; [apply rem_range; lra|].
    match goal with |- context [sin ?a] => pose proof (SIN_bound a) end. lra.
  - induction (UrbanityVisual.buildings v) as [|b bs IH]; simpl;
      constructor; [|exact IH].
    unfold h. repeat split; lra.
  - induction (UrbanityVisual.lights v) as [|l ls IH]; simpl; [reflexivity|].
    rewrite length_app, IH. unfold UrbanityVisual.draw_light.
    destruct (UrbanityVisual.on l); reflexivity.
  - rewrite Forall_forall. intros sh Hsh. apply in_flat_map in Hsh.
    destruct Hsh as (l & _ & Hsh). unfold UrbanityVisual.draw_light in Hsh.
    destruct (UrbanityVisual.on l); [|contradiction].
    destruct Hsh as [<- | []].
    pose proof (SIN_bound (UrbanityVisual.flicker l)). lra.
Qed.

Lemma Urbanity_render_layers_witness :
  let v := {| UrbanityVisual.base := BaseVisual.mk 280 200 0 1;
              UrbanityVisual.buildings := [UrbanityVisual.mkBuilding 0 50 120 15];
              UrbanityVisual.lights :=
                [UrbanityVisual.mkLight 25 95 0 50 true 0] |} in
  0 < BaseVisual.width (UrbanityVisual.base v) /\
  0 < BaseVisual.height (UrbanityVisual.base v) /\
  length (snd (UrbanityVisual.render v)) = 103%nat.
Proof.
  intros v.
  assert (H1 : 0 < BaseVisual.width (UrbanityVisual.base v)) by (simpl; lra).
  assert (H2 : 0 < BaseVisual.height (UrbanityVisual.base v)) by (simpl; lra).
  split; [exact H1|]. split; [exact H2|].
  destruct (Urbanity_render_layers v H1 H2)
    as (stars & blocks & windows & E & Hs & _ & Hb & Hwn & _).
  rewrite E. cbn [length]. rewrite !length_app, Hs, Hwn.
  apply Forall2_length in Hb. rewrite <- Hb. reflexivity.
Defined.

(** ** Render on a context *)

Lemma render_frame (e : Visual) (c : Ctx.t) :
  render e c
  = {| instance := rendered e;
       context := fst (Ctx.run (render_calls e) c);
       canvas := snd (Ctx.run (render_calls e) c) |}.
Proof. unfold render. now destruct (Ctx.run (render_calls e) c). Qed.

Lemma rendered_same (e : Visual) : rendered e = e.
Proof. destruct e; reflexivity. Qed.

Lemma Ctx_run_fills {A} (f : A -> Shape) (xs : list A) (c : Ctx.t) :
  Ctx.run (map (fun x => Ctx.fill (f x)) xs) c
  = (c, map (fun x => Ctx.filled c (f x)) xs).
Proof.
  apply (Ctx_run_map_neutral (fun x => Ctx.fill (f x))
           (fun c x => Ctx.filled c (f x))).
  intros; reflexivity.
Qed.

Lemma Ctx_run_strokes {A} (f : A -> Shape) (xs : list A) (c : Ctx.t) :
  Ctx.run (map (fun x => Ctx.stroke (f x)) xs) c
  = (c, map (fun x => Ctx.stroked c (f x)) xs).
Proof.
  apply (Ctx_run_map_neutral (fun x => Ctx.stroke (f x))
           (fun c x => Ctx.stroked c (f x))).
  intros; reflexivity.
Qed.

(** Fills between [save] and [restore] leave the context as it was. *)
Lemma Ctx_run_saved_fills (ss : list Shape) (c : Ctx.t) :
  Ctx.run (Ctx.save :: map Ctx.fill ss ++ [Ctx.restore]) c
  = (c, map (Ctx.filled c) ss).
Proof.
  rewrite Ctx_run_cons. cbn [Ctx.step fst snd app].
  rewrite Ctx_run_app.
  rewrite (Ctx_run_map_neutral Ctx.fill Ctx.filled) by (intros; reflexivity).
  cbn. now rewrite Ctx_eta, app_nil_r.
Qed.

Lemma Mosaic_render_context (v : MosaicVisual.t) (c : Ctx.t) :
  fst (Ctx.run (MosaicVisual.render_calls v) c) = c.
Proof.
  unfold MosaicVisual.render_calls. rewrite Ctx_run_cons. cbn [Ctx.step fst].
  now rewrite (Ctx_run_map_neutral Ctx.stroke_closed Ctx.outlined)
    by (intros; reflexivity).
Qed.

Lemma Smoke_render_context (v : SmokeVisual.t) (c : Ctx.t) :
  fst (Ctx.run (SmokeVisual.render_calls v) c) = c.
Proof.
  unfold SmokeVisual.render_calls. rewrite Ctx_run_cons. cbn [Ctx.step fst].
  now rewrite Ctx_run_fills.
Qed.

Lemma LightShade_render_context (v : LightShadeVisual.t) (c : Ctx.t) :
  fst (Ctx.run (LightShadeVisual.render_calls v) c) = c.
Proof.
  unfold LightShadeVisual.render_calls. rewrite Ctx_run_cons.
  cbn [Ctx.step fst]. now rewrite Ctx_run_fills.
Qed.

Lemma Sunset_render_context (v : SunsetVisual.t) (c : Ctx.t) :
  fst (Ctx.run (SunsetVisual.render_calls v) c) = c.
Proof.
  unfold SunsetVisual.render_calls.
  set (s := BaseVisual.scale (SunsetVisual.base v) * SunsetVisual.zoomOut v).
  rewrite !Ctx_run_cons. cbn [Ctx.step fst].
  rewrite (Ctx_run_flat_map_neutral (SunsetVisual.cloud_calls v s)
             (fun c i => map (Ctx.filled c) (SunsetVisual.cloud v s i))).
  - reflexivity.
  - intros i _. apply Ctx_run_saved_fills.
Qed.

Lemma Bloom_render_context (v : BloomVisual.t) (c : Ctx.t) :
  fst (Ctx.run (BloomVisual.render_calls v) c) = c.
Proof.
  unfold BloomVisual.render_calls.
  rewrite Ctx_run_cons. cbn [Ctx.step fst].
  rewrite Ctx_run_app, Ctx_run_fills. cbn [fst].
  rewrite (Ctx_run_flat_map_neutral
             (BloomVisual.bloom_calls
                (BaseVisual.time (BloomVisual.base v)))
             (fun c b => [Ctx.stroked c
                            (BloomVisual.draw_bloom
                               (BaseVisual.time (BloomVisual.base v)) b)])).
  - reflexivity.
  - intros b _. cbn. now rewrite Ctx_eta.
Qed.

(** Streets sets the cap and the join before its first stroke: what it
    paints depends on the alpha found only. *)
Lemma Streets_render_canvas (v : StreetsVisual.t) (c : Ctx.t) :
  let w := BaseVisual.width (StreetsVisual.base v) in
  let h := BaseVisual.height (StreetsVisual.base v) in
  Ctx.run (StreetsVisual.render_calls v) c
  = (Ctx.rounded c,
     Ctx.filled c (Fill 0 0 w h)
     :: Ctx.stroked (Ctx.rounded c) (StreetScene w h)
     :: map (fun car => Ctx.stroked (Ctx.rounded c)
                          (StreetsVisual.draw_car w h car))
            (StreetsVisual.cars v)).
Proof.
  intros w h. unfold StreetsVisual.render_calls. fold w h.
  rewrite !Ctx_run_cons. cbn [Ctx.step fst snd app].
  now rewrite Ctx_run_strokes.
Qed.

Lemma Ctx_with_globalAlpha_keeps (a : R) (c : Ctx.t) :
  Ctx.lineCap (Ctx.now (Ctx.with_globalAlpha a c)) = Ctx.lineCap (Ctx.now c) /\
  Ctx.lineJoin (Ctx.now (Ctx.with_globalAlpha a c)) = Ctx.lineJoin (Ctx.now c) /\
  Ctx.saved (Ctx.with_globalAlpha a c) = Ctx.saved c.
Proof.
  unfold Ctx.with_globalAlpha.
  destruct (Rle_dec 0 a); [destruct (Rle_dec a 1)|]; repeat split.
Qed.

Lemma Ctx_with_globalAlpha_one (c : Ctx.t) :
  Ctx.with_globalAlpha 1 c = Ctx.opaque c.
Proof.
  unfold Ctx.with_globalAlpha.
  destruct (Rle_dec 0 1); [destruct (Rle_dec 1 1)|]; try reflexivity; lra.
Qed.

Lemma Urbanity_stars_context (v : UrbanityVisual.t) (ixs : list nat) :
  forall c,
  let c' := fst (Ctx.run (flat_map (UrbanityVisual.star_calls v) ixs) c) in
  Ctx.lineCap (Ctx.now c') = Ctx.lineCap (Ctx.now c) /\
  Ctx.lineJoin (Ctx.now c') = Ctx.lineJoin (Ctx.now c) /\
  Ctx.saved c' = Ctx.saved c.
Proof.
  induction ixs as [|i ixs IH]; intros c; [repeat split|].
  cbn [flat_map]. rewrite Ctx_run_app. cbn [fst].
  set (a := (sin (BaseVisual.time (UrbanityVisual.base v) * 2 + INR i) * 0.5
             + 0.5) * 0.8).
  assert (Hstep : fst (Ctx.run (UrbanityVisual.star_calls v i) c)
                  = Ctx.with_globalAlpha a c) by reflexivity.
  rewrite Hstep.
  destruct (IH (Ctx.with_globalAlpha a c)) as (H1 & H2 & H3).
  destruct (Ctx_with_globalAlpha_keeps a c) as (K1 & K2 & K3).
  cbv zeta in *. rewrite H1, H2, H3. repeat split; assumption.
Qed.

(** Urbanity leaves the alpha at 1 and the cap, the join and the stack as
    found. *)
Lemma Urbanity_render_context (v : UrbanityVisual.t) (c : Ctx.t) :
  fst (Ctx.run (UrbanityVisual.render_calls v) c) = Ctx.opaque c.
Proof.
  unfold UrbanityVisual.render_calls.
  rewrite Ctx_run_cons. cbn [Ctx.step fst].
  rewrite Ctx_run_app. cbn [fst].
  destruct (Urbanity_stars_context v (seq 0 100) c) as (H1 & H2 & H3).
  cbv zeta in *.
  set (c1 := fst (Ctx.run (flat_map (UrbanityVisual.star_calls v) (seq 0 100)) c))
    in *.
  rewrite Ctx_run_cons. cbn [Ctx.step fst].
  rewrite Ctx_run_app. cbn [fst]. rewrite !Ctx_run_fills. cbn [fst].
  rewrite Ctx_with_globalAlpha_one.
  unfold Ctx.opaque. now rewrite H1, H2, H3.
Qed.

Lemma Ctx_opaque_fix (c : Ctx.t) :
  Ctx.globalAlpha (Ctx.now c) = 1 -> Ctx.opaque c = c.
Proof. destruct c as [[k j a] st]. cbn. now intros ->. Qed.

(** *** The calls draw the shapes of [render] *)

Lemma Ctx_drawn_map {A} (f : A -> Ctx.Op) (g : A -> Shape) (xs : list A) :
  (forall x, Ctx.drawn_by (f x) = [g x]) ->
  Ctx.drawn (map f xs) = map g xs.
Proof.
  intros H. unfold Ctx.drawn.
  induction xs as [|x xs IH]; simpl; [reflexivity|].
  now rewrite H, IH.
Qed.

Lemma Ctx_drawn_app (ops1 ops2 : list Ctx.Op) :
  Ctx.drawn (ops1 ++ ops2) = Ctx.drawn ops1 ++ Ctx.drawn ops2.
Proof. apply flat_map_app. Qed.

Lemma Ctx_drawn_flat_map {A} (f : A -> list Ctx.Op) (g : A -> list Shape)
  (xs : list A) :
  (forall x, Ctx.drawn (f x) = g x) ->
  Ctx.drawn (flat_map f xs) = flat_map g xs.
Proof.
  intros H. induction xs as [|x xs IH]; simpl; [reflexivity|].
  now rewrite Ctx_drawn_app, H, IH.
Qed.

Lemma Mosaic_calls_draw (v : MosaicVisual.t) :
  Ctx.drawn (MosaicVisual.render_calls v) = snd (MosaicVisual.render v).
Proof.
  unfold MosaicVisual.render_calls, MosaicVisual.render. cbn [snd].
  change (Ctx.drawn (?o :: ?ops)) with (Ctx.drawn_by o ++ Ctx.drawn ops).
  cbn [Ctx.drawn_by app]. f_equal.
  rewrite (Ctx_drawn_map Ctx.stroke_closed (fun s => s))
    by (intros; reflexivity).
  apply map_id.
Qed.

Lemma Smoke_calls_draw (v : SmokeVisual.t) :
  Ctx.drawn (SmokeVisual.render_calls v) = snd (SmokeVisual.render v).
Proof.
  unfold SmokeVisual.render_calls, SmokeVisual.render. cbn [snd].
  change (Ctx.drawn (?o :: ?ops)) with (Ctx.drawn_by o ++ Ctx.drawn ops).
  cbn [Ctx.drawn_by app]. f_equal.
  now apply Ctx_drawn_map.
Qed.

Lemma LightShade_calls_draw (v : LightShadeVisual.t) :
  Ctx.drawn (LightShadeVisual.render_calls v)
  = snd (LightShadeVisual.render v).
Proof.
  unfold LightShadeVisual.render_calls, LightShadeVisual.render. cbn [snd].
  change (Ctx.drawn (?o :: ?ops)) with (Ctx.drawn_by o ++ Ctx.drawn ops).
  cbn [Ctx.drawn_by app]. f_equal.
  now apply Ctx_drawn_map.
Qed.

Lemma Sunset_calls_draw (v : SunsetVisual.t) :
  Ctx.drawn (SunsetVisual.render_calls v) = snd (SunsetVisual.render v).
Proof.
  unfold SunsetVisual.render_calls, SunsetVisual.render,
    SunsetVisual.drawClouds. cbn [snd].
  set (s := BaseVisual.scale (SunsetVisual.base v) * SunsetVisual.zoomOut v).
  change (Ctx.drawn (?a :: ?b :: ?c :: ?ops))
    with (Ctx.drawn_by a ++ Ctx.drawn_by b ++ Ctx.drawn_by c ++ Ctx.drawn ops).
  cbn [Ctx.drawn_by app]. do 3 apply f_equal.
  apply Ctx_drawn_flat_map. intros i.
  unfold SunsetVisual.cloud_calls.
  change (Ctx.drawn (Ctx.save :: ?ops)) with (Ctx.drawn ops).
  rewrite Ctx_drawn_app.
  rewrite (Ctx_drawn_map Ctx.fill (fun s => s)) by (intros; reflexivity).
  rewrite map_id. apply app_nil_r.
Qed.

Lemma flat_map_singleton {A B} (f : A -> B) (xs : list A) :
  flat_map (fun x => [f x]) xs = map f xs.
Proof. induction xs as [|x xs IH]; simpl; [reflexivity | now rewrite IH]. Qed.

Lemma Bloom_calls_draw (v : BloomVisual.t) :
  Ctx.drawn (BloomVisual.render_calls v) = snd (BloomVisual.render v).
Proof.
  unfold BloomVisual.render_calls, BloomVisual.render. cbn [snd].
  change (Ctx.drawn (?o :: ?ops)) with (Ctx.drawn_by o ++ Ctx.drawn ops).
  cbn [Ctx.drawn_by app]. apply f_equal.
  rewrite Ctx_drawn_app.
  rewrite (Ctx_drawn_map _
             (BloomVisual.draw_spot (BaseVisual.width (BloomVisual.base v))
                                    (BaseVisual.height (BloomVisual.base v))))
    by (intros; reflexivity).
  apply f_equal.
  rewrite (Ctx_drawn_flat_map _
             (fun b => [BloomVisual.draw_bloom
                          (BaseVisual.time (BloomVisual.base v)) b]))
    by (intros; reflexivity).
  apply flat_map_singleton.
Qed.

Lemma Streets_calls_draw (v : StreetsVisual.t) :
  Ctx.drawn (StreetsVisual.render_calls v) = snd (StreetsVisual.render v).
Proof.
  unfold StreetsVisual.render_calls, StreetsVisual.render. cbn [snd].
  change (Ctx.drawn (?a :: ?b :: ?c :: ?d :: ?ops))
    with (Ctx.drawn_by a ++ Ctx.drawn_by b ++ Ctx.drawn_by c
          ++ Ctx.drawn_by d ++ Ctx.drawn ops).
  cbn [Ctx.drawn_by app]. do 2 apply f_equal.
  now apply Ctx_drawn_map.
Qed.

Lemma Urbanity_calls_draw (v : UrbanityVisual.t) :
  Ctx.drawn (UrbanityVisual.render_calls v) = snd (UrbanityVisual.render v).
Proof.
  unfold UrbanityVisual.render_calls, UrbanityVisual.render. cbn [snd].
  change (Ctx.drawn (?o :: ?ops)) with (Ctx.drawn_by o ++ Ctx.drawn ops).
  cbn [Ctx.drawn_by app]. apply f_equal.
  rewrite Ctx_drawn_app.
  rewrite (Ctx_drawn_flat_map _ (fun i => [UrbanityVisual.draw_star v i]))
    by (intros; reflexivity).
  rewrite flat_map_singleton. apply f_equal.
  change (Ctx.drawn (?o :: ?ops)) with (Ctx.drawn_by o ++ Ctx.drawn ops).
  cbn [Ctx.drawn_by app]. rewrite Ctx_drawn_app.
  rewrite (Ctx_drawn_map _ (UrbanityVisual.draw_building v))
    by (intros; reflexivity).
  apply f_equal.
  rewrite (Ctx_drawn_map Ctx.fill (fun s => s)) by (intros; reflexivity).
  apply map_id.
Qed.

Lemma render_context (e : Visual) (c : Ctx.t) :
  fst (Ctx.run (render_calls e) c) = left_by e c.
Proof.
  destruct e as [v | v | v | v | v | v | v | v]; cbn [render_calls left_by].
  - apply Mosaic_render_context.
  - apply Smoke_render_context.
  - apply LightShade_render_context.
  - pose proof (Lanterns_render_canvas v c) as H. cbv zeta in H.
    now rewrite H.
  - apply Sunset_render_context.
  - apply Bloom_render_context.
  - pose proof (Streets_render_canvas v c) as H. cbv zeta in H.
    now rewrite H.
  - apply Urbanity_render_context.
Qed.

(** The context a [render] leaves is one a further [render] leaves as it
    is. *)
Lemma left_by_idem (e : Visual) (c : Ctx.t) :
  left_by e (left_by e c) = left_by e c.
Proof.
  destruct e as [v | v | v | v | v | v | v | v]; cbn [left_by];
    try reflexivity.
  unfold LanternsVisual.after.
  destruct (LanternsVisual.from_branch (LanternsVisual.drawables v));
    reflexivity.
Qed.

(** Lanterns on a settled context: the second [render] paints what the
    first painted. *)
Lemma Lanterns_settled_same (v : LanternsVisual.t) (c : Ctx.t) :
  settled (Lanterns v) c ->
  snd (Ctx.run (snd (LanternsVisual.render v))
               (LanternsVisual.after (LanternsVisual.drawables v) c))
  = snd (Ctx.run (snd (LanternsVisual.render v)) c).
Proof.
  intros Hs. cbn [settled] in Hs.
  unfold LanternsVisual.after.
  destruct (LanternsVisual.from_branch (LanternsVisual.drawables v))
    as [|d rest] eqn:Eb; [reflexivity|].
  pose proof (Lanterns_render_canvas v c) as H1.
  pose proof (Lanterns_render_canvas v (Ctx.rounded c)) as H2.
  cbv zeta in H1, H2. rewrite H1, H2. cbn [snd].
  destruct Hs as [[Hc Hj] | Hlead].
  - now rewrite !(Ctx_rounded_fix c Hc Hj).
  - rewrite Hlead. reflexivity.
Qed.

(** Lanterns on a context whose cap or join is not round, with a lantern
    sorted before the first branch: the ribs of that lantern are stroked
    with the cap and the join found in the first [render] and with round
    ones in the second. *)
Lemma Lanterns_unsettled_differs (v : LanternsVisual.t) (c : Ctx.t) :
  LanternsVisual.obstructions v <> [] ->
  LanternsVisual.leading (LanternsVisual.drawables v) <> [] ->
  Ctx.lineCap (Ctx.now c) <> Ctx.cap_round \/
  Ctx.lineJoin (Ctx.now c) <> Ctx.join_round ->
  snd (Ctx.run (snd (LanternsVisual.render v))
               (LanternsVisual.after (LanternsVisual.drawables v) c))
  <> snd (Ctx.run (snd (LanternsVisual.render v)) c).
Proof.
  intros Hob Hlead Hcj.
  pose proof (Lanterns_render_canvas v c) as H1.
  pose proof (Lanterns_render_canvas v (Ctx.rounded c)) as H2.
  cbv zeta in H1, H2.
  rewrite (Lanterns_after_rounded v c Hob), H1, H2. cbn [snd].
  pose proof (Lanterns_leading_lanterns (LanternsVisual.drawables v)) as Hl.
  destruct (LanternsVisual.leading (LanternsVisual.drawables v))
    as [|d lead]; [congruence|].
  inversion Hl as [|d' lead' Hd Hrest]; subst. destruct Hd as (l & El).
  cbn [flat_map]. unfold LanternsVisual.painted at 1 4. rewrite El.
  cbn [app]. intros E.
  injection E as Ecap Ejoin _.
  destruct Hcj as [Hc | Hj]; [apply Hc | apply Hj]; congruence.
Qed.

(** A lantern whose depth is below the depth of every branch is sorted
    before the first branch. *)
Lemma Lanterns_leading_nonempty (v : LanternsVisual.t)
  (l : LanternsVisual.Lantern) :
  In l (LanternsVisual.lanterns v) ->
  (forall o, In o (LanternsVisual.obstructions v) ->
             LanternsVisual.lanternDepth v l < LanternsVisual.ob_depth o) ->
  LanternsVisual.leading (LanternsVisual.drawables v) <> [].
Proof.
  intros Hl Hlow.
  pose proof (Lanterns_lantern_drawable v l Hl) as Hd.
  pose proof (Lanterns_drawables_sorted v) as Hs.
  pose proof (Lanterns_drawables_perm v) as Hperm.
  destruct (LanternsVisual.drawables v) as [|d0 rest] eqn:E;
    [destruct Hd|].
  cbn [LanternsVisual.leading].
  destruct (LanternsVisual.item d0) as [o | l0] eqn:E0; [|discriminate].
  exfalso.
  assert (Hin0 : In d0 (LanternsVisual.merged v)).
  { apply (Permutation_in _ Hperm). now left. }
  unfold LanternsVisual.merged in Hin0. apply in_app_or in Hin0.
  destruct Hin0 as [Hin0 | Hin0]; apply in_map_iff in Hin0;
    destruct Hin0 as (x & Ex & Hx); subst d0; cbn in E0; [|discriminate].
  injection E0 as ->.
  specialize (Hlow o Hx).
  inversion Hs as [|d0' rest' Hs' Hall]; subst.
  destruct Hd as [Hd | Hd].
  - discriminate Hd.
  - rewrite Forall_forall in Hall. specialize (Hall _ Hd). cbn in Hall. lra.
Qed.

(** X26: [render] leaves the instance as it finds it, and the shapes it
    draws are those of its drawing calls, whatever the context.  What
    reaches the canvas also depends on the alpha, the line cap and the line
    join the context holds on entry.  A [render] leaves the context in a
    state a further [render] leaves unchanged, so the third [render] paints
    what the second painted; the second paints what the first painted when
    the alpha found by the first is 1 and, for Lanterns, the cap and the
    join found are round or no lantern is sorted before the first branch;
    for Lanterns with a branch it paints something else when that is not
    so. *)
Theorem render_leaves_state (e : Visual) (c : Ctx.t) :
  let first := render e c in
  let second := render (instance first) (context first) in
  let third := render (instance second) (context second) in
  instance first = e /\
  map Ctx.shape (canvas first) = Ctx.drawn (render_calls e) /\
  context first = left_by e c /\
  context second = context first /\
  canvas third = canvas second /\
  (Ctx.globalAlpha (Ctx.now c) = 1 -> settled e c ->
   canvas second = canvas first) /\
  (forall v, e = Lanterns v ->
     LanternsVisual.obstructions v <> [] -> ~ settled e c ->
     canvas second <> canvas first).
Proof.
  intros first second third.
  assert (H1 : first = {| instance := e; context := left_by e c;
                          canvas := snd (Ctx.run (render_calls e) c) |}).
  { unfold first. now rewrite render_frame, rendered_same, render_context. }
  assert (H2 : second
               = {| instance := e; context := left_by e c;
                    canvas := snd (Ctx.run (render_calls e) (left_by e c)) |}).
  { unfold second. rewrite H1. cbn [instance context].
    now rewrite render_frame, rendered_same, render_context, left_by_idem. }
  assert (H3 : third = second).
  { unfold third. rewrite H2 at 1 2. cbn [instance context].
    rewrite render_frame, rendered_same, render_context, left_by_idem.
    now rewrite H2. }
  rewrite H3, H2, H1. cbn [instance context canvas].
  split; [reflexivity|]. split; [apply Ctx_run_shapes|].
  split; [reflexivity|]. split; [reflexivity|]. split; [reflexivity|].
  split.
  - intros Ha Hs.
    destruct e as [v | v | v | v | v | v | v | v]; cbn [left_by];
      try reflexivity;
      try (pose proof (Streets_render_canvas v c) as R1;
           pose proof (Streets_render_canvas v (Ctx.rounded c)) as R2;
           cbv zeta in R1, R2; cbn [render_calls]; rewrite R1, R2;
           reflexivity).
    + now apply Lanterns_settled_same.
    + now rewrite (Ctx_opaque_fix c Ha).
  - intros v -> Hob Hns. cbn [left_by render_calls].
    apply Lanterns_unsettled_differs; [exact Hob | |].
    + intros Hlead. apply Hns. cbn [settled]. now right.
    + destruct (Ctx.lineCap (Ctx.now c)) eqn:Ec;
        try (left; discriminate).
      destruct (Ctx.lineJoin (Ctx.now c)) eqn:Ej;
        try (right; discriminate).
      exfalso. apply Hns. cbn [settled]. left.
      split; assumption.
Qed.

Lemma render_leaves_state_witness :
  let o := LanternsVisual.mkObstruction 0.22 0 4 in
  let l := LanternsVisual.mkLantern 0 10 20 0 0 0 0 0 0 0 in
  let e := Lanterns {| LanternsVisual.base := BaseVisual.new 280 200;
                       LanternsVisual.lanterns := [l];
                       LanternsVisual.obstructions := [o] |} in
  let first := render e Ctx.created in
  let second := render (instance first) (context first) in
  Ctx.globalAlpha (Ctx.now Ctx.created) = 1 /\
  settled e Ctx.created /\
  canvas second = canvas first.
Proof.
  intros o l e first second.
  assert (Ha : Ctx.globalAlpha (Ctx.now Ctx.created) = 1) by reflexivity.
  assert (Hs : settled e Ctx.created).
  { right. unfold LanternsVisual.drawables, LanternsVisual.merged.
    cbn [LanternsVisual.obstructions LanternsVisual.lanterns map app
         array_sort sort_insert].
    destruct (Rle_dec _ 0) as [Hle | Hnle]; [reflexivity|].
    exfalso. apply Hnle.
    unfold LanternsVisual.byDepth, LanternsVisual.depth,
      LanternsVisual.lanternDepth.
    rewrite clampedY_inside by (simpl; lra). simpl.
    assert (Hq : 10 / (200 + 20 * 4) < 1 / 2).
    { apply (Rmult_lt_reg_r (200 + 20 * 4)); [lra|].
      unfold Rdiv at 1. rewrite Rmult_assoc, Rinv_l by lra. lra. }
    lra. }
  destruct (render_leaves_state e Ctx.created) as (_ & _ & _ & _ & _ & H & _).
  split; [exact Ha|]. split; [exact Hs|]. exact (H Ha Hs).
Defined.

(** *** A first render that differs from the second *)

Lemma for_push_head {A} (n start : nat) (body : nat -> Rnd A) g :
  exists rest,
    fst (for_push (S n) start body g) = fst (body start g) :: rest.
Proof.
  cbn [for_push]. unfold bind. destruct (body start g) as [a g1].
  destruct (for_push n (S start) body g1) as [xs g2].
  exists xs. reflexivity.
Qed.

Lemma visualScale_224_1000 : visualScale 224 1000 = 2.
Proof.
  unfold visualScale, REF_AREA.
  replace (224 * 1000 / (280 * 200)) with (2 * 2) by (field; lra).
  apply sqrt_square. lra.
Qed.

(** C7 on Lanterns: [render] leaves the instance as it is, but a second
    [render] does not paint what the first painted.  On a 224 x 1000 canvas
    whose context has just been created, with random numbers that put the
    first lantern at y = 999 (all other draws 0), that lantern has a depth
    below 0.22 and is painted before every branch: its ribs are stroked
    with the butt cap and the miter join of the new context in the first
    [render] and, [drawObstruction] having set both to round without
    restoring them, with round ones in the second. *)
Lemma Lanterns_first_render_differs :
  let g := fun n => if Nat.eqb n 1 then 0.999 else 0 in
  let e := Lanterns (fst (LanternsVisual.new 224 1000 g)) in
  let first := render e Ctx.created in
  let second := render (instance first) (context first) in
  valid_source g /\
  instance first = e /\
  instance second = e /\
  map Ctx.shape (canvas second) = map Ctx.shape (canvas first) /\
  canvas second <> canvas first.
Proof.
  intros g e first second.
  assert (Hg : valid_source g).
  { intros n. unfold g. destruct (Nat.eqb n 1); lra. }
  split; [exact Hg|].
  set (v := fst (LanternsVisual.new 224 1000 g)) in *.
  assert (H1 : first = {| instance := e;
                          context := left_by e Ctx.created;
                          canvas := snd (Ctx.run (render_calls e) Ctx.created) |}).
  { unfold first. now rewrite render_frame, rendered_same, render_context. }
  assert (H2 : second
               = {| instance := e; context := left_by e Ctx.created;
                    canvas := snd (Ctx.run (render_calls e)
                                     (left_by e Ctx.created)) |}).
  { unfold second. rewrite H1. cbn [instance context].
    now rewrite render_frame, rendered_same, render_context, left_by_idem. }
  rewrite H2, H1. cbn [instance canvas]. split; [reflexivity|].
  split; [reflexivity|]. split; [now rewrite !Ctx_run_shapes|].
  unfold e. cbn [left_by render_calls].
  destruct (Lanterns_new_fields 224 1000 g) as [Hb Hl].
  destruct (Lanterns_new_obstructions 224 1000 g) as (g1 & Hobs & _).
  fold v in Hb, Hl, Hobs.
  apply Lanterns_unsettled_differs.
  - rewrite Hobs. intros E. apply (f_equal (@length _)) in E.
    rewrite for_push_length in E. discriminate E.
  - assert (Hcount : Z.to_nat (LanternsVisual.lanternCount
                                 (visualScale 224 1000)) = 12%nat).
    { rewrite visualScale_224_1000.
      unfold LanternsVisual.lanternCount, Js.floor.
      rewrite (Zfloor_eq 12 (6 * 2)) by lra. reflexivity. }
    rewrite Hcount in Hl.
    destruct (for_push_head 11 0
                (LanternsVisual.newLantern
                   {| LanternsVisual.base := BaseVisual.new 224 1000;
                      LanternsVisual.lanterns := [];
                      LanternsVisual.obstructions := [] |}) g)
      as (rest & Ehead).
    rewrite Ehead in Hl.
    set (l0 := fst (LanternsVisual.newLantern
                      {| LanternsVisual.base := BaseVisual.new 224 1000;
                         LanternsVisual.lanterns := [];
                         LanternsVisual.obstructions := [] |} 0 g)) in *.
    apply (Lanterns_leading_nonempty v l0).
    + rewrite Hl. now left.
    + assert (Hy : LanternsVisual.y l0 = 999).
      { unfold l0, LanternsVisual.newLantern, bind, Math_random, ret, g.
        cbn. lra. }
      assert (Hr : LanternsVisual.radius l0 = 32.48).
      { unfold l0, LanternsVisual.newLantern, bind, Math_random, ret, g.
        cbn. rewrite visualScale_224_1000. lra. }
      assert (Hh : BaseVisual.height (LanternsVisual.base v) = 1000)
        by (rewrite Hb; reflexivity).
      assert (Hdepth : LanternsVisual.lanternDepth v l0 < 0.22).
      { unfold LanternsVisual.lanternDepth.
        rewrite clampedY_inside by (rewrite ?Hh, Hy, Hr; lra).
        rewrite Hh, Hy, Hr.
        assert (Hq : 0.88 < 999 / (1000 + 32.48 * 4)).
        { apply (Rmult_lt_reg_r (1000 + 32.48 * 4)); [lra|].
          unfold Rdiv. rewrite Rmult_assoc, Rinv_l by lra. lra. }
        lra. }
      intros o Ho. rewrite Hobs in Ho.
      unfold LanternsVisual.newBranch, bind, Math_random, ret in Ho.
      cbn in Ho.
      destruct Ho as [<- | [<- | [<- | [<- | [<- | []]]]]];
        cbn [LanternsVisual.ob_depth]; lra.
  - left. discriminate.
Qed.

(** ** The host *)

(** X23: [getVisualClass] resolves each of the eight identifiers
    [initPreviews] uses to a class of its own, and every class is reached;
    any other identifier yields [MosaicVisual], unless it names a member
    inherited from [Object.prototype], in which case that member is
    returned and not a visual class. *)
Theorem getVisualClass_resolves (inherited : string -> bool) (type : string) :
  let resolve := VisualScreensaver.getVisualClass inherited in
  (In type VisualScreensaver.types ->
   exists c, resolve type = VisualScreensaver.visual_class c /\
             In (type, c) VisualScreensaver.visuals) /\
  (~ In type VisualScreensaver.types -> inherited type = false ->
   resolve type = VisualScreensaver.visual_class VisualScreensaver.class_mosaic) /\
  (~ In type VisualScreensaver.types -> inherited type = true ->
   resolve type = VisualScreensaver.prototype_member type) /\
  (forall c, exists t, In t VisualScreensaver.types /\
                       resolve t = VisualScreensaver.visual_class c) /\
  (forall t1 t2, In t1 VisualScreensaver.types ->
                 In t2 VisualScreensaver.types ->
                 resolve t1 = resolve t2 -> t1 = t2).
Proof.
  intros resolve.
  assert (Hnone : ~ In type VisualScreensaver.types ->
            VisualScreensaver.own_property VisualScreensaver.visuals type = None).
  { intros Hn. unfold VisualScreensaver.visuals.
    cbn [VisualScreensaver.own_property].
    repeat match goal with
           | |- context [String.eqb ?k type] =>
               let E := fresh "E" in
               destruct (String.eqb_spec k type) as [E | E];
               [ exfalso; apply Hn; rewrite <- E; simpl; tauto | ]
           end.
    reflexivity. }
  split; [|split; [|split; [|split]]].
  - intros Hin. simpl in Hin.
    repeat (destruct Hin as [<- | Hin];
            [eexists; split; [reflexivity | simpl; tauto] | ]).
    contradiction.
  - intros Hn Hi. unfold resolve, VisualScreensaver.getVisualClass.
    now rewrite (Hnone Hn), Hi.
  - intros Hn Hi. unfold resolve, VisualScreensaver.getVisualClass.
    now rewrite (Hnone Hn), Hi.
  - intros c.
    destruct c;
      [ exists "mosaic"%string | exists "smoke"%string
      | exists "lightshade"%string | exists "lanterns"%string
      | exists "sunset"%string | exists "bloom"%string
      | exists "urbanity"%string | exists "streets"%string ];
      (split; [simpl; tauto | reflexivity]).
  - intros t1 t2 H1 H2. simpl in H1, H2.
    repeat (destruct H1 as [<- | H1]);
      try contradiction;
      repeat (destruct H2 as [<- | H2]);
      try contradiction; intros E; try reflexivity; discriminate E.
Qed.

Lemma last_cons_default {A} (a d : A) (l : list A) :
  last (a :: l) d = last l a.
Proof.
  revert a d. induction l as [|b l IH]; intros a d; [reflexivity|].
  change (last (a :: b :: l) d) with (last (b :: l) d).
  now rewrite (IH b d), (IH b a).
Qed.

Lemma ticked_spaced (lastTime : R) (times : list R) :
  Sorted (fun a b => a + 16 < b) (lastTime :: ticked lastTime times) /\
  incl (ticked lastTime times) times /\
  lastTime + 16 * INR (length (ticked lastTime times))
    <= last (ticked lastTime times) lastTime.
Proof.
  revert lastTime. induction times as [|t times IH]; intros lastTime.
  - simpl. split; [repeat constructor|]. split; [apply incl_refl | lra].
  - cbn [ticked]. destruct (Rgt_dec (t - lastTime) 16) as [Hgo | Hno].
    + destruct (IH t) as (Hs & Hi & Hl). split; [|split].
      * constructor; [exact Hs|]. constructor. lra.
      * intros a [<- | Ha]; [now left | right; now apply Hi].
      * rewrite last_cons_default. cbn [length]. rewrite S_INR. lra.
    + destruct (IH lastTime) as (Hs & Hi & Hl). split; [exact Hs|].
      split; [|exact Hl]. intros a Ha. right. now apply Hi.
Qed.

Lemma previewFrames_ticks {V} (tick : V -> Rnd V) (times : list R) :
  forall (lastTime : R) (v : V) g,
  VisualScreensaver.previewFrames tick (lastTime, v) times g
  = ((last (ticked lastTime times) lastTime,
      fst (ticks tick (length (ticked lastTime times)) v g)),
     snd (ticks tick (length (ticked lastTime times)) v g)).
Proof.
  induction times as [|t times IH]; intros lastTime v g; [reflexivity|].
  cbn [VisualScreensaver.previewFrames ticked].
  unfold bind, VisualScreensaver.previewAnimate. cbn [fst snd].
  destruct (Rgt_dec (t - lastTime) 16).
  - cbn [length ticks]. unfold bind.
    destruct (tick v g) as [v1 g1]. unfold ret.
    rewrite IH, last_cons_default. reflexivity.
  - unfold ret. apply IH.
Qed.

(** X24: the preview driver ticks its instance (update, then render) only
    on a frame whose timestamp is more than 16 ms after the last tick
    (time 0 at the start): over any frames the instance ends as after as
    many ticks as there are such frames, consecutive ticks are more than
    16 ms apart, and so n ticks take more than 16*n ms. *)
Theorem preview_ticks_are_throttled
  {V} (tick : V -> Rnd V) (lastTime : R) (v : V) (times : list R)
  (g : RandomSource) :
  let done := VisualScreensaver.previewFrames tick (lastTime, v) times g in
  let at_ := ticked lastTime times in
  fst (fst done) = last at_ lastTime /\
  (snd (fst done), snd done) = ticks tick (length at_) v g /\
  Sorted (fun a b => a + 16 < b) (lastTime :: at_) /\
  incl at_ times /\
  lastTime + 16 * INR (length at_) <= last at_ lastTime.
Proof.
  intros done at_.
  destruct (ticked_spaced lastTime times) as (Hs & Hi & Hl).
  unfold done. rewrite previewFrames_ticks. cbn [fst snd]. fold at_.
  split; [reflexivity|].
  split; [now destruct (ticks tick (length at_) v g)|].
  split; [exact Hs | split; [exact Hi | exact Hl]].
Qed.
